(** * har2xss: request parameters reflected in response bodies

  A shallow embedding of the two programs of the repository:

  - the correlation tool ([search], [main]): every request parameter of a
    HAR entry is decoded recursively through JSON and base64 layers, and the
    leaves contained in the response body are reported per entry;
  - the dump tool ([printParam], [printParamRecurse], [print], [main]):
    every decodable parameter value is printed.

  Go's [string] and [[]byte] are modelled as [string] (a sequence of 8-bit
  [ascii] values).  The parts of the Go standard library that decide the
  control flow of the decoder (encoding/base64, encoding/json, unicode/utf8)
  are modelled concretely; net/url, the Unicode tables, map iteration order
  and the growth policy of [append] enter as section variables. *)

From Stdlib Require Import String Ascii List NArith Lia Permutation Bool.
From Stdlib Require DecimalString.
From stdpp Require Import base list strings.

Open Scope string_scope.
Open Scope nat_scope.
Open Scope list_scope.

(** ** Byte strings *)

Module Bytes.

Definition code (c : ascii) : N := N_of_ascii c.

Definition byte (n : N) : ascii := ascii_of_N (n mod 256).

(** [c < utf8.RuneSelf] *)
Definition is_ascii (c : ascii) : bool := (code c <? 128)%N.

(** Number of bytes below 0x80; the termination measure of the decoders. *)
Fixpoint ascii_count (l : list ascii) : nat :=
  match l with
  | [] => 0
  | c :: l' => (if is_ascii c then 1 else 0) + ascii_count l'
  end.

Definition weight (s : string) : nat := ascii_count (list_ascii_of_string s).

End Bytes.

(** ** encoding/base64, [StdEncoding] *)

Module Base64.
Import Bytes.

Definition encodeStd : string :=
  "ABCDEFGHIJKLMNOPQRSTUVWXYZabcdefghijklmnopqrstuvwxyz0123456789+/".

Definition padChar : ascii := "="%char.

(** [enc.encode[n]] *)
Definition encodeChar (n : N) : ascii :=
  nth (N.to_nat n) (list_ascii_of_string encodeStd) "A"%char.

Fixpoint index_of (c : ascii) (l : list ascii) (i : N) : option N :=
  match l with
  | [] => None
  | d :: l' => if Ascii.eqb c d then Some i else index_of c l' (N.succ i)
  end.

(** [enc.decodeMap[c]]; [None] stands for the entry 0xff. *)
Definition decodeMap (c : ascii) : option N :=
  index_of c (list_ascii_of_string encodeStd) 0%N.

Definition is_newline (c : ascii) : bool :=
  Ascii.eqb c "010"%char || Ascii.eqb c "013"%char.

Fixpoint skip_newlines (src : list ascii) : list ascii :=
  match src with
  | c :: rest => if is_newline c then skip_newlines rest else src
  | [] => []
  end.

(** The tail of [decodeQuantum]: the sextets of [dbuf] (missing ones are
    zero) are packed into 24 bits, of which [length dbuf - 1] bytes are
    written. *)
Definition quantum (dbuf : list N) : list ascii :=
  let d i := nth i dbuf 0%N in
  let val := N.lor (N.lor (N.lor (N.shiftl (d 0) 18) (N.shiftl (d 1) 12))
                          (N.shiftl (d 2) 6)) (d 3) in
  take (length dbuf - 1)
       [byte (N.shiftr val 16); byte (N.shiftr val 8); byte val].

(** After the padding of the last quantum only newlines may follow;
    anything else is reported as trailing garbage, but the bytes of the
    quantum are still written. *)
Definition finish (dbuf : list N) (rest : list ascii) : list ascii * bool :=
  (quantum dbuf, match skip_newlines rest with [] => false | _ => true end).

(** [Decode]: the loop over [decodeQuantum].  [dbuf] holds the sextets read
    so far for the current quantum.  The result is the decoded prefix
    [dbuf[:n]] and whether an error was returned. *)
Fixpoint decode (src : list ascii) (dbuf : list N) : list ascii * bool :=
  match src with
  | [] => match dbuf with [] => ([], false) | _ => ([], true) end
  | c :: rest =>
      match decodeMap c with
      | Some v =>
          let dbuf' := dbuf ++ [v] in
          if Nat.eqb (length dbuf') 4
          then let '(out, err) := decode rest [] in (quantum dbuf' ++ out, err)
          else decode rest dbuf'
      | None =>
          if is_newline c then decode rest dbuf
          else if Ascii.eqb c padChar then
            match length dbuf with
            | 0 | 1 => ([], true)
            | 2 => match skip_newlines rest with
                   | c2 :: rest2 =>
                       if Ascii.eqb c2 padChar then finish dbuf rest2
                       else ([], true)
                   | [] => ([], true)
                   end
            | _ => finish dbuf rest
            end
          else ([], true)
      end
  end.

(** [base64.StdEncoding.DecodeString]: the bytes decoded before the first
    error, and the error flag. *)
Definition DecodeString (s : string) : string * bool :=
  let '(out, err) := decode (list_ascii_of_string s) [] in
  (string_of_list_ascii out, err).

(** [Encode] *)
Fixpoint encode (src : list ascii) : list ascii :=
  match src with
  | [] => []
  | [a] =>
      let val := N.shiftl (code a) 16 in
      [encodeChar (N.land (N.shiftr val 18) 63);
       encodeChar (N.land (N.shiftr val 12) 63); padChar; padChar]
  | [a; b] =>
      let val := N.lor (N.shiftl (code a) 16) (N.shiftl (code b) 8) in
      [encodeChar (N.land (N.shiftr val 18) 63);
       encodeChar (N.land (N.shiftr val 12) 63);
       encodeChar (N.land (N.shiftr val 6) 63); padChar]
  | a :: b :: c :: rest =>
      let val := N.lor (N.lor (N.shiftl (code a) 16) (N.shiftl (code b) 8))
                       (code c) in
      encodeChar (N.land (N.shiftr val 18) 63)
      :: encodeChar (N.land (N.shiftr val 12) 63)
      :: encodeChar (N.land (N.shiftr val 6) 63)
      :: encodeChar (N.land val 63) :: encode rest
  end.

(** [base64.StdEncoding.EncodeToString] *)
Definition EncodeToString (s : string) : string :=
  string_of_list_ascii (encode (list_ascii_of_string s)).

End Base64.

(** ** unicode/utf8 and unicode/utf16 *)

Module UTF8.
Import Bytes.

Definition rune := N.

Definition RuneError : rune := 65533%N.
Definition MaxRune : rune := 1114111%N.

Definition between (lo hi x : N) : bool := ((lo <=? x) && (x <=? hi))%N.

(** The entries of the table [first]: ASCII, invalid, or the size of the
    sequence with the accepted range of its second byte. *)
Inductive lead :=
| LeadASCII
| LeadInvalid
| LeadSeq (size : nat) (lo hi : N).

Definition first (p0 : N) : lead :=
  if (p0 <? 128)%N then LeadASCII
  else if (p0 <? 194)%N then LeadInvalid
  else if (p0 <? 224)%N then LeadSeq 2 128 191
  else if (p0 =? 224)%N then LeadSeq 3 160 191
  else if (p0 <? 237)%N then LeadSeq 3 128 191
  else if (p0 =? 237)%N then LeadSeq 3 128 159
  else if (p0 <? 240)%N then LeadSeq 3 128 191
  else if (p0 =? 240)%N then LeadSeq 4 144 191
  else if (p0 <? 244)%N then LeadSeq 4 128 191
  else if (p0 =? 244)%N then LeadSeq 4 128 143
  else LeadInvalid.

Definition cont (b : N) : bool := between 128 191 b.

(** [utf8.DecodeRune]: the rune and its width in bytes. *)
Definition DecodeRune (p : list ascii) : rune * nat :=
  match p with
  | [] => (RuneError, 0)
  | c0 :: p1 =>
      let p0 := code c0 in
      match first p0 with
      | LeadASCII => (p0, 1)
      | LeadInvalid => (RuneError, 1)
      | LeadSeq sz lo hi =>
          match p1 with
          | [] => (RuneError, 1)
          | c1 :: p2 =>
              let b1 := code c1 in
              if negb (between lo hi b1) then (RuneError, 1)
              else if Nat.leb sz 2
              then (N.lor (N.shiftl (N.land p0 31) 6) (N.land b1 63), 2)
              else
                match p2 with
                | [] => (RuneError, 1)
                | c2 :: p3 =>
                    let b2 := code c2 in
                    if negb (cont b2) then (RuneError, 1)
                    else if Nat.leb sz 3
                    then (N.lor (N.lor (N.shiftl (N.land p0 15) 12)
                                       (N.shiftl (N.land b1 63) 6))
                                (N.land b2 63), 3)
                    else
                      match p3 with
                      | [] => (RuneError, 1)
                      | c3 :: _ =>
                          let b3 := code c3 in
                          if negb (cont b3) then (RuneError, 1)
                          else (N.lor (N.lor (N.lor (N.shiftl (N.land p0 7) 18)
                                                    (N.shiftl (N.land b1 63) 12))
                                             (N.shiftl (N.land b2 63) 6))
                                      (N.land b3 63), 4)
                      end
                end
          end
      end
  end.

Definition encode3 (r : rune) : list ascii :=
  [byte (N.lor 224 (N.shiftr r 12));
   byte (N.lor 128 (N.land (N.shiftr r 6) 63));
   byte (N.lor 128 (N.land r 63))].

(** [utf8.EncodeRune] (also [utf8.AppendRune]) *)
Definition EncodeRune (r : rune) : list ascii :=
  if (r <=? 127)%N then [byte r]
  else if (r <=? 2047)%N then
    [byte (N.lor 192 (N.shiftr r 6)); byte (N.lor 128 (N.land r 63))]
  else if (MaxRune <? r)%N || between 55296 57343 r then encode3 RuneError
  else if (r <=? 65535)%N then encode3 r
  else [byte (N.lor 240 (N.shiftr r 18));
        byte (N.lor 128 (N.land (N.shiftr r 12) 63));
        byte (N.lor 128 (N.land (N.shiftr r 6) 63));
        byte (N.lor 128 (N.land r 63))].

(** [utf16.IsSurrogate] *)
Definition IsSurrogate (r : rune) : bool := between 55296 57343 r.

(** [utf16.DecodeRune] *)
Definition DecodeSurrogates (r1 r2 : rune) : rune :=
  if between 55296 56319 r1 && between 56320 57343 r2
  then (N.lor (N.shiftl (r1 - 55296) 10) (r2 - 56320) + 65536)%N
  else RuneError.

(** The runes of a string, as [for _, r := range s] yields them. *)
Fixpoint runes_fuel (fuel : nat) (p : list ascii) : list rune :=
  match fuel, p with
  | S fuel', _ :: _ =>
      let '(r, size) := DecodeRune p in r :: runes_fuel fuel' (drop size p)
  | _, _ => []
  end.

Definition runes (s : string) : list rune :=
  let p := list_ascii_of_string s in runes_fuel (length p) p.

(** The loop of [utf8.ValidString]: no byte decodes to [RuneError] with
    width one. *)
Fixpoint valid_fuel (fuel : nat) (p : list ascii) : bool :=
  match p, fuel with
  | [], _ => true
  | _ :: _, 0 => false
  | c :: p', S fuel' =>
      if is_ascii c then valid_fuel fuel' p'
      else
        let '(_, size) := DecodeRune p in
        if Nat.leb size 1 then false else valid_fuel fuel' (drop size p)
  end.

(** [utf8.ValidString] *)
Definition ValidString (s : string) : bool :=
  let p := list_ascii_of_string s in valid_fuel (length p) p.

End UTF8.

(** ** encoding/json: the scanner ([scanner.go]) *)

Module JSON.
Import Bytes.

Definition quote : ascii := "034"%char.
Definition backslash : ascii := "\"%char.

(** [isSpace] *)
Definition isSpace (c : ascii) : bool :=
  Ascii.eqb c " "%char || Ascii.eqb c "009"%char
  || Ascii.eqb c "013"%char || Ascii.eqb c "010"%char.

Definition isDigit (c : ascii) : bool := UTF8.between 48 57 (code c).
Definition isDigit19 (c : ascii) : bool := UTF8.between 49 57 (code c).
Definition isHex (c : ascii) : bool :=
  isDigit c || UTF8.between 97 102 (code c) || UTF8.between 65 70 (code c).

(** The step functions of the scanner. *)
Inductive state :=
| stateBeginValueOrEmpty | stateBeginValue | stateBeginStringOrEmpty
| stateBeginString | stateEndValue | stateEndTop
| stateInString | stateInStringEsc | stateInStringEscU | stateInStringEscU1
| stateInStringEscU12 | stateInStringEscU123
| stateNeg | state1 | state0 | stateDot | stateDot0 | stateE | stateESign
| stateE0
| stateT | stateTr | stateTru | stateF | stateFa | stateFal | stateFals
| stateN | stateNu | stateNul.

Inductive parse := parseObjectKey | parseObjectValue | parseArrayValue.

(** [parseState] is kept with its last element (the innermost container)
    at the head. *)
Record scanner := mkScanner {
  step : state;
  parseState : list parse;
  endTop : bool
}.

Definition maxNestingDepth : N := 10000%N.

(** [scanner.reset] *)
Definition reset : scanner := mkScanner stateBeginValue [] false.

Definition goto (s : scanner) (st : state) : option scanner :=
  Some (mkScanner st (parseState s) (endTop s)).

(** [pushParseState] *)
Definition pushParseState (s : scanner) (p : parse) (st : state)
  : option scanner :=
  let ps := p :: parseState s in
  if (N.of_nat (length ps) <=? maxNestingDepth)%N
  then Some (mkScanner st ps (endTop s)) else None.

(** [popParseState] *)
Definition popParseState (s : scanner) : option scanner :=
  match tail (parseState s) with
  | [] => Some (mkScanner stateEndTop [] true)
  | ps => Some (mkScanner stateEndValue ps (endTop s))
  end.

Definition do_stateEndTop (s : scanner) (c : ascii) : option scanner :=
  if isSpace c then Some s else None.

Definition do_stateEndValue (s : scanner) (c : ascii) : option scanner :=
  match parseState s with
  | [] => do_stateEndTop (mkScanner stateEndTop [] true) c
  | p :: ps =>
      if isSpace c then goto s stateEndValue
      else
        match p with
        | parseObjectKey =>
            if Ascii.eqb c ":"%char
            then Some (mkScanner stateBeginValue (parseObjectValue :: ps)
                                 (endTop s))
            else None
        | parseObjectValue =>
            if Ascii.eqb c ","%char
            then Some (mkScanner stateBeginString (parseObjectKey :: ps)
                                 (endTop s))
            else if Ascii.eqb c "}"%char then popParseState s
            else None
        | parseArrayValue =>
            if Ascii.eqb c ","%char then goto s stateBeginValue
            else if Ascii.eqb c "]"%char then popParseState s
            else None
        end
  end.

Definition do_stateBeginValue (s : scanner) (c : ascii) : option scanner :=
  if isSpace c then Some s
  else if Ascii.eqb c "{"%char
  then pushParseState s parseObjectKey stateBeginStringOrEmpty
  else if Ascii.eqb c "["%char
  then pushParseState s parseArrayValue stateBeginValueOrEmpty
  else if Ascii.eqb c quote then goto s stateInString
  else if Ascii.eqb c "-"%char then goto s stateNeg
  else if Ascii.eqb c "0"%char then goto s state0
  else if Ascii.eqb c "t"%char then goto s stateT
  else if Ascii.eqb c "f"%char then goto s stateF
  else if Ascii.eqb c "n"%char then goto s stateN
  else if isDigit19 c then goto s state1
  else None.

Definition do_stateBeginString (s : scanner) (c : ascii) : option scanner :=
  if isSpace c then Some s
  else if Ascii.eqb c quote then goto s stateInString
  else None.

Definition do_state0 (s : scanner) (c : ascii) : option scanner :=
  if Ascii.eqb c "."%char then goto s stateDot
  else if Ascii.eqb c "e"%char || Ascii.eqb c "E"%char then goto s stateE
  else do_stateEndValue s c.

Definition do_stateESign (s : scanner) (c : ascii) : option scanner :=
  if isDigit c then goto s stateE0 else None.

Definition expect (s : scanner) (c want : ascii) (st : state)
  : option scanner :=
  if Ascii.eqb c want then goto s st else None.

(** [s.step(s, c)]; [None] is [scanError]. *)
Definition scan_step (s : scanner) (c : ascii) : option scanner :=
  match step s with
  | stateBeginValueOrEmpty =>
      if isSpace c then Some s
      else if Ascii.eqb c "]"%char then do_stateEndValue s c
      else do_stateBeginValue s c
  | stateBeginValue => do_stateBeginValue s c
  | stateBeginStringOrEmpty =>
      if isSpace c then Some s
      else if Ascii.eqb c "}"%char
      then do_stateEndValue
             (mkScanner (step s) (parseObjectValue :: tail (parseState s))
                        (endTop s)) c
      else do_stateBeginString s c
  | stateBeginString => do_stateBeginString s c
  | stateEndValue => do_stateEndValue s c
  | stateEndTop => do_stateEndTop s c
  | stateInString =>
      if Ascii.eqb c quote then goto s stateEndValue
      else if Ascii.eqb c backslash then goto s stateInStringEsc
      else if (code c <? 32)%N then None
      else Some s
  | stateInStringEsc =>
      if Ascii.eqb c "b"%char || Ascii.eqb c "f"%char || Ascii.eqb c "n"%char
         || Ascii.eqb c "r"%char || Ascii.eqb c "t"%char
         || Ascii.eqb c backslash || Ascii.eqb c "/"%char || Ascii.eqb c quote
      then goto s stateInString
      else if Ascii.eqb c "u"%char then goto s stateInStringEscU
      else None
  | stateInStringEscU => if isHex c then goto s stateInStringEscU1 else None
  | stateInStringEscU1 => if isHex c then goto s stateInStringEscU12 else None
  | stateInStringEscU12 =>
      if isHex c then goto s stateInStringEscU123 else None
  | stateInStringEscU123 => if isHex c then goto s stateInString else None
  | stateNeg =>
      if Ascii.eqb c "0"%char then goto s state0
      else if isDigit19 c then goto s state1
      else None
  | state1 => if isDigit c then Some s else do_state0 s c
  | state0 => do_state0 s c
  | stateDot => if isDigit c then goto s stateDot0 else None
  | stateDot0 =>
      if isDigit c then Some s
      else if Ascii.eqb c "e"%char || Ascii.eqb c "E"%char then goto s stateE
      else do_stateEndValue s c
  | stateE =>
      if Ascii.eqb c "+"%char || Ascii.eqb c "-"%char then goto s stateESign
      else do_stateESign s c
  | stateESign => do_stateESign s c
  | stateE0 => if isDigit c then Some s else do_stateEndValue s c
  | stateT => expect s c "r" stateTr
  | stateTr => expect s c "u" stateTru
  | stateTru => expect s c "e" stateEndValue
  | stateF => expect s c "a" stateFa
  | stateFa => expect s c "l" stateFal
  | stateFal => expect s c "s" stateFals
  | stateFals => expect s c "e" stateEndValue
  | stateN => expect s c "u" stateNu
  | stateNu => expect s c "l" stateNul
  | stateNul => expect s c "l" stateEndValue
  end.

(** [scanner.eof] *)
Definition eof (s : scanner) : bool :=
  if endTop s then true
  else match scan_step s " "%char with
       | Some s' => endTop s'
       | None => false
       end.

Fixpoint scan_all (s : scanner) (data : list ascii) : bool :=
  match data with
  | [] => eof s
  | c :: data' =>
      match scan_step s c with
      | Some s' => scan_all s' data'
      | None => false
      end
  end.

(** [checkValid]: [true] when [data] is one JSON value, surrounded by
    optional white space. *)
Definition checkValid (data : list ascii) : bool := scan_all reset data.

(** *** The decoder ([decode.go]) *)

Definition hexval (c : ascii) : N :=
  let n := code c in
  if isDigit c then (n - 48)%N
  else if UTF8.between 97 102 n then (n - 97 + 10)%N
  else (n - 65 + 10)%N.

(** [getu4]: the rune of a [\uXXXX] escape at the head of [s]. *)
Definition getu4 (s : list ascii) : option N :=
  match s with
  | b :: u :: h1 :: h2 :: h3 :: h4 :: _ =>
      if Ascii.eqb b backslash && Ascii.eqb u "u"%char
         && isHex h1 && isHex h2 && isHex h3 && isHex h4
      then Some (hexval h1 * 4096 + hexval h2 * 256 + hexval h3 * 16
                 + hexval h4)%N
      else None
  | _ => None
  end.

Definition simple_escape (c : ascii) : option ascii :=
  if Ascii.eqb c quote || Ascii.eqb c backslash || Ascii.eqb c "/"%char
     || Ascii.eqb c "'"%char
  then Some c
  else if Ascii.eqb c "b"%char then Some "008"%char
  else if Ascii.eqb c "f"%char then Some "012"%char
  else if Ascii.eqb c "n"%char then Some "010"%char
  else if Ascii.eqb c "r"%char then Some "013"%char
  else if Ascii.eqb c "t"%char then Some "009"%char
  else None.

(** The loop of [unquoteBytes] over the text between the quotes.  Each
    iteration consumes at least one byte, so [length s] iterations are
    enough. *)
Fixpoint unquote_loop (fuel : nat) (s : list ascii) : option (list ascii) :=
  match s with
  | [] => Some []
  | c :: s1 =>
      match fuel with
      | 0 => None
      | S fuel' =>
          if Ascii.eqb c backslash then
            match s1 with
            | [] => None
            | e :: s2 =>
                if Ascii.eqb e "u"%char then
                  match getu4 s with
                  | None => None
                  | Some rr =>
                      let s6 := drop 6 s in
                      if UTF8.IsSurrogate rr then
                        let dec :=
                          match getu4 s6 with
                          | Some rr1 => UTF8.DecodeSurrogates rr rr1
                          | None => UTF8.RuneError
                          end in
                        if negb (dec =? UTF8.RuneError)%N
                        then option_map (app (UTF8.EncodeRune dec))
                                        (unquote_loop fuel' (drop 6 s6))
                        else option_map (app (UTF8.EncodeRune UTF8.RuneError))
                                        (unquote_loop fuel' s6)
                      else option_map (app (UTF8.EncodeRune rr))
                                      (unquote_loop fuel' s6)
                  end
                else
                  match simple_escape e with
                  | Some b => option_map (cons b) (unquote_loop fuel' s2)
                  | None => None
                  end
            end
          else if Ascii.eqb c quote || (code c <? 32)%N then None
          else if is_ascii c then option_map (cons c) (unquote_loop fuel' s1)
          else
            let '(rr, size) := UTF8.DecodeRune s in
            option_map (app (UTF8.EncodeRune rr))
                       (unquote_loop fuel' (drop size s))
      end
  end.

(** [unquoteBytes] on a quoted literal. *)
Definition unquoteBytes (item : list ascii) : option (list ascii) :=
  match item with
  | q :: rest =>
      match reverse rest with
      | q' :: body_rev =>
          if Ascii.eqb q quote && Ascii.eqb q' quote
          then let body := reverse body_rev in unquote_loop (length body) body
          else None
      | [] => None
      end
  | [] => None
  end.

(** [scanWhile(scanSkipSpace)] *)
Fixpoint skip_space (s : list ascii) : list ascii :=
  match s with
  | c :: s' => if isSpace c then skip_space s' else s
  | [] => []
  end.

(** The string case of [rescanLiteral], after the opening quote: the bytes
    up to and including the closing quote, and what follows. *)
Fixpoint rescan_string (s : list ascii) : list ascii * list ascii :=
  match s with
  | [] => ([], [])
  | c :: s1 =>
      if Ascii.eqb c backslash then
        match s1 with
        | e :: s2 => let '(lit, rest) := rescan_string s2 in
                     (c :: e :: lit, rest)
        | [] => ([c], [])
        end
      else if Ascii.eqb c quote then ([c], s1)
      else let '(lit, rest) := rescan_string s1 in (c :: lit, rest)
  end.

Definition isNumberByte (c : ascii) : bool :=
  isDigit c || Ascii.eqb c "."%char || Ascii.eqb c "e"%char
  || Ascii.eqb c "E"%char || Ascii.eqb c "+"%char || Ascii.eqb c "-"%char.

Fixpoint rescan_number (s : list ascii) : list ascii * list ascii :=
  match s with
  | c :: s1 =>
      if isNumberByte c
      then let '(lit, rest) := rescan_number s1 in (c :: lit, rest)
      else ([], s)
  | [] => ([], [])
  end.

(** [rescanLiteral]: the literal that starts at the head of [s], and the
    rest of the input. *)
Definition rescanLiteral (s : list ascii) : list ascii * list ascii :=
  match s with
  | [] => ([], [])
  | c :: s1 =>
      if Ascii.eqb c quote
      then let '(lit, rest) := rescan_string s1 in (c :: lit, rest)
      else if isDigit c || Ascii.eqb c "-"%char
      then let '(lit, rest) := rescan_number s1 in (c :: lit, rest)
      else if Ascii.eqb c "t"%char then (take 4 s, drop 4 s)
      else if Ascii.eqb c "f"%char then (take 5 s, drop 5 s)
      else if Ascii.eqb c "n"%char then (take 4 s, drop 4 s)
      else ([c], s1)
  end.

(** [skip]: steps the scanner until the container entered last is closed;
    returns the bytes read and the rest of the input. *)
Fixpoint skip (sc : scanner) (s : list ascii)
  : option (list ascii * list ascii) :=
  match s with
  | [] => None
  | c :: s1 =>
      match scan_step sc c with
      | None => None
      | Some sc' =>
          match parseState sc' with
          | [] => Some ([c], s1)
          | _ => match skip sc' s1 with
                 | Some (raw, rest) => Some (c :: raw, rest)
                 | None => None
                 end
          end
      end
  end.

(** [d.value] into a [json.RawMessage]: the text of the value at the head of
    [s] (its first byte has been seen already), and the rest of the input. *)
Definition rawValue (s : list ascii) : option (list ascii * list ascii) :=
  match s with
  | [] => None
  | c :: _ =>
      if Ascii.eqb c "{"%char || Ascii.eqb c "["%char then skip reset s
      else Some (rescanLiteral s)
  end.

(** The loop of [d.array] into a [[]json.RawMessage], after the opening
    bracket.  [first] is true on the first iteration, the only one that may
    meet the closing bracket in place of a value. *)
Fixpoint array_loop (fuel : nat) (first : bool) (s : list ascii)
  : option (list (list ascii)) :=
  match fuel with
  | 0 => None
  | S fuel' =>
      let s := skip_space s in
      match s with
      | [] => None
      | c :: _ =>
          if first && Ascii.eqb c "]"%char then Some []
          else
            match rawValue s with
            | None => None
            | Some (raw, rest) =>
                match skip_space rest with
                | d :: rest' =>
                    if Ascii.eqb d "]"%char then Some [raw]
                    else if Ascii.eqb d ","%char
                    then option_map (cons raw) (array_loop fuel' false rest')
                    else None
                | [] => None
                end
            end
      end
  end.

(** The loop of [d.object] into a [map[string]json.RawMessage], after the
    opening brace: the members in source order, keys unquoted. *)
Fixpoint object_loop (fuel : nat) (first : bool) (s : list ascii)
  : option (list (list ascii * list ascii)) :=
  match fuel with
  | 0 => None
  | S fuel' =>
      let s := skip_space s in
      match s with
      | [] => None
      | c :: _ =>
          if first && Ascii.eqb c "}"%char then Some []
          else
            let '(item, rest) := rescanLiteral s in
            match unquoteBytes item with
            | None => None
            | Some key =>
                match skip_space rest with
                | colon :: rest1 =>
                    if Ascii.eqb colon ":"%char then
                      match rawValue (skip_space rest1) with
                      | None => None
                      | Some (raw, rest2) =>
                          match skip_space rest2 with
                          | d :: rest3 =>
                              if Ascii.eqb d "}"%char then Some [(key, raw)]
                              else if Ascii.eqb d ","%char
                              then option_map (cons (key, raw))
                                     (object_loop fuel' false rest3)
                              else None
                          | [] => None
                          end
                      end
                    else None
                | [] => None
                end
            end
      end
  end.

(** [v.SetMapIndex] for every member in turn: a later member replaces an
    earlier one with the same key. *)
Fixpoint setMapIndex (m : list (string * string)) (k v : string)
  : list (string * string) :=
  match m with
  | [] => [(k, v)]
  | (k', v') :: m' =>
      if String.eqb k k' then (k, v) :: m' else (k', v') :: setMapIndex m' k v
  end.

Definition to_map (members : list (list ascii * list ascii))
  : list (string * string) :=
  fold_left (fun m kv => setMapIndex m (string_of_list_ascii (fst kv))
                                     (string_of_list_ascii (snd kv)))
            members [].

(** [json.Unmarshal(data, &valueMap)] for a non-nil, empty
    [valueMap : map[string]json.RawMessage]: the entries of the map when the
    error is nil, [None] otherwise.  The literal null leaves no entry. *)
Definition Unmarshal_map (data : string) : option (list (string * string)) :=
  let d := list_ascii_of_string data in
  if checkValid d then
    match skip_space d with
    | c :: s =>
        if Ascii.eqb c "{"%char
        then option_map to_map (object_loop (length d) true s)
        else if Ascii.eqb c "n"%char then Some []
        else None
    | [] => None
    end
  else None.

(** [json.Unmarshal(data, &valueList)] for an empty
    [valueList : []json.RawMessage]. *)
Definition Unmarshal_list (data : string) : option (list string) :=
  let d := list_ascii_of_string data in
  if checkValid d then
    match skip_space d with
    | c :: s =>
        if Ascii.eqb c "["%char
        then option_map (map string_of_list_ascii)
                        (array_loop (length d) true s)
        else if Ascii.eqb c "n"%char then Some []
        else None
    | [] => None
    end
  else None.

(** [json.Unmarshal(data, &valueString)] for [valueString] holding the empty
    string: the literal null stores nothing and reports no error. *)
Definition Unmarshal_string (data : string) : option string :=
  let d := list_ascii_of_string data in
  if checkValid d then
    match skip_space d with
    | c :: _ =>
        if Ascii.eqb c quote
        then option_map string_of_list_ascii
                        (unquoteBytes (fst (rescanLiteral (skip_space d))))
        else if Ascii.eqb c "n"%char then Some EmptyString
        else None
    | [] => None
    end
  else None.


End JSON.

(** ** Go slices of strings *)

Module Slice.

(** A slice header: the backing array, the length and the capacity. *)
Record slice := mkSlice { ptr : nat; len : nat; cap : nat }.

(** The backing arrays allocated so far; [ptr] indexes this list. *)
Abbreviation heap := (list (list string)).

Definition array (h : heap) (s : slice) : list string :=
  default [] (h !! ptr s).

(** The elements [s[0], ..., s[len(s)-1]] as the heap has them now. *)
Definition read (h : heap) (s : slice) : list string :=
  take (len s) (array h s).

(** A composite literal [[]string{...}]: a new array, length and capacity
    the number of elements. *)
Definition literal (l : list string) (h : heap) : slice * heap :=
  (mkSlice (length h) (length l) (length l), h ++ [l]).

Section Append.

(** The capacity that [append] chooses for the new array when a slice of
    capacity [c] is full; the language leaves it to the implementation. *)
Variable growcap : nat -> nat.

(** [append(s, x)]: in place when the capacity allows, which every slice
    sharing the array observes; into a new array otherwise. *)
Definition append (s : slice) (x : string) (h : heap) : slice * heap :=
  if len s <? cap s
  then (mkSlice (ptr s) (S (len s)) (cap s),
        <[ptr s := <[len s := x]> (array h s)]> h)
  else (mkSlice (length h) (S (len s)) (growcap (cap s)),
        h ++ [read h s ++ x :: replicate (growcap (cap s) - S (len s))
                                         EmptyString]).

End Append.

(** A slice of an allocated array, within its bounds. *)
Definition wf (h : heap) (s : slice) : Prop :=
  ptr s < length h /\ len s <= length (array h s)
  /\ cap s <= length (array h s).

End Slice.

(** ** strings *)

Module Strings.
Import Bytes.

Fixpoint has_prefix (s prefix : list ascii) : bool :=
  match prefix, s with
  | [], _ => true
  | p :: prefix', c :: s' => Ascii.eqb p c && has_prefix s' prefix'
  | _ :: _, [] => false
  end.

Fixpoint contains (s substr : list ascii) : bool :=
  has_prefix s substr
  || match s with
     | [] => false
     | _ :: s' => contains s' substr
     end.

(** [strings.Contains] *)
Definition Contains (s substr : string) : bool :=
  contains (list_ascii_of_string s) (list_ascii_of_string substr).

(** [unicode.IsSpace] *)
Definition IsSpace (r : UTF8.rune) : bool :=
  UTF8.between 9 13 r || (r =? 32)%N || (r =? 133)%N || (r =? 160)%N
  || (r =? 5760)%N || UTF8.between 8192 8202 r || (r =? 8232)%N
  || (r =? 8233)%N || (r =? 8239)%N || (r =? 8287)%N || (r =? 12288)%N.

Definition flush (cur : list ascii) : list string :=
  match cur with
  | [] => []
  | _ => [string_of_list_ascii cur]
  end.

(** The loop of [strings.FieldsFunc]; [cur] is the field being read. *)
Fixpoint fields_loop (fuel : nat) (p cur : list ascii) : list string :=
  match fuel, p with
  | S fuel', _ :: _ =>
      let '(r, size) := UTF8.DecodeRune p in
      if IsSpace r
      then flush cur ++ fields_loop fuel' (drop size p) []
      else fields_loop fuel' (drop size p) (cur ++ take size p)
  | _, _ => flush cur
  end.

(** [strings.Fields] *)
Definition Fields (s : string) : list string :=
  let p := list_ascii_of_string s in fields_loop (length p) p [].

End Strings.

(** ** The archive, as [encoding/json] hands it to both programs *)

Module Har.

Record NameValue := mkNameValue { Name : string; Value : string }.

Record Request := mkRequest {
  Method : string;
  URL : string;
  QueryString : list NameValue;
  PostData_Params : list NameValue;
  PostData_Text : string
}.

(** The dump tool declares no [Response]; it ignores [Response_Content_Text]. *)
Record Entry := mkEntry {
  Request_ : Request;
  Response_Content_Text : string
}.

End Har.

(** ** net/url: the fields of [url.URL] that the programs touch *)

Module URL.

Record URL := mkURL {
  Scheme : string;
  Opaque : string;
  User : option string;
  Host : string;
  Path : string;
  RawQuery : string;
  Fragment : string
}.

(** [u.RawQuery = s] *)
Definition set_RawQuery (u : URL) (s : string) : URL :=
  mkURL (Scheme u) (Opaque u) (User u) (Host u) (Path u) s (Fragment u).

End URL.

(** ** The correlation tool *)

Module Correlate.
Import Slice.

Record KeyValue := mkKeyValue { Key : slice; Value : string }.

(** What a producer has sent on its channel, in order, and the heap it
    leaves; [None] when the fuel of the model ran out. *)
Definition producer := heap -> option (list KeyValue * heap).

(** [for _, x := range l { for keyValue := range f(x) { keyValueChan <- keyValue } }] *)
Fixpoint for_each {A : Type} (f : A -> producer) (l : list A) : producer :=
  fun h =>
    match l with
    | [] => Some ([], h)
    | x :: l' =>
        match f x h with
        | None => None
        | Some (out1, h1) =>
            match for_each f l' h1 with
            | None => None
            | Some (out2, h2) => Some (out1 ++ out2, h2)
            end
        end
    end.

(** Two producers in sequence on the same channel. *)
Definition andThen (p1 p2 : producer) : producer :=
  fun h =>
    match p1 h with
    | None => None
    | Some (out1, h1) =>
        match p2 h1 with
        | None => None
        | Some (out2, h2) => Some (out1 ++ out2, h2)
        end
    end.

Definition nothing : producer := fun h => Some ([], h).

(** What a producer that works on [key] may do to a heap [h]: it allocates,
    it writes to the array of [key] beyond the elements of [key], and it
    leaves every other array alone; the keys it sends extend [key]. *)
Definition frames (key : slice) (h : heap) (sent : list KeyValue) (h' : heap)
  : Prop :=
  length h <= length h'
  /\ (forall p, p < length h -> p <> ptr key -> h' !! p = h !! p)
  /\ take (len key) (array h' key) = take (len key) (array h key)
  /\ length (array h' key) = length (array h key)
  /\ (forall kv, In kv sent ->
        (ptr (Key kv) = ptr key \/ length h <= ptr (Key kv))
        /\ ptr (Key kv) < length h'
        /\ len key <= len (Key kv)
        /\ take (len key) (array h' (Key kv)) = take (len key) (array h key)).

Definition framed (key : slice) (p : producer) : Prop :=
  forall h sent h', wf h key -> p h = Some (sent, h') -> frames key h sent h'.

(** The leaf [kv] reads as the pair of [path] and [value] in the heap [h]. *)
Definition leaf_at (h : heap) (kv : KeyValue) (path : list string)
  (value : string) : Prop :=
  ptr (Key kv) < length h /\ read h (Key kv) = path /\ Value kv = value.

(** A producer that only allocates: it leaves every array of the heap it
    starts from as it is, and sends keys that point into the heap it
    returns. *)
Definition allocates (p : producer) : Prop :=
  forall h sent h',
    p h = Some (sent, h') ->
    length h <= length h'
    /\ (forall q, q < length h -> h' !! q = h !! q)
    /\ (forall kv, In kv sent -> ptr (Key kv) < length h').

(** [fmt.Sprintf] with the verb for a decimal integer, on a slice index. *)
Definition itoa (n : nat) : string :=
  DecimalString.NilEmpty.string_of_uint (Nat.to_uint n).

(** [key2, value2] for [range valueList] *)
Definition indexed {A : Type} (l : list A) : list (nat * A) :=
  combine (seq 0 (length l)) l.

Section Search.

Variable growcap : nat -> nat.

(** The order in which [range] visits the entries of a map. *)
Variable map_order : list (string * string) -> list (string * string).

(** [search]: every branch is tried, whatever the others did, and the pair
    given is sent last.  The goroutine and its unbuffered channel deliver
    the leaves in the order they are sent; the model returns them as a list.
    Every recursive call spends one unit of [fuel]. *)
Fixpoint search_fuel (fuel : nat) (key : slice) (value : string) : producer :=
  match fuel with
  | 0 => fun _ => None
  | S fuel' =>
      andThen
        (* Maybe a json map *)
        match JSON.Unmarshal_map value with
        | Some valueMap =>
            for_each (fun kv h =>
                        let '(key', h') := append growcap key (fst kv) h in
                        search_fuel fuel' key' (snd kv) h')
                     (map_order valueMap)
        | None => nothing
        end
      (andThen
        (* Maybe a json list *)
        match JSON.Unmarshal_list value with
        | Some valueList =>
            for_each (fun kv h =>
                        let '(key', h') :=
                          append growcap key (itoa (fst kv)) h in
                        search_fuel fuel' key' (snd kv) h')
                     (indexed valueList)
        | None => nothing
        end
      (andThen
        (* Maybe a json string *)
        match JSON.Unmarshal_string value with
        | Some valueString => search_fuel fuel' key valueString
        | None => nothing
        end
      (andThen
        (* Maybe base64 encoded *)
        (let bytes := fst (Base64.DecodeString value) in
         if 0 <? String.length bytes
         then search_fuel fuel' key bytes
         else nothing)
        (fun h => Some ([mkKeyValue key value], h)))))
  end.

(** [search(key, value)], with fuel for the deepest chain of calls that
    [value] allows. *)
Definition search (key : slice) (value : string) : producer :=
  search_fuel (S (Bytes.weight value)) key value.

(** The body of [search] once more, with [search] itself at the recursive
    calls. *)
Definition search_body (key : slice) (value : string) : producer :=
  andThen
    match JSON.Unmarshal_map value with
    | Some valueMap =>
        for_each (fun kv h =>
                    let '(key', h') := append growcap key (fst kv) h in
                    search key' (snd kv) h')
                 (map_order valueMap)
    | None => nothing
    end
  (andThen
    match JSON.Unmarshal_list value with
    | Some valueList =>
        for_each (fun kv h =>
                    let '(key', h') :=
                      append growcap key (itoa (fst kv)) h in
                    search key' (snd kv) h')
                 (indexed valueList)
    | None => nothing
    end
  (andThen
    match JSON.Unmarshal_string value with
    | Some valueString => search key valueString
    | None => nothing
    end
  (andThen
    (let bytes := fst (Base64.DecodeString value) in
     if 0 <? String.length bytes then search key bytes else nothing)
    (fun h => Some ([mkKeyValue key value], h))))).

(** The values that [search] passes to its recursive calls. *)
Definition recursed (value : string) : list string :=
  match JSON.Unmarshal_map value with
  | Some valueMap => map snd valueMap
  | None => []
  end
  ++ match JSON.Unmarshal_list value with
     | Some valueList => valueList
     | None => []
     end
  ++ match JSON.Unmarshal_string value with
     | Some valueString => [valueString]
     | None => []
     end
  ++ (let bytes := fst (Base64.DecodeString value) in
      if 0 <? String.length bytes then [bytes] else []).

(** The goroutine of [main] for one entry: query parameters, form
    parameters, body. *)
Definition entry_producer (r : Har.Request) : producer :=
  andThen (for_each (fun p h =>
                   let '(key, h') := literal ["query"; Har.Name p] h in
                   search key (Har.Value p) h')
                (Har.QueryString r))
 (andThen (for_each (fun p h =>
                   let '(key, h') := literal ["form"; Har.Name p] h in
                   search key (Har.Value p) h')
                (Har.PostData_Params r))
      (fun h => let '(key, h') := literal ["body"] h in
                search key (Har.PostData_Text r) h')).

(** One element of [results]. *)
Record Result := mkResult {
  Method : string;
  URL : string;
  XSS : list KeyValue
}.

(** What one iteration of the loop over the entries does. *)
Inductive flow :=
| Continue
| Panic
| Append (r : Result).

(** [url.Parse]: the URL, or the text of the error. *)
Variable url_Parse : string -> URL.URL + string.

(** The host filter: [Some true] when the entry is kept, [Some false] when
    the loop continues with the next entry, [None] when [url.Parse] fails. *)
Definition host_filter (domains : list string) (url : string) : option bool :=
  if 0 <? length domains then
    match url_Parse url with
    | inr _ => None
    | inl u => Some (existsb (fun domain => String.eqb domain (URL.Host u))
                             domains)
    end
  else Some true.

(** [respBodyString] for an entry: the bytes that the response text decodes
    to. *)
Definition respBody (entry : Har.Entry) : string :=
  fst (Base64.DecodeString (Har.Response_Content_Text entry)).

(** The body of the loop over [har.Log.Entries]. *)
Definition entry_step (domains : list string) (entry : Har.Entry) (h : heap)
  : option (flow * heap) :=
  match host_filter domains (Har.URL (Har.Request_ entry)) with
  | None => Some (Panic, h)
  | Some false => Some (Continue, h)
  | Some true =>
      let '(respBody, err) :=
        Base64.DecodeString (Har.Response_Content_Text entry) in
      if err then Some (Panic, h)
      else
        match entry_producer (Har.Request_ entry) h with
        | None => None
        | Some (sent, h') =>
            let keyValues :=
              List.filter (fun keyValue =>
                             Strings.Contains respBody (Value keyValue))
                          sent in
            Some (Append (mkResult (Har.Method (Har.Request_ entry))
                                   (Har.URL (Har.Request_ entry))
                                   keyValues), h')
        end
  end.

(** The loop: the results appended so far, or the panic that ended it. *)
Fixpoint entries_loop (domains : list string) (entries : list Har.Entry)
  (results : list Result) (h : heap) : option (option (list Result) * heap) :=
  match entries with
  | [] => Some (Some results, h)
  | entry :: entries' =>
      match entry_step domains entry h with
      | None => None
      | Some (Panic, h') => Some (None, h')
      | Some (Continue, h') => entries_loop domains entries' results h'
      | Some (Append r, h') =>
          entries_loop domains entries' (results ++ [r]) h'
      end
  end.

(** One object of the array that [main] gives to the encoder, as the
    encoder finds it: the key of a leaf is read when the array is encoded,
    after the loop.  The strings are the Go strings; what the encoder writes
    for them is [written], below. *)
Record ResultJSON := mkResultJSON {
  method : string;
  url : string;
  xss : list (list string * string)
}.

(** The element [r] of [results] as the encoder reads it in the heap [h]. *)
Definition encode_result (h : heap) (r : Result) : ResultJSON :=
  mkResultJSON (Method r) (URL r)
               (map (fun kv => (read h (Key kv), Value kv)) (XSS r)).

(** What the process does: it panics, or gives the array [results] to
    [json.NewEncoder(os.Stdout).Encode]. *)
Inductive outcome :=
| Panicked
| Printed (results : list ResultJSON).

(** [main].  [har] is what [json.NewDecoder(os.Stdin).Decode(&har)] stored,
    [None] when it returned an error. *)
Definition main (domainsFlag : string) (har : option (list Har.Entry))
  : option outcome :=
  match har with
  | None => Some Panicked
  | Some entries =>
      let domains := Strings.Fields domainsFlag in
      match entries_loop domains entries [] [] with
      | None => None
      | Some (None, _) => Some Panicked
      | Some (Some results, h) => Some (Printed (map (encode_result h) results))
      end
  end.

End Search.


End Correlate.

(** ** The dump tool *)

Module Dump.

(** One block written by [printParam] to standard output. *)
Record Block := mkBlock { key : string; value : string; request : string }.

Fixpoint for_each {A : Type} (f : A -> option (list Block)) (l : list A)
  : option (list Block) :=
  match l with
  | [] => Some []
  | x :: l' =>
      match f x with
      | None => None
      | Some out1 => option_map (app out1) (for_each f l')
      end
  end.

Section Print.

(** [json.Marshal] of a slice of strings. *)
Variable json_Marshal : list string -> string.

(** [unicode.IsPrint] *)
Variable unicode_IsPrint : UTF8.rune -> bool.

Variable map_order : list (string * string) -> list (string * string).

(** [url.Parse] and the method [String] of [url.URL] *)
Variable url_Parse : string -> URL.URL + string.
Variable url_String : URL.URL -> string.

Definition makeKey (a b : string) : string := a +:+ json_Marshal [b].

Definition isPrint (s : string) : bool :=
  forallb unicode_IsPrint (UTF8.runes s).

(** [printParam] and [printParamRecurse]: the blocks printed, in order;
    [None] when the fuel of the model ran out.  Every call spends one unit
    of [fuel]. *)
Fixpoint printParam_fuel (fuel : nat) (key value request : string)
  : option (list Block) :=
  match fuel with
  | 0 => None
  | S fuel' =>
      option_map (cons (mkBlock key value request))
                 (printParamRecurse_fuel fuel' key value request)
  end
with printParamRecurse_fuel (fuel : nat) (key value request : string)
  : option (list Block) :=
  match fuel with
  | 0 => None
  | S fuel' =>
      (* Maybe a json map *)
      match JSON.Unmarshal_map value with
      | Some valueMap =>
          for_each (fun kv => printParam_fuel fuel' (makeKey key (fst kv))
                                              (snd kv) request)
                   (map_order valueMap)
      | None =>
          (* Maybe a json list *)
          match JSON.Unmarshal_list value with
          | Some valueList =>
              for_each (fun value2 => printParam_fuel fuel' (key +:+ "[]")
                                                      value2 request)
                       valueList
          | None =>
              (* Maybe a json string *)
              match JSON.Unmarshal_string value with
              | Some valueString =>
                  printParamRecurse_fuel fuel' key valueString request
              | None =>
                  (* Maybe base64 encoded *)
                  let '(bytes, err) := Base64.DecodeString value in
                  if negb err && (0 <? String.length bytes) && isPrint bytes
                  then printParam_fuel fuel' key bytes request
                  else Some []
              end
          end
      end
  end.

Definition fuel_for (value : string) : nat := 2 * Bytes.weight value + 2.

Definition printParam (key value request : string) : option (list Block) :=
  printParam_fuel (fuel_for value) key value request.

Definition printParamRecurse (key value request : string)
  : option (list Block) :=
  printParamRecurse_fuel (fuel_for value) key value request.

(** The body of [printParamRecurse] once more, with [printParam] and
    [printParamRecurse] themselves at the recursive calls: the first branch
    whose test succeeds returns. *)
Definition printParamRecurse_body (key value request : string)
  : option (list Block) :=
  match JSON.Unmarshal_map value with
  | Some valueMap =>
      for_each (fun kv => printParam (makeKey key (fst kv)) (snd kv) request)
               (map_order valueMap)
  | None =>
      match JSON.Unmarshal_list value with
      | Some valueList =>
          for_each (fun value2 => printParam (key +:+ "[]") value2 request)
                   valueList
      | None =>
          match JSON.Unmarshal_string value with
          | Some valueString => printParamRecurse key valueString request
          | None =>
              let '(bytes, err) := Base64.DecodeString value in
              if negb err && (0 <? String.length bytes) && isPrint bytes
              then printParam key bytes request
              else Some []
          end
      end
  end.

(** The URL as [makeRequest] prints it: parsed, its query removed, and
    written back. *)
Definition strip_query (requestURL : string) : option string :=
  match url_Parse requestURL with
  | inr _ => None
  | inl u => Some (url_String (URL.set_RawQuery u EmptyString))
  end.

(** What a run has written and whether it ended in a panic. *)
Record output := mkOutput {
  stdout : list Block;
  stderr : list string;
  panicked : bool
}.

Definition quiet (blocks : list Block) : output := mkOutput blocks [] false.

(** [logger.Panic(err)] for a logger with the given prefix: the line goes to
    standard error, then the goroutine panics. *)
Definition logger_Panic (prefix err : string) : output :=
  mkOutput [] [prefix +:+ err] true.

(** Runs [second] after [first] unless [first] panicked. *)
Definition and_then (first : output) (second : option output)
  : option output :=
  if panicked first then Some first
  else option_map (fun o => mkOutput (stdout first ++ stdout o)
                                     (stderr first ++ stderr o) (panicked o))
                  second.

(** [makeRequest]: the method and the URL without its query, or the error
    of [url.Parse]. *)
Definition makeRequest (requestMethod requestURL : string) : string + string :=
  match url_Parse requestURL with
  | inr err => inr err
  | inl u => inl (requestMethod +:+ " "
                  +:+ url_String (URL.set_RawQuery u EmptyString))
  end.

(** The body of the loop over [har.Log.Entries]. *)
Definition print_entry (prefix : string) (r : Har.Request) : option output :=
  match makeRequest (Har.Method r) (Har.URL r) with
  | inr err => Some (logger_Panic prefix err)
  | inl request =>
      match for_each (fun p => printParam (makeKey "query" (Har.Name p))
                                          (Har.Value p) request)
                     (Har.QueryString r) with
      | None => None
      | Some out1 =>
          match for_each (fun p => printParam (makeKey "form" (Har.Name p))
                                              (Har.Value p) request)
                         (Har.PostData_Params r) with
          | None => None
          | Some out2 =>
              option_map (fun out3 => quiet (out1 ++ out2 ++ out3))
                         (printParamRecurse "body" (Har.PostData_Text r)
                                            request)
          end
      end
  end.

Fixpoint print_entries (prefix : string) (entries : list Har.Entry)
  : option output :=
  match entries with
  | [] => Some (quiet [])
  | entry :: entries' =>
      match print_entry prefix (Har.Request_ entry) with
      | None => None
      | Some o => and_then o (print_entries prefix entries')
      end
  end.

(** What [json.NewDecoder(reader).Decode(&har)] gives for a reader. *)
Inductive decoded :=
| DecodeError (err : string)
| Decoded (entries : list Har.Entry).

(** [print(reader, logger)] for a logger with the given prefix. *)
Definition print (reader : decoded) (prefix : string) : option output :=
  match reader with
  | DecodeError err => Some (logger_Panic prefix err)
  | Decoded entries => print_entries prefix entries
  end.

(** The loop of [main] over [flag.Args()].  Each path comes with what
    [os.Open] and the decoder give for it, the error of [os.Open] on the
    left.  Nothing recovers from a panic of [print]: the deferred
    [file.Close] runs and the panic goes on to end the process. *)
Fixpoint files_loop (args : list (string * (string + decoded)))
  : option output :=
  match args with
  | [] => Some (quiet [])
  | (fpath, inl err) :: _ => Some (mkOutput [] [] true)
  | (fpath, inr reader) :: args' =>
      match print reader (fpath +:+ ": ") with
      | None => None
      | Some o => and_then o (files_loop args')
      end
  end.

(** [main] *)
Definition main (stdin : decoded) (args : list (string * (string + decoded)))
  : option output :=
  match args with
  | [] => print stdin EmptyString
  | _ => files_loop args
  end.

End Print.

End Dump.

(** ** Instances of the section variables

    These are used to run the programs on concrete inputs.  The theorems
    below hold for every choice of the variables. *)

Module Sample.

(** The growth of [append] for short slices in the gc toolchain: the
    capacity doubles. *)
Definition growcap (c : nat) : nat := if c =? 0 then 1 else 2 * c.

(** One order of iteration: the order of insertion. *)
Definition map_order (m : list (string * string)) : list (string * string) :=
  m.

(** [unicode.IsPrint] on Latin-1 and on U+FFFD; this instance answers false
    for every other rune. *)
Definition IsPrint (r : UTF8.rune) : bool :=
  UTF8.between 32 126 r || UTF8.between 161 172 r || UTF8.between 174 255 r
  || (r =? UTF8.RuneError)%N.

Definition quoted (s : string) : string :=
  String JSON.quote s +:+ String JSON.quote EmptyString.

(** [json.Marshal] of a slice of strings none of which needs an escape. *)
Definition json_Marshal (l : list string) : string :=
  "[" +:+ String.concat "," (map quoted l) +:+ "]".

(** [strings.Cut]: the text before and after the first [sep], if any. *)
Fixpoint cut (sep : ascii) (s : list ascii)
  : list ascii * option (list ascii) :=
  match s with
  | [] => ([], None)
  | c :: s' =>
      if Ascii.eqb c sep then ([], Some s')
      else let '(before, after) := cut sep s' in (c :: before, after)
  end.

Definition isLetter (c : ascii) : bool :=
  UTF8.between 97 122 (Bytes.code c) || UTF8.between 65 90 (Bytes.code c).

Definition isSchemeByte (c : ascii) : bool :=
  isLetter c || JSON.isDigit c || Ascii.eqb c "+"%char
  || Ascii.eqb c "-"%char || Ascii.eqb c "."%char.

Definition toLower (c : ascii) : ascii :=
  if UTF8.between 65 90 (Bytes.code c)
  then Bytes.byte (Bytes.code c + 32) else c.

(** [getScheme] for a URL that starts with a letter: the scheme before the
    first colon, if only scheme bytes come before it. *)
Fixpoint getScheme (s : list ascii) (acc : list ascii)
  : list ascii * list ascii :=
  match s with
  | [] => ([], acc)
  | c :: s' =>
      if isSchemeByte c then getScheme s' (acc ++ [c])
      else if Ascii.eqb c ":"%char then (acc, s')
      else ([], acc ++ s)
  end.

(** [validOptionalPort] *)
Definition validOptionalPort (port : list ascii) : bool :=
  match port with
  | [] => true
  | c :: digits => Ascii.eqb c ":"%char && forallb JSON.isDigit digits
  end.

(** The text from the last colon on, if there is a colon. *)
Fixpoint from_last_colon (host : list ascii) : option (list ascii) :=
  match host with
  | [] => None
  | c :: host' =>
      match from_last_colon host' with
      | Some port => Some port
      | None => if Ascii.eqb c ":"%char then Some host else None
      end
  end.

Definition plain (s : list ascii) : bool :=
  forallb (fun c => negb (Ascii.eqb c "%"%char) && negb (Ascii.eqb c "["%char)
                    && negb (Ascii.eqb c "@"%char)
                    && UTF8.between 33 126 (Bytes.code c)) s.

(** [strconv.Quote], which the verb [%q] applies, for printable ASCII: the
    quote and the backslash are escaped. *)
Definition Quote (s : list ascii) : list ascii :=
  JSON.quote
  :: flat_map (fun c => if Ascii.eqb c JSON.quote || Ascii.eqb c JSON.backslash
                        then [JSON.backslash; c] else [c]) s
  ++ [JSON.quote].

(** The text of the [url.Error] that [url.Parse] returns when [parseHost]
    rejects the port: the operation, the URL without its fragment, and the
    error of [parseHost]. *)
Definition invalid_port (u port : list ascii) : string :=
  string_of_list_ascii
    (list_ascii_of_string "parse " ++ Quote u
     ++ list_ascii_of_string ": invalid port " ++ Quote port
     ++ list_ascii_of_string " after host").

(** [url.Parse] for URLs of the shape scheme://host[:port][/path][?query]
    [#fragment] that hold no user information, no percent sign, no bracket
    and no byte outside printable ASCII; a port that is not a number is the
    error that [url.Parse] reports, and this instance reports every other
    URL as an error of its own. *)
Definition url_Parse (rawURL : string) : URL.URL + string :=
  let raw := list_ascii_of_string rawURL in
  if negb (plain raw) then inr "unsupported"
  else
    let '(u, frag) := cut "#" raw in
    match u with
    | c :: _ =>
        if negb (isLetter c) then inr "unsupported"
        else
          let '(scheme, rest) := getScheme u [] in
          let '(rest, query) := cut "?" rest in
          match scheme, rest with
          | _ :: _, s1 :: s2 :: rest' =>
              if Ascii.eqb s1 "/"%char && Ascii.eqb s2 "/"%char then
                let '(host, path) := cut "/" rest' in
                let port := default [] (from_last_colon host) in
                if validOptionalPort port then
                  inl (URL.mkURL
                         (string_of_list_ascii (map toLower scheme))
                         EmptyString None
                         (string_of_list_ascii host)
                         (match path with
                          | Some p => string_of_list_ascii ("/"%char :: p)
                          | None => EmptyString
                          end)
                         (string_of_list_ascii (default [] query))
                         (string_of_list_ascii (default [] frag)))
                else inr (invalid_port u port)
              else inr "unsupported"
          | _, _ => inr "unsupported"
          end
    | [] => inr "unsupported"
    end.

(** The method [String] of [url.URL] for the URLs that [url_Parse]
    returns. *)
Definition url_String (u : URL.URL) : string :=
  URL.Scheme u +:+ "://" +:+ URL.Host u +:+ URL.Path u
  +:+ (if String.eqb (URL.RawQuery u) EmptyString then EmptyString
       else "?" +:+ URL.RawQuery u)
  +:+ (if String.eqb (URL.Fragment u) EmptyString then EmptyString
       else "#" +:+ URL.Fragment u).

End Sample.
(** * Facts about the library models *)

Section BytesFacts.
Import Bytes.

Lemma ascii_count_app l1 l2 :
  ascii_count (l1 ++ l2) = ascii_count l1 + ascii_count l2.
Proof. induction l1 as [|c l1 IH]; simpl; [reflexivity | rewrite IH; lia]. Qed.

Lemma ascii_count_le_length l : ascii_count l <= length l.
Proof. induction l as [|c l IH]; simpl; [lia | destruct (is_ascii c); lia]. Qed.

Lemma weight_of_list l : weight (string_of_list_ascii l) = ascii_count l.
Proof. unfold weight. now rewrite list_ascii_of_string_of_list_ascii. Qed.

Lemma ascii_count_drop n l : ascii_count (drop n l) <= ascii_count l.
Proof.
  rewrite <- (take_drop n l) at 2. rewrite ascii_count_app. lia.
Qed.

Lemma ascii_count_take n l : ascii_count (take n l) <= ascii_count l.
Proof.
  rewrite <- (take_drop n l) at 2. rewrite ascii_count_app. lia.
Qed.

Lemma code_lt_256 c : (code c < 256)%N.
Proof. apply N_ascii_bounded. Qed.


Lemma string_length_list s : String.length s = length (list_ascii_of_string s).
Proof. induction s as [|c s IH]; simpl; congruence. Qed.

End BytesFacts.

Section Base64Facts.
Import Bytes Base64.

Lemma decodeMap_ascii c v : decodeMap c = Some v -> is_ascii c = true /\ (v < 64)%N.
Proof.
  destruct c as [[] [] [] [] [] [] [] []]; vm_compute; intros H;
    try discriminate H; injection H as <-; split; reflexivity.
Qed.

Lemma quantum_length dbuf : length (quantum dbuf) <= length dbuf - 1.
Proof. unfold quantum. rewrite length_take. lia. Qed.

Lemma quantum_length3 dbuf : length (quantum dbuf) <= 3.
Proof. unfold quantum. rewrite length_take. simpl. lia. Qed.

Lemma decode_length src : forall dbuf,
  length dbuf <= 3 ->
  4 * length (fst (decode src dbuf)) <= 3 * (ascii_count src + length dbuf).
Proof.
  induction src as [|c rest IH]; intros dbuf Hd; simpl.
  - destruct dbuf; simpl; lia.
  - destruct (decodeMap c) as [v|] eqn:Hc.
    + apply decodeMap_ascii in Hc as [-> _].
      rewrite length_app. simpl.
      destruct (Nat.eqb_spec (length dbuf + 1) 4) as [E|E].
      * specialize (IH [] ltac:(simpl; lia)).
        destruct (decode rest []) as [out err]. simpl in *.
        rewrite length_app. pose proof (quantum_length3 (dbuf ++ [v])). lia.
      * specialize (IH (dbuf ++ [v])). rewrite length_app in IH. simpl in IH.
        specialize (IH ltac:(lia)). lia.
    + destruct (is_newline c).
      { specialize (IH dbuf Hd). lia. }
      destruct (Ascii.eqb c padChar); [|simpl; lia].
      pose proof (quantum_length dbuf) as Hq.
      destruct dbuf as [|d0 [|d1 [|d2 dbuf]]]; simpl; try lia.
      * destruct (skip_newlines rest) as [|c2 rest2]; simpl; [lia|].
        destruct (Ascii.eqb c2 padChar); simpl in *; lia.
      * simpl in *. lia.
Qed.

(** A non-empty result of [DecodeString] is shorter than the number of
    bytes below 0x80 of its argument. *)
Lemma DecodeString_weight s :
  0 < String.length (fst (DecodeString s)) ->
  weight (fst (DecodeString s)) < weight s.
Proof.
  unfold DecodeString, weight.
  pose proof (decode_length (list_ascii_of_string s) [] ltac:(simpl; lia)) as H.
  destruct (decode (list_ascii_of_string s) []) as [out err]. simpl in *.
  rewrite string_length_list, list_ascii_of_string_of_list_ascii.
  intros Hpos. pose proof (ascii_count_le_length out). lia.
Qed.

End Base64Facts.
Section Base64RoundTrip.
Import Bytes Base64.
Local Open Scope N_scope.

Lemma lor_shifted a b k : b < 2 ^ k -> N.lor (a * 2 ^ k) b = a * 2 ^ k + b.
Proof.
  intros Hb. rewrite <- N.lxor_lor, <- N.add_nocarry_lxor; try reflexivity.
  all: apply N.bits_inj; intros i; rewrite N.land_spec, N.bits_0;
    destruct (N.lt_ge_cases i k) as [Hi|Hi].
  all: try (rewrite N.mul_pow2_bits_low by exact Hi; reflexivity).
  all: rewrite <- (N.mod_small b (2 ^ k)) by exact Hb;
    rewrite N.mod_pow2_bits_high by exact Hi; apply andb_false_r.
Qed.

Lemma encodeChar_decodeMap n : n < 64 -> decodeMap (encodeChar n) = Some n.
Proof.
  intros H.
  assert (Hn : exists m, (m < 64)%nat /\ n = N.of_nat m).
  { exists (N.to_nat n). split; [lia | now rewrite N2Nat.id]. }
  destruct Hn as (m & Hm & ->). clear H.
  do 64 (destruct m as [|m]; [vm_compute; reflexivity|]). lia.
Qed.

Lemma encodeChar_not_newline n : is_newline (encodeChar n) = false.
Proof.
  unfold encodeChar.
  set (m := N.to_nat n). clearbody m.
  do 64 (destruct m as [|m]; [vm_compute; reflexivity|]).
  vm_compute. destruct m; reflexivity.
Qed.

Ltac arith :=
  rewrite ?N.shiftl_mul_pow2, ?N.shiftr_div_pow2;
  change 63 with (N.ones 6); rewrite ?N.land_ones;
  change (2 ^ 6) with 64; change (2 ^ 16) with 65536;
  change (2 ^ 8) with 256; change (2 ^ 18) with 262144;
  change (2 ^ 12) with 4096.

Lemma pack3 a b c : a < 256 -> b < 256 -> c < 256 ->
  N.lor (N.lor (N.shiftl a 16) (N.shiftl b 8)) c = a * 65536 + b * 256 + c.
Proof.
  intros Ha Hb Hc. rewrite !N.shiftl_mul_pow2.
  rewrite (lor_shifted a (b * 2 ^ 8) 16) by (change (2 ^ 8) with 256; change (2 ^ 16) with 65536; lia).
  replace (a * 2 ^ 16 + b * 2 ^ 8) with ((a * 256 + b) * 2 ^ 8)
    by (change (2 ^ 8) with 256; change (2 ^ 16) with 65536; lia).
  rewrite lor_shifted by (change (2 ^ 8) with 256; lia).
  change (2 ^ 8) with 256. lia.
Qed.

Lemma pack4 d0 d1 d2 d3 : d0 < 64 -> d1 < 64 -> d2 < 64 -> d3 < 64 ->
  N.lor (N.lor (N.lor (N.shiftl d0 18) (N.shiftl d1 12)) (N.shiftl d2 6)) d3
  = d0 * 262144 + d1 * 4096 + d2 * 64 + d3.
Proof.
  intros H0 H1 H2 H3. rewrite !N.shiftl_mul_pow2.
  rewrite (lor_shifted d0 (d1 * 2 ^ 12) 18)
    by (change (2 ^ 12) with 4096; change (2 ^ 18) with 262144; lia).
  replace (d0 * 2 ^ 18 + d1 * 2 ^ 12) with ((d0 * 64 + d1) * 2 ^ 12)
    by (change (2 ^ 12) with 4096; change (2 ^ 18) with 262144; lia).
  rewrite (lor_shifted _ (d2 * 2 ^ 6) 12)
    by (change (2 ^ 12) with 4096; change (2 ^ 6) with 64; lia).
  replace ((d0 * 64 + d1) * 2 ^ 12 + d2 * 2 ^ 6)
    with (((d0 * 64 + d1) * 64 + d2) * 2 ^ 6)
    by (change (2 ^ 12) with 4096; change (2 ^ 6) with 64; lia).
  rewrite lor_shifted by (change (2 ^ 6) with 64; lia).
  change (2 ^ 6) with 64. lia.
Qed.

End Base64RoundTrip.
Section Base64RoundTrip2.
Import Bytes Base64.
Local Open Scope N_scope.

Lemma sextets_ok v : v < 16777216 ->
  (v / 262144) mod 64 * 262144 + (v / 4096) mod 64 * 4096
  + (v / 64) mod 64 * 64 + v mod 64 = v.
Proof.
  intros H.
  assert (E1 : v / 4096 = v / 64 / 64) by (rewrite N.Div0.div_div; reflexivity).
  assert (E2 : v / 262144 = v / 64 / 64 / 64)
    by (rewrite !N.Div0.div_div; reflexivity).
  rewrite E1, E2.
  pose proof (N.div_mod v 64 ltac:(lia)).
  pose proof (N.div_mod (v / 64) 64 ltac:(lia)).
  pose proof (N.mod_lt v 64 ltac:(lia)).
  pose proof (N.mod_lt (v / 64) 64 ltac:(lia)).
  pose proof (N.div_mod (v / 64 / 64) 64 ltac:(lia)).
  assert (v / 64 / 64 / 64 < 64).
  { rewrite !N.Div0.div_div. apply N.Div0.div_lt_upper_bound. simpl. lia. }
  rewrite (N.mod_small (v / 64 / 64 / 64)) in * by assumption.
  lia.
Qed.

Lemma bytes_ok a b c : a < 256 -> b < 256 -> c < 256 ->
  let v := a * 65536 + b * 256 + c in
  (v / 65536) mod 256 = a /\ (v / 256) mod 256 = b /\ v mod 256 = c.
Proof.
  intros Ha Hb Hc v. subst v.
  assert (E1 : (a * 65536 + b * 256 + c) / 65536 = a).
  { symmetry. apply (N.div_unique _ _ _ (b * 256 + c)); lia. }
  assert (E2 : (a * 65536 + b * 256 + c) / 256 = a * 256 + b).
  { symmetry. apply (N.div_unique _ _ _ c); lia. }
  rewrite E1, E2. repeat split.
  - apply N.mod_small; lia.
  - symmetry. apply (N.mod_unique _ _ a); lia.
  - symmetry. apply (N.mod_unique _ _ (a * 256 + b)); lia.
Qed.

Lemma quantum4 a b c :
  let val := N.lor (N.lor (N.shiftl (code a) 16) (N.shiftl (code b) 8)) (code c) in
  quantum [N.land (N.shiftr val 18) 63; N.land (N.shiftr val 12) 63;
           N.land (N.shiftr val 6) 63; N.land val 63] = [a; b; c].
Proof.
  intros val. subst val.
  pose proof (code_lt_256 a) as Ha. pose proof (code_lt_256 b) as Hb.
  pose proof (code_lt_256 c) as Hc.
  rewrite pack3 by assumption.
  set (v := code a * 65536 + code b * 256 + code c).
  assert (Hv : v < 16777216) by (subst v; lia).
  unfold quantum. cbn [nth length Nat.sub take].
  rewrite !N.shiftr_div_pow2. change 63 with (N.ones 6). rewrite !N.land_ones.
  change (2 ^ 6) with 64. change (2 ^ 18) with 262144. change (2 ^ 12) with 4096.
  rewrite pack4 by (apply N.mod_lt; lia).
  rewrite sextets_ok by exact Hv.
  destruct (bytes_ok _ _ _ Ha Hb Hc) as (E1 & E2 & E3). fold v in E1, E2, E3.
  unfold byte. rewrite ?N.shiftr_div_pow2.
  change (2 ^ 16) with 65536. change (2 ^ 8) with 256.
  rewrite E1, E2, E3. unfold code. now rewrite !ascii_N_embedding.
Qed.

End Base64RoundTrip2.

Section Base64RoundTrip3.
Import Bytes Base64.
Local Open Scope N_scope.

Lemma quantum3 a b :
  let val := N.lor (N.shiftl (code a) 16) (N.shiftl (code b) 8) in
  quantum [N.land (N.shiftr val 18) 63; N.land (N.shiftr val 12) 63;
           N.land (N.shiftr val 6) 63] = [a; b].
Proof.
  intros val.
  assert (E : val = N.lor (N.lor (N.shiftl (code a) 16) (N.shiftl (code b) 8))
                          (code "000"%char)).
  { subst val. change (code "000"%char) with 0. now rewrite N.lor_0_r. }
  pose proof (quantum4 a b "000"%char) as Q. cbv zeta in Q. rewrite <- E in Q.
  unfold quantum in *. cbn [nth length Nat.sub take] in *.
  assert (Z : N.land val 63 = 0).
  { rewrite E, pack3 by apply code_lt_256. change (code "000"%char) with 0.
    change 63 with (N.ones 6). rewrite N.land_ones. change (2 ^ 6) with 64.
    rewrite N.add_0_r.
    replace (code a * 65536 + code b * 256) with ((code a * 1024 + code b * 4) * 64) by lia.
    apply N.Div0.mod_mul. }
  rewrite Z in Q. now injection Q as -> ->.
Qed.

Lemma quantum2 a :
  let val := N.shiftl (code a) 16 in
  quantum [N.land (N.shiftr val 18) 63; N.land (N.shiftr val 12) 63] = [a].
Proof.
  intros val.
  assert (E : val = N.lor (N.lor (N.shiftl (code a) 16)
                                 (N.shiftl (code "000"%char) 8))
                          (code "000"%char)).
  { subst val. change (code "000"%char) with 0.
    now rewrite N.shiftl_0_l, !N.lor_0_r. }
  pose proof (quantum4 a "000"%char "000"%char) as Q. cbv zeta in Q.
  rewrite <- E in Q.
  unfold quantum in *. cbn [nth length Nat.sub take] in *.
  assert (V : val = code a * 65536).
  { rewrite E, pack3 by apply code_lt_256. change (code "000"%char) with 0. lia. }
  assert (Z : N.land val 63 = 0).
  { rewrite V. change 63 with (N.ones 6). rewrite N.land_ones.
    change (2 ^ 6) with 64.
    replace (code a * 65536) with ((code a * 1024) * 64) by lia.
    apply N.Div0.mod_mul. }
  assert (Z2 : N.land (N.shiftr val 6) 63 = 0).
  { rewrite V, N.shiftr_div_pow2. change 63 with (N.ones 6).
    rewrite N.land_ones. change (2 ^ 6) with 64.
    replace (code a * 65536) with ((code a * 1024) * 64) by lia.
    rewrite N.div_mul by lia.
    replace (code a * 1024) with ((code a * 16) * 64) by lia.
    apply N.Div0.mod_mul. }
  rewrite Z, Z2 in Q. now injection Q as ->.
Qed.

Lemma sextet_lt x : N.land x 63 < 64.
Proof.
  change 63 with (N.ones 6). rewrite N.land_ones. apply N.mod_lt. discriminate.
Qed.

Lemma decode_step n rest dbuf : n < 64 ->
  decode (encodeChar n :: rest) dbuf =
  if Nat.eqb (length (dbuf ++ [n])) 4
  then let '(out, err) := decode rest [] in (quantum (dbuf ++ [n]) ++ out, err)
  else decode rest (dbuf ++ [n]).
Proof. intros H. cbn [decode]. now rewrite encodeChar_decodeMap. Qed.

Lemma decode_encode : forall n l, (length l <= n)%nat ->
  decode (encode l) [] = (l, false).
Proof.
  induction n as [|n IH]; intros l Hl.
  - destruct l; [reflexivity | simpl in Hl; lia].
  - destruct l as [|a [|b [|c rest]]].
    + reflexivity.
    + cbn [encode]. rewrite !decode_step by apply sextet_lt.
      cbn [length app Nat.eqb]. cbn [decode]. 
      change (decodeMap padChar) with (@None N).
      cbn [is_newline]. change (Ascii.eqb padChar padChar) with true.
      change (is_newline padChar) with false. cbv iota.
      cbn [length skip_newlines].
      change (is_newline padChar) with false. cbv iota.
      change (Ascii.eqb padChar padChar) with true. cbv iota.
      unfold finish. cbn [skip_newlines]. now rewrite quantum2.
    + cbn [encode]. rewrite !decode_step by apply sextet_lt.
      cbn [length app Nat.eqb]. cbn [decode].
      change (decodeMap padChar) with (@None N).
      change (is_newline padChar) with false. cbv iota.
      change (Ascii.eqb padChar padChar) with true. cbv iota.
      cbn [length]. unfold finish. cbn [skip_newlines]. now rewrite quantum3.
    + cbn [encode]. rewrite !decode_step by apply sextet_lt.
      cbn [length app Nat.eqb].
      rewrite IH by (simpl in Hl; lia). now rewrite quantum4.
Qed.

(** [DecodeString] inverts [EncodeToString], without error. *)
Lemma DecodeString_EncodeToString s :
  DecodeString (EncodeToString s) = (s, false).
Proof.
  unfold DecodeString, EncodeToString.
  rewrite list_ascii_of_string_of_list_ascii.
  rewrite (decode_encode _ _ (le_n _)).
  now rewrite string_of_list_ascii_of_string.
Qed.

End Base64RoundTrip3.

Section UTF8Facts.
Import Bytes UTF8.
Local Open Scope N_scope.

Lemma byte_high n : N.testbit n 7 = true -> is_ascii (byte n) = false.
Proof.
  intros H. unfold is_ascii, byte.
  assert (Hm : n mod 256 < 256) by (apply N.mod_lt; discriminate).
  unfold code. rewrite N_ascii_embedding by exact Hm.
  apply N.ltb_ge. destruct (N.lt_ge_cases (n mod 256) 128) as [Hlt|]; [|assumption].
  exfalso.
  assert (T : N.testbit (n mod 2 ^ 8) 7 = true)
    by (rewrite N.mod_pow2_bits_low by reflexivity; exact H).
  change (2 ^ 8) with 256 in T.
  rewrite <- (N.mod_small (n mod 256) (2 ^ 7)) in T by exact Hlt.
  rewrite N.mod_pow2_bits_high in T by reflexivity. discriminate.
Qed.

Lemma lor_high a b : N.testbit a 7 = true -> N.testbit (N.lor a b) 7 = true.
Proof. intros H. now rewrite N.lor_spec, H. Qed.

Lemma encode3_high r : ascii_count (encode3 r) = 0%nat.
Proof.
  unfold encode3. cbn [ascii_count].
  rewrite !byte_high by (apply lor_high; reflexivity). reflexivity.
Qed.

Lemma EncodeRune_length r : (length (EncodeRune r) <= 4)%nat.
Proof.
  unfold EncodeRune, encode3.
  repeat match goal with |- context [if ?b then _ else _] => destruct b end;
    simpl; lia.
Qed.

(** A rune outside ASCII is encoded with bytes outside ASCII only. *)
Lemma EncodeRune_high r : 128 <= r -> ascii_count (EncodeRune r) = 0%nat.
Proof.
  intros H. unfold EncodeRune.
  destruct (N.leb_spec r 127); [lia|].
  repeat match goal with |- context [if ?b then _ else _] => destruct b end;
    try apply encode3_high; cbn [ascii_count];
    rewrite !byte_high by (apply lor_high; reflexivity); reflexivity.
Qed.

Lemma lor_ge a b : a <= N.lor a b.
Proof.
  assert (Z : N.land a (N.ldiff b a) = 0).
  { apply N.bits_inj; intros i.
    rewrite N.land_spec, N.ldiff_spec, N.bits_0.
    destruct (N.testbit a i), (N.testbit b i); reflexivity. }
  assert (E : N.lor a b = a + N.ldiff b a).
  { rewrite (N.add_nocarry_lxor _ _ Z), (N.lxor_lor _ _ Z).
    apply N.bits_inj; intros i. rewrite !N.lor_spec, N.ldiff_spec.
    destruct (N.testbit a i), (N.testbit b i); reflexivity. }
  lia.
Qed.

Lemma shiftl_ge a k m : m <= a * 2 ^ k -> m <= N.shiftl a k.
Proof. now rewrite N.shiftl_mul_pow2. Qed.

End UTF8Facts.

Section UTF8Facts2.
Import Bytes UTF8.
Local Open Scope N_scope.

Lemma first_cases c :
  is_ascii c = false ->
  first (code c) = LeadInvalid
  \/ (exists k, 128 <= k /\ first (code c) = LeadSeq 2 128 191
                /\ N.shiftl (N.land (code c) 31) 6 = k)
  \/ (exists k, 4096 <= k /\ first (code c) = LeadSeq 3 128 191
                /\ N.shiftl (N.land (code c) 15) 12 = k)
  \/ (first (code c) = LeadSeq 3 160 191)
  \/ (exists k, 4096 <= k /\ first (code c) = LeadSeq 3 128 159
                /\ N.shiftl (N.land (code c) 15) 12 = k)
  \/ (first (code c) = LeadSeq 4 144 191)
  \/ (exists k, 128 <= k /\ first (code c) = LeadSeq 4 128 191
                /\ N.shiftl (N.land (code c) 7) 18 = k)
  \/ (exists k, 128 <= k /\ first (code c) = LeadSeq 4 128 143
                /\ N.shiftl (N.land (code c) 7) 18 = k).
Proof.
  destruct c as [[] [] [] [] [] [] [] []]; intros H; try discriminate H;
    clear H; vm_compute;
    first [ left; reflexivity
          | right; left; eexists; split; [|split; reflexivity]; discriminate
          | right; right; left; eexists; split; [|split; reflexivity]; discriminate
          | right; right; right; left; reflexivity
          | right; right; right; right; left; eexists; split; [|split; reflexivity]; discriminate
          | right; right; right; right; right; left; reflexivity
          | right; right; right; right; right; right; left; eexists; split; [|split; reflexivity]; discriminate
          | right; right; right; right; right; right; right; eexists; split; [|split; reflexivity]; discriminate ].
Qed.

Lemma low6_ge lo hi b m :
  between lo hi b = true -> (m + 64 * (lo / 64) <= lo) -> lo / 64 = hi / 64 ->
  m <= N.land b 63.
Proof.
  unfold between. intros H Hm Hq.
  apply andb_true_iff in H as [H1 H2].
  apply N.leb_le in H1, H2.
  change 63 with (N.ones 6). rewrite N.land_ones. change (2 ^ 6) with 64.
  assert (b / 64 = lo / 64).
  { apply N.le_antisymm.
    - rewrite Hq. apply N.Div0.div_le_mono. exact H2.
    - apply N.Div0.div_le_mono. exact H1. }
  pose proof (N.div_mod b 64 ltac:(discriminate)). lia.
Qed.

(** A sequence that starts outside ASCII never decodes to an ASCII rune,
    and has a width of at least one byte. *)
Lemma DecodeRune_high c s :
  is_ascii c = false ->
  128 <= fst (DecodeRune (c :: s)) /\ (1 <= snd (DecodeRune (c :: s)))%nat.
Proof.
  intros H. unfold DecodeRune.
  assert (R : 128 <= RuneError) by (unfold RuneError; lia).
  destruct (first_cases c H) as
    [E|[(k & Hk & E & Ek)|[(k & Hk & E & Ek)|[E|[(k & Hk & E & Ek)|[E|[(k & Hk & E & Ek)|(k & Hk & E & Ek)]]]]]]];
    rewrite E; clear E.
  - simpl; split; [exact R | lia].
  - destruct s as [|c1 s]; [simpl; split; [exact R|lia]|].
    destruct (negb _); [simpl; split; [exact R|lia]|].
    cbn [Nat.leb fst snd]. rewrite Ek. split; [|lia].
    etransitivity; [exact Hk | apply lor_ge].
  - destruct s as [|c1 s]; [simpl; split; [exact R|lia]|].
    destruct (negb _); [simpl; split; [exact R|lia]|].
    cbn [Nat.leb]. destruct s as [|c2 s]; [simpl; split; [exact R|lia]|].
    destruct (negb _); [simpl; split; [exact R|lia]|].
    cbn [fst snd]. rewrite Ek. split; [|lia].
    etransitivity; [|apply lor_ge]. etransitivity; [|apply lor_ge]. lia.
  - destruct s as [|c1 s]; [simpl; split; [exact R|lia]|].
    destruct (between 160 191 (code c1)) eqn:B; [|simpl; split; [exact R|lia]].
    cbn [negb Nat.leb]. destruct s as [|c2 s]; [simpl; split; [exact R|lia]|].
    destruct (negb _); [simpl; split; [exact R|lia]|].
    cbn [fst snd]. split; [|lia].
    etransitivity; [|apply lor_ge]. rewrite N.lor_comm.
    etransitivity; [|apply lor_ge]. apply shiftl_ge.
    pose proof (low6_ge 160 191 (code c1) 32 B ltac:(vm_compute; discriminate) eq_refl).
    change (2 ^ 6) with 64. lia.
  - destruct s as [|c1 s]; [simpl; split; [exact R|lia]|].
    destruct (negb _); [simpl; split; [exact R|lia]|].
    cbn [Nat.leb]. destruct s as [|c2 s]; [simpl; split; [exact R|lia]|].
    destruct (negb _); [simpl; split; [exact R|lia]|].
    cbn [fst snd]. rewrite Ek. split; [|lia].
    etransitivity; [|apply lor_ge]. etransitivity; [|apply lor_ge]. lia.
  - destruct s as [|c1 s]; [simpl; split; [exact R|lia]|].
    destruct (between 144 191 (code c1)) eqn:B; [|simpl; split; [exact R|lia]].
    cbn [negb Nat.leb]. destruct s as [|c2 s]; [simpl; split; [exact R|lia]|].
    destruct (negb _); [simpl; split; [exact R|lia]|].
    destruct s as [|c3 s]; [simpl; split; [exact R|lia]|].
    destruct (negb _); [simpl; split; [exact R|lia]|].
    cbn [fst snd]. split; [|lia].
    etransitivity; [|apply lor_ge]. etransitivity; [|apply lor_ge].
    rewrite N.lor_comm. etransitivity; [|apply lor_ge]. apply shiftl_ge.
    pose proof (low6_ge 144 191 (code c1) 16 B ltac:(vm_compute; discriminate) eq_refl).
    change (2 ^ 12) with 4096. lia.
  - destruct s as [|c1 s]; [simpl; split; [exact R|lia]|].
    destruct (negb _); [simpl; split; [exact R|lia]|].
    cbn [Nat.leb]. destruct s as [|c2 s]; [simpl; split; [exact R|lia]|].
    destruct (negb _); [simpl; split; [exact R|lia]|].
    destruct s as [|c3 s]; [simpl; split; [exact R|lia]|].
    destruct (negb _); [simpl; split; [exact R|lia]|].
    cbn [fst snd]. rewrite Ek. split; [|lia].
    do 3 (etransitivity; [|apply lor_ge]). lia.
  - destruct s as [|c1 s]; [simpl; split; [exact R|lia]|].
    destruct (negb _); [simpl; split; [exact R|lia]|].
    cbn [Nat.leb]. destruct s as [|c2 s]; [simpl; split; [exact R|lia]|].
    destruct (negb _); [simpl; split; [exact R|lia]|].
    destruct s as [|c3 s]; [simpl; split; [exact R|lia]|].
    destruct (negb _); [simpl; split; [exact R|lia]|].
    cbn [fst snd]. rewrite Ek. split; [|lia].
    do 3 (etransitivity; [|apply lor_ge]). lia.
Qed.

End UTF8Facts2.

Section JSONFacts.
Import Bytes JSON.

Lemma eqb_ascii c d : Ascii.eqb c d = true -> c = d.
Proof. apply Ascii.eqb_eq. Qed.

Lemma skip_space_suffix s : exists ws, s = ws ++ skip_space s.
Proof.
  induction s as [|c s [ws IH]]; simpl.
  - now exists [].
  - destruct (isSpace c).
    + exists (c :: ws). simpl. now f_equal.
    + now exists [].
Qed.

Lemma skip_space_count s : ascii_count (skip_space s) <= ascii_count s.
Proof.
  destruct (skip_space_suffix s) as [ws E]. rewrite E at 2.
  rewrite ascii_count_app. lia.
Qed.

Lemma skip_space_length s : length (skip_space s) <= length s.
Proof.
  destruct (skip_space_suffix s) as [ws E]. rewrite E at 2.
  rewrite length_app. lia.
Qed.

Lemma rescan_string_app s : s = fst (rescan_string s) ++ snd (rescan_string s).
Proof.
  revert s. fix IH 1. intros [|c s1]; [reflexivity|]. simpl.
  destruct (Ascii.eqb c backslash).
  - destruct s1 as [|e s2]; [reflexivity|].
    specialize (IH s2). destruct (rescan_string s2). simpl in *. now rewrite <- IH.
  - destruct (Ascii.eqb c quote); [reflexivity|].
    specialize (IH s1). destruct (rescan_string s1). simpl in *. now rewrite <- IH.
Qed.

Lemma rescan_number_app s : s = fst (rescan_number s) ++ snd (rescan_number s).
Proof.
  induction s as [|c s IH]; [reflexivity|]. simpl.
  destruct (isNumberByte c); [|reflexivity].
  destruct (rescan_number s). simpl in *. now rewrite <- IH.
Qed.

Lemma rescanLiteral_app s : s = fst (rescanLiteral s) ++ snd (rescanLiteral s).
Proof.
  destruct s as [|c s1]; [reflexivity|]. unfold rescanLiteral.
  destruct (Ascii.eqb c quote).
  { pose proof (rescan_string_app s1) as E. destruct (rescan_string s1).
    simpl in *. now rewrite <- E. }
  destruct (isDigit c || Ascii.eqb c "-"%char).
  { pose proof (rescan_number_app s1) as E. destruct (rescan_number s1).
    simpl in *. now rewrite <- E. }
  repeat match goal with |- context [if ?b then _ else _] => destruct b end;
    cbn [fst snd]; try (symmetry; apply take_drop); reflexivity.
Qed.

Lemma skip_app sc s raw rest : skip sc s = Some (raw, rest) -> s = raw ++ rest.
Proof.
  revert sc raw rest. induction s as [|c s IH]; intros sc raw rest; simpl.
  - discriminate.
  - destruct (scan_step sc c) as [sc'|]; [|discriminate].
    destruct (parseState sc').
    + intros [= <- <-]. reflexivity.
    + destruct (skip sc' s) as [[raw' rest']|] eqn:E; [|discriminate].
      intros [= <- <-]. simpl. f_equal. eauto.
Qed.

Lemma rawValue_app s raw rest : rawValue s = Some (raw, rest) -> s = raw ++ rest.
Proof.
  unfold rawValue. destruct s as [|c s1]; [discriminate|].
  destruct (Ascii.eqb c "{"%char || Ascii.eqb c "["%char).
  - apply skip_app.
  - intros E. assert (E' : rescanLiteral (c :: s1) = (raw, rest)) by congruence.
    pose proof (rescanLiteral_app (c :: s1)) as A. rewrite E' in A. exact A.
Qed.

Lemma rawValue_count s raw rest :
  rawValue s = Some (raw, rest) ->
  ascii_count raw <= ascii_count s /\ ascii_count rest <= ascii_count s
  /\ length rest <= length s.
Proof.
  intros H. apply rawValue_app in H. subst s.
  rewrite ascii_count_app, length_app. lia.
Qed.

(** The elements of an array hold no more bytes below 0x80 than the text
    after the opening bracket. *)
Lemma array_loop_count fuel : forall first s elems,
  array_loop fuel first s = Some elems ->
  forall raw, In raw elems -> ascii_count raw <= ascii_count s.
Proof.
  induction fuel as [|fuel IH]; intros first s elems; simpl; [discriminate|].
  pose proof (skip_space_count s) as Hs.
  destruct (skip_space s) as [|c s1] eqn:Es; [discriminate|].
  destruct (first && Ascii.eqb c "]"%char).
  { intros [= <-] raw []. }
  destruct (rawValue (c :: s1)) as [[raw0 rest]|] eqn:Er; [|discriminate].
  apply rawValue_count in Er as (Hr1 & Hr2 & _).
  pose proof (skip_space_count rest) as Hs2.
  destruct (skip_space rest) as [|d rest'] eqn:Es2; [discriminate|].
  simpl in Hs2.
  destruct (Ascii.eqb d "]"%char).
  { intros [= <-] raw [<-|[]]. lia. }
  destruct (Ascii.eqb d ","%char); [|discriminate].
  destruct (array_loop fuel false rest') as [elems'|] eqn:El; [|discriminate].
  intros [= <-] raw [<-|Hin]; [lia|].
  specialize (IH _ _ _ El raw Hin). lia.
Qed.

(** Fuel beyond the length of the input changes nothing. *)
Lemma array_loop_fuel n : forall m first s,
  length s < n -> length s < m -> array_loop n first s = array_loop m first s.
Proof.
  induction n as [|n IH]; intros m first s Hn Hm; [lia|].
  destruct m as [|m]; [lia|]. simpl.
  pose proof (skip_space_length s) as Hs.
  destruct (skip_space s) as [|c s1] eqn:Es; [reflexivity|].
  destruct (first && Ascii.eqb c "]"%char); [reflexivity|].
  destruct (rawValue (c :: s1)) as [[raw0 rest]|] eqn:Er; [|reflexivity].
  apply rawValue_count in Er as (_ & _ & Hr).
  pose proof (skip_space_length rest) as Hs2.
  destruct (skip_space rest) as [|d rest'] eqn:Es2; [reflexivity|].
  simpl in Hs2.
  destruct (Ascii.eqb d "]"%char); [reflexivity|].
  destruct (Ascii.eqb d ","%char); [|reflexivity].
  rewrite (IH m false rest') by lia. reflexivity.
Qed.

Lemma object_loop_count fuel : forall first s members,
  object_loop fuel first s = Some members ->
  forall kv, In kv members -> ascii_count (snd kv) <= ascii_count s.
Proof.
  induction fuel as [|fuel IH]; intros first s members; simpl; [discriminate|].
  pose proof (skip_space_count s) as Hs.
  destruct (skip_space s) as [|c s1] eqn:Es; [discriminate|].
  destruct (first && Ascii.eqb c "}"%char).
  { intros [= <-] kv []. }
  pose proof (rescanLiteral_app (c :: s1)) as El.
  destruct (rescanLiteral (c :: s1)) as [item rest]. cbn [fst snd] in El.
  assert (Hrest : ascii_count rest <= ascii_count (c :: s1))
    by (rewrite El, ascii_count_app; lia).
  destruct (unquoteBytes item) as [key|]; [|discriminate].
  pose proof (skip_space_count rest) as Hs1.
  destruct (skip_space rest) as [|colon rest1]; [discriminate|].
  destruct (Ascii.eqb colon ":"%char); [|discriminate].
  pose proof (skip_space_count rest1) as Hs2.
  destruct (rawValue (skip_space rest1)) as [[raw rest2]|] eqn:Er; [|discriminate].
  apply rawValue_count in Er as (Hr1 & Hr2 & _).
  pose proof (skip_space_count rest2) as Hs3.
  destruct (skip_space rest2) as [|d rest3]; [discriminate|].
  simpl in Hs1, Hs3.
  assert (ascii_count raw <= ascii_count s) by lia.
  destruct (Ascii.eqb d "}"%char).
  { intros [= <-] kv [<-|[]]. assumption. }
  destruct (Ascii.eqb d ","%char); [|discriminate].
  destruct (object_loop fuel false rest3) as [members'|] eqn:Eo; [|discriminate].
  intros [= <-] kv [<-|Hin]; [assumption|].
  specialize (IH _ _ _ Eo kv Hin). lia.
Qed.

Lemma object_loop_fuel n : forall m first s,
  length s < n -> length s < m -> object_loop n first s = object_loop m first s.
Proof.
  induction n as [|n IH]; intros m first s Hn Hm; [lia|].
  destruct m as [|m]; [lia|]. simpl.
  pose proof (skip_space_length s) as Hs.
  destruct (skip_space s) as [|c s1] eqn:Es; [reflexivity|].
  destruct (first && Ascii.eqb c "}"%char); [reflexivity|].
  pose proof (rescanLiteral_app (c :: s1)) as El.
  destruct (rescanLiteral (c :: s1)) as [item rest]. cbn [fst snd] in El.
  assert (Hrest : length rest <= length (c :: s1))
    by (rewrite El, length_app; lia).
  destruct (unquoteBytes item) as [key|]; [|reflexivity].
  pose proof (skip_space_length rest) as Hs1.
  destruct (skip_space rest) as [|colon rest1]; [reflexivity|].
  destruct (Ascii.eqb colon ":"%char); [|reflexivity].
  pose proof (skip_space_length rest1) as Hs2.
  destruct (rawValue (skip_space rest1)) as [[raw rest2]|] eqn:Er; [|reflexivity].
  apply rawValue_count in Er as (_ & _ & Hr).
  pose proof (skip_space_length rest2) as Hs3.
  destruct (skip_space rest2) as [|d rest3]; [reflexivity|].
  simpl in Hs1, Hs3.
  destruct (Ascii.eqb d "}"%char); [reflexivity|].
  destruct (Ascii.eqb d ","%char); [|reflexivity].
  rewrite (IH m false rest3) by lia. reflexivity.
Qed.

End JSONFacts.

Section JSONFacts2.
Import Bytes JSON.

Lemma EncodeRune_count r : ascii_count (UTF8.EncodeRune r) <= 1.
Proof.
  destruct (N.leb_spec r 127) as [H|H].
  - unfold UTF8.EncodeRune. apply N.leb_le in H. rewrite H. simpl.
    destruct (is_ascii _); lia.
  - rewrite EncodeRune_high by lia. lia.
Qed.

Lemma backslash_ascii c : Ascii.eqb c backslash = true -> is_ascii c = true.
Proof. intros H. apply Ascii.eqb_eq in H. now subst c. Qed.

Lemma quote_ascii c : Ascii.eqb c quote = true -> is_ascii c = true.
Proof. intros H. apply Ascii.eqb_eq in H. now subst c. Qed.

Lemma ascii_count_cons_drop c s n :
  is_ascii c = true -> 1 + ascii_count (drop n s) <= ascii_count (c :: s).
Proof. intros H. simpl. rewrite H. pose proof (ascii_count_drop n s). lia. Qed.

(** Unquoting never adds bytes below 0x80: an escape sequence shrinks, and
    the replacement of malformed UTF-8 yields bytes above 0x80 only. *)
Lemma unquote_loop_count fuel : forall s u,
  unquote_loop fuel s = Some u -> ascii_count u <= ascii_count s.
Proof.
  induction fuel as [|fuel IH]; intros s u.
  - destruct s; simpl; [intros [= <-]; simpl; lia | discriminate].
  - destruct s as [|c s1]; [intros [= <-]; simpl; lia|].
    cbn [unquote_loop].
    destruct (Ascii.eqb c backslash) eqn:Eb.
    + apply backslash_ascii in Eb.
      destruct s1 as [|e s2]; [discriminate|].
      destruct (Ascii.eqb e "u"%char).
      * destruct (getu4 (c :: e :: s2)) as [rr|]; [|discriminate].
        pose proof (ascii_count_cons_drop c (e :: s2) 5 Eb) as H6.
        change (drop 6 (c :: e :: s2)) with (drop 5 (e :: s2)).
        set (s6 := drop 5 (e :: s2)) in *.
        pose proof (ascii_count_drop 6 s6) as H12.
        set (s12 := drop 6 s6) in *.
        set (dec := match getu4 s6 with
                    | Some rr1 => UTF8.DecodeSurrogates rr rr1
                    | None => UTF8.RuneError end).
        pose proof (EncodeRune_count dec).
        pose proof (EncodeRune_count UTF8.RuneError).
        pose proof (EncodeRune_count rr).
        clearbody s6 s12 dec.
        destruct (UTF8.IsSurrogate rr); [destruct (negb _)|];
          (destruct (unquote_loop fuel _) as [u'|] eqn:Eu; [|discriminate]);
          intros E; inversion E; subst u; clear E; apply IH in Eu.
        all: try change (ascii_count (UTF8.EncodeRune UTF8.RuneError ++ u')
                         <= ascii_count (c :: e :: s2)).
        all: rewrite ascii_count_app; lia.
      * destruct (simple_escape e) as [b|]; [|discriminate].
        destruct (unquote_loop fuel s2) as [u'|] eqn:Eu; [|discriminate].
        intros [= <-]. apply IH in Eu. simpl. rewrite Eb.
        destruct (is_ascii b), (is_ascii e); lia.
    + destruct (Ascii.eqb c quote || (code c <? 32)%N); [discriminate|].
      destruct (is_ascii c) eqn:Ea.
      * destruct (unquote_loop fuel s1) as [u'|] eqn:Eu; [|discriminate].
        intros [= <-]. apply IH in Eu. simpl. rewrite Ea. lia.
      * pose proof (DecodeRune_high c s1 Ea) as [Hr Hsz].
        destruct (UTF8.DecodeRune (c :: s1)) as [rr size]. cbn [fst snd] in *.
        destruct (unquote_loop fuel _) as [u'|] eqn:Eu; [|discriminate].
        intros [= <-]. apply IH in Eu. rewrite ascii_count_app.
        rewrite EncodeRune_high by exact Hr.
        pose proof (ascii_count_drop size (c :: s1)). lia.
Qed.

Lemma unquote_loop_fuel n : forall m s,
  length s <= n -> length s <= m -> unquote_loop n s = unquote_loop m s.
Proof.
  induction n as [|n IH]; intros m s Hn Hm.
  - destruct s; [|simpl in Hn; lia]. destruct m; reflexivity.
  - destruct s as [|c s1]; [destruct m; reflexivity|].
    destruct m as [|m]; [simpl in Hm; lia|].
    cbn [unquote_loop]. simpl in Hn, Hm.
    destruct (Ascii.eqb c backslash).
    + destruct s1 as [|e s2]; [reflexivity|]. simpl in Hn, Hm.
      destruct (Ascii.eqb e "u"%char).
      * destruct (getu4 (c :: e :: s2)) as [rr|]; [|reflexivity].
        change (drop 6 (c :: e :: s2)) with (drop 5 (e :: s2)).
        assert (L : length (drop 5 (e :: s2)) <= length s2)
          by (rewrite length_drop; simpl; lia).
        assert (L' : length (drop 6 (drop 5 (e :: s2))) <= length s2)
          by (rewrite length_drop; lia).
        rewrite (IH m (drop 5 (e :: s2))) by lia.
        rewrite (IH m (drop 6 (drop 5 (e :: s2)))) by lia. reflexivity.
      * destruct (simple_escape e); [|reflexivity].
        rewrite (IH m s2) by lia. reflexivity.
    + destruct (Ascii.eqb c quote || (code c <? 32)%N); [reflexivity|].
      destruct (is_ascii c) eqn:Ea.
      * rewrite (IH m s1) by lia. reflexivity.
      * pose proof (DecodeRune_high c s1 Ea) as [_ Hsz].
        destruct (UTF8.DecodeRune (c :: s1)) as [rr size]. cbn [snd] in Hsz.
        assert (L : length (drop size (c :: s1)) <= length s1)
          by (rewrite length_drop; simpl; lia).
        rewrite (IH m (drop size (c :: s1))) by lia. reflexivity.
Qed.

Lemma unquoteBytes_count item u :
  unquoteBytes item = Some u -> ascii_count u + 2 <= ascii_count item.
Proof.
  unfold unquoteBytes. destruct item as [|q rest]; [discriminate|].
  destruct (reverse rest) as [|q' body_rev] eqn:Er; [discriminate|].
  destruct (Ascii.eqb q quote) eqn:E1; [|discriminate].
  destruct (Ascii.eqb q' quote) eqn:E2; [|discriminate]. cbn [andb].
  intros H. apply unquote_loop_count in H.
  assert (rest = reverse body_rev ++ [q']).
  { rewrite <- (reverse_involutive rest), Er. now rewrite reverse_cons. }
  subst rest. simpl. rewrite ascii_count_app. simpl.
  rewrite (quote_ascii _ E1), (quote_ascii _ E2). lia.
Qed.

Lemma in_setMapIndex m k v k0 v0 :
  In (k0, v0) (setMapIndex m k v) -> (k0, v0) = (k, v) \/ In (k0, v0) m.
Proof.
  induction m as [|[k' v'] m IH]; simpl.
  - intros [H|[]]. now left.
  - destruct (String.eqb k k'); simpl.
    + intros [H|H]; [now left | right; now right].
    + intros [H|H]; [right; now left|]. destruct (IH H); [now left | right; now right].
Qed.

Lemma in_to_map members : forall m0 k v,
  In (k, v) (fold_left (fun m kv => setMapIndex m (string_of_list_ascii (fst kv))
                                        (string_of_list_ascii (snd kv)))
                       members m0) ->
  In (k, v) m0 \/ exists kv, In kv members /\ v = string_of_list_ascii (snd kv).
Proof.
  induction members as [|kv members IH]; intros m0 k v; simpl.
  - now left.
  - intros H. apply IH in H as [H|(kv' & Hin & ->)].
    + apply in_setMapIndex in H as [[= -> ->]|H]; [|now left].
      right. exists kv. split; [now left | reflexivity].
    + right. exists kv'. split; [now right | reflexivity].
Qed.

Lemma first_byte_count c s d :
  skip_space d = c :: s -> is_ascii c = true -> ascii_count s < ascii_count d.
Proof.
  intros E H. pose proof (skip_space_count d) as L. rewrite E in L.
  simpl in L. rewrite H in L. lia.
Qed.

(** The values of the entries of a decoded object weigh less than the
    text of the object. *)
Lemma Unmarshal_map_weight data valueMap :
  Unmarshal_map data = Some valueMap ->
  forall k v, In (k, v) valueMap -> weight v < weight data.
Proof.
  unfold Unmarshal_map, weight. set (d := list_ascii_of_string data).
  destruct (checkValid d); [|discriminate].
  destruct (skip_space d) as [|c s] eqn:Es; [discriminate|].
  destruct (Ascii.eqb c "{"%char) eqn:Ec.
  - destruct (object_loop (length d) true s) as [members|] eqn:Eo; [|discriminate].
    intros [= <-] k v Hin. unfold to_map in Hin.
    apply in_to_map in Hin as [[]|(kv & Hkv & ->)].
    rewrite list_ascii_of_string_of_list_ascii.
    pose proof (object_loop_count _ _ _ _ Eo kv Hkv).
    apply Ascii.eqb_eq in Ec. subst c.
    pose proof (first_byte_count _ _ _ Es eq_refl). lia.
  - destruct (Ascii.eqb c "n"%char); [|discriminate].
    intros [= <-] k v [].
Qed.

Lemma Unmarshal_list_weight data valueList :
  Unmarshal_list data = Some valueList ->
  forall v, In v valueList -> weight v < weight data.
Proof.
  unfold Unmarshal_list, weight. set (d := list_ascii_of_string data).
  destruct (checkValid d); [|discriminate].
  destruct (skip_space d) as [|c s] eqn:Es; [discriminate|].
  destruct (Ascii.eqb c "["%char) eqn:Ec.
  - destruct (array_loop (length d) true s) as [elems|] eqn:Eo; [|discriminate].
    intros [= <-] v Hin. apply in_map_iff in Hin as (raw & <- & Hin).
    rewrite list_ascii_of_string_of_list_ascii.
    pose proof (array_loop_count _ _ _ _ Eo raw Hin).
    apply Ascii.eqb_eq in Ec. subst c.
    pose proof (first_byte_count _ _ _ Es eq_refl). lia.
  - destruct (Ascii.eqb c "n"%char); [|discriminate].
    intros [= <-] v [].
Qed.

Lemma Unmarshal_string_weight data valueString :
  Unmarshal_string data = Some valueString ->
  weight valueString < weight data.
Proof.
  unfold Unmarshal_string, weight. set (d := list_ascii_of_string data).
  destruct (checkValid d); [|discriminate].
  pose proof (skip_space_count d) as Hs.
  destruct (skip_space d) as [|c s] eqn:Es; [discriminate|].
  destruct (Ascii.eqb c quote) eqn:Ec.
  - pose proof (rescanLiteral_app (c :: s)) as El.
    destruct (unquoteBytes (fst (rescanLiteral (c :: s)))) as [u|] eqn:Eu;
      [|discriminate].
    intros [= <-]. rewrite list_ascii_of_string_of_list_ascii.
    apply unquoteBytes_count in Eu.
    rewrite El, ascii_count_app in Hs. lia.
  - destruct (Ascii.eqb c "n"%char) eqn:En; [|discriminate].
    intros [= <-]. apply Ascii.eqb_eq in En. subst c. simpl in *. lia.
Qed.

End JSONFacts2.

(** * Facts about the decoder of the correlation tool *)

Section ProducerFacts.
Import Slice Correlate.

Lemma for_each_ext {A : Type} (f g : A -> producer) l :
  (forall x, In x l -> forall h, f x h = g x h) ->
  forall h, for_each f l h = for_each g l h.
Proof.
  induction l as [|x l IH]; intros H h; simpl; [reflexivity|].
  rewrite (H x (or_introl eq_refl)).
  destruct (g x h) as [[out1 h1]|]; [|reflexivity].
  rewrite IH; [reflexivity|]. intros y Hy. apply H. now right.
Qed.

Lemma for_each_total {A : Type} (f : A -> producer) l :
  (forall x, In x l -> forall h, is_Some (f x h)) ->
  forall h, is_Some (for_each f l h).
Proof.
  induction l as [|x l IH]; intros H h; simpl; [eauto|].
  destruct (H x (or_introl eq_refl) h) as [[out1 h1] ->].
  destruct (IH (fun y Hy => H y (or_intror Hy)) h1) as [[out2 h2] ->]. eauto.
Qed.

Lemma andThen_ext (p1 p2 q1 q2 : producer) :
  (forall h, p1 h = q1 h) -> (forall h, p2 h = q2 h) ->
  forall h, andThen p1 p2 h = andThen q1 q2 h.
Proof.
  intros H1 H2 h. unfold andThen. rewrite H1.
  destruct (q1 h) as [[out1 h1]|]; [|reflexivity]. now rewrite H2.
Qed.

Lemma andThen_total (p1 p2 : producer) :
  (forall h, is_Some (p1 h)) -> (forall h, is_Some (p2 h)) ->
  forall h, is_Some (andThen p1 p2 h).
Proof.
  intros H1 H2 h. unfold andThen.
  destruct (H1 h) as [[out1 h1] ->]. destruct (H2 h1) as [[out2 h2] ->]. eauto.
Qed.

Lemma in_indexed {A : Type} (l : list A) i x : In (i, x) (indexed l) -> In x l.
Proof. unfold indexed. intros H. now apply in_combine_r in H. Qed.

End ProducerFacts.

Section SearchFacts.
Import Slice Correlate.

Variable growcap : nat -> nat.
Variable map_order : list (string * string) -> list (string * string).
Hypothesis map_order_perm : forall m, Permutation (map_order m) m.

Local Abbreviation search_fuel := (Correlate.search_fuel growcap map_order).
Local Abbreviation search := (Correlate.search growcap map_order).

Lemma in_map_order m kv : In kv (map_order m) -> In kv m.
Proof. apply Permutation_in, map_order_perm. Qed.

(** More fuel than the weight of the value changes nothing. *)
Lemma search_fuel_stable n : forall m key value,
  Bytes.weight value < n -> Bytes.weight value < m ->
  forall h, search_fuel n key value h = search_fuel m key value h.
Proof.
  induction n as [|n IH]; intros m key value Hn Hm; [lia|].
  destruct m as [|m]; [lia|]. cbn [Correlate.search_fuel].
  repeat apply andThen_ext; try reflexivity.
  - destruct (JSON.Unmarshal_map value) as [valueMap|] eqn:E; [|reflexivity].
    apply for_each_ext. intros [k v] Hin h. apply in_map_order in Hin.
    pose proof (Unmarshal_map_weight _ _ E k v Hin).
    cbn [fst snd]. destruct (append growcap key k h) as [key' h'].
    apply IH; lia.
  - destruct (JSON.Unmarshal_list value) as [valueList|] eqn:E; [|reflexivity].
    apply for_each_ext. intros [i v] Hin h. apply in_indexed in Hin.
    pose proof (Unmarshal_list_weight _ _ E v Hin).
    cbn [fst snd]. destruct (append growcap key (itoa i) h) as [key' h'].
    apply IH; lia.
  - destruct (JSON.Unmarshal_string value) as [valueString|] eqn:E; [|reflexivity].
    pose proof (Unmarshal_string_weight _ _ E). apply IH; lia.
  - destruct (0 <? String.length (fst (Base64.DecodeString value))) eqn:E;
      [|reflexivity].
    apply Nat.ltb_lt in E. pose proof (DecodeString_weight _ E).
    apply IH; lia.
Qed.

(** With more fuel than the weight of the value, [search] returns. *)
Lemma search_fuel_total n : forall key value,
  Bytes.weight value < n -> forall h, is_Some (search_fuel n key value h).
Proof.
  induction n as [|n IH]; intros key value Hn; [lia|].
  cbn [Correlate.search_fuel].
  assert (N : forall h0, is_Some (nothing h0)) by (intros h0; unfold nothing; eauto).
  repeat apply andThen_total; try (intros h0; eauto).
  - destruct (JSON.Unmarshal_map value) as [valueMap|] eqn:E; [|apply N].
    revert h0. apply for_each_total. intros [k v] Hin h1.
    apply in_map_order in Hin.
    pose proof (Unmarshal_map_weight _ _ E k v Hin).
    cbn [fst snd]. destruct (append growcap key k h1) as [key' h'].
    apply IH; lia.
  - destruct (JSON.Unmarshal_list value) as [valueList|] eqn:E; [|apply N].
    revert h0. apply for_each_total. intros [i v] Hin h1.
    apply in_indexed in Hin.
    pose proof (Unmarshal_list_weight _ _ E v Hin).
    cbn [fst snd]. destruct (append growcap key (itoa i) h1) as [key' h'].
    apply IH; lia.
  - destruct (JSON.Unmarshal_string value) as [valueString|] eqn:E; [|apply N].
    pose proof (Unmarshal_string_weight _ _ E). apply IH; lia.
  - cbv zeta.
    destruct (0 <? String.length (fst (Base64.DecodeString value))) eqn:E;
      [|apply N].
    apply Nat.ltb_lt in E. pose proof (DecodeString_weight _ E).
    apply IH; lia.
Qed.

Lemma search_total key value h : is_Some (search key value h).
Proof. apply search_fuel_total. lia. Qed.

Lemma search_unfold key value h :
  search key value h = Correlate.search_body growcap map_order key value h.
Proof.
  unfold Correlate.search at 1, Correlate.search_body. cbn [Correlate.search_fuel].
  repeat apply andThen_ext; try reflexivity.
  - destruct (JSON.Unmarshal_map value) as [valueMap|] eqn:E; [|reflexivity].
    apply for_each_ext. intros [k v] Hin h0. apply in_map_order in Hin.
    pose proof (Unmarshal_map_weight _ _ E k v Hin).
    cbn [fst snd]. destruct (append growcap key k h0) as [key' h'].
    apply search_fuel_stable; lia.
  - destruct (JSON.Unmarshal_list value) as [valueList|] eqn:E; [|reflexivity].
    apply for_each_ext. intros [i v] Hin h0. apply in_indexed in Hin.
    pose proof (Unmarshal_list_weight _ _ E v Hin).
    cbn [fst snd]. destruct (append growcap key (itoa i) h0) as [key' h'].
    apply search_fuel_stable; lia.
  - destruct (JSON.Unmarshal_string value) as [valueString|] eqn:E; [|reflexivity].
    pose proof (Unmarshal_string_weight _ _ E). intros h0.
    apply search_fuel_stable; lia.
  - destruct (0 <? String.length (fst (Base64.DecodeString value))) eqn:E;
      [|reflexivity].
    apply Nat.ltb_lt in E. pose proof (DecodeString_weight _ E). intros h0.
    apply search_fuel_stable; lia.
Qed.

End SearchFacts.

Section FrameFacts.
Import Slice Correlate.

Lemma array_ptr h s1 s2 : ptr s1 = ptr s2 -> array h s1 = array h s2.
Proof. unfold array. now intros ->. Qed.

Lemma array_lookup h h' s : h' !! ptr s = h !! ptr s -> array h' s = array h s.
Proof. unfold array. now intros ->. Qed.

Ltac frames_split :=
  unfold frames; split; [|split; [|split; [|split; [|intros kv Hkv]]]].

Lemma frames_refl key h : frames key h [] h.
Proof. frames_split; auto. destruct Hkv. Qed.

Lemma array_insert (h : heap) p a s :
  p < length h -> ptr s = p -> array (<[p:=a]> h) s = a.
Proof.
  intros Hp <-. unfold array. now rewrite list_lookup_insert_eq.
Qed.

Lemma array_new (h : heap) a s : ptr s = length h -> array (h ++ [a]) s = a.
Proof.
  intros E. unfold array. rewrite E, lookup_app_r, Nat.sub_diag by lia.
  reflexivity.
Qed.

Lemma frames_wf key h sent h' : wf h key -> frames key h sent h' -> wf h' key.
Proof.
  intros (W1 & W2 & W3) (F1 & _ & _ & F4 & _). unfold wf. rewrite F4. lia.
Qed.

Lemma frames_trans key h sent1 h1 sent2 h2 :
  wf h key -> frames key h sent1 h1 -> frames key h1 sent2 h2 ->
  frames key h (sent1 ++ sent2) h2.
Proof.
  intros (W1 & W2 & W3) (A1 & A2 & A3 & A4 & A5) (B1 & B2 & B3 & B4 & B5).
  frames_split.
  - lia.
  - intros p Hp Hne. rewrite B2 by lia. now apply A2.
  - congruence.
  - congruence.
  - apply in_app_or in Hkv as [H|H].
    + destruct (A5 _ H) as (D & L & Hl & T). repeat split; [exact D|lia|exact Hl|].
      destruct D as [E|E].
      * rewrite (array_ptr h2 _ _ E), B3, <- (array_ptr h1 _ _ E). exact T.
      * rewrite (array_lookup h1 h2); [exact T|]. apply B2; lia.
    + destruct (B5 _ H) as (D & L & Hl & T). repeat split; [|exact L|exact Hl|congruence].
      destruct D as [E|E]; [left; exact E | right; lia].
Qed.

Lemma framed_andThen key p1 p2 :
  framed key p1 -> framed key p2 -> framed key (andThen p1 p2).
Proof.
  intros F1 F2 h sent h' W. unfold andThen.
  destruct (p1 h) as [[sent1 h1]|] eqn:E1; [|discriminate].
  destruct (p2 h1) as [[sent2 h2]|] eqn:E2; [|discriminate].
  intros [= <- <-].
  pose proof (F1 _ _ _ W E1) as A.
  apply (frames_trans _ _ _ h1); auto.
  apply F2; [|exact E2]. eapply frames_wf; eauto.
Qed.

Lemma framed_nothing key : framed key nothing.
Proof. intros h sent h' _ [= <- <-]. apply frames_refl. Qed.

Lemma framed_emit key value :
  framed key (fun h => Some ([mkKeyValue key value], h)).
Proof.
  intros h sent h' (W1 & W2 & W3) [= <- <-]. frames_split; auto.
  destruct Hkv as [<-|[]]; cbn [Key]; auto.
Qed.

Lemma framed_for_each {A : Type} key (f : A -> producer) l :
  (forall x, In x l -> framed key (f x)) -> framed key (for_each f l).
Proof.
  induction l as [|x l IH]; intros H.
  - intros h sent h' _ [= <- <-]. apply frames_refl.
  - intros h sent h' W. cbn [for_each].
    destruct (f x h) as [[sent1 h1]|] eqn:E1; [|discriminate].
    destruct (for_each f l h1) as [[sent2 h2]|] eqn:E2; [|discriminate].
    intros [= <- <-].
    pose proof (H x (or_introl eq_refl) _ _ _ W E1) as Fx.
    apply (frames_trans _ _ _ h1); auto.
    apply IH; [|eapply frames_wf; eauto|exact E2].
    intros y Hy. apply H. now right.
Qed.

Variable growcap : nat -> nat.

Lemma append_wf key x h : wf h key -> wf (snd (append growcap key x h))
                                         (fst (append growcap key x h)).
Proof.
  intros (W1 & W2 & W3). unfold append, wf.
  destruct (Nat.ltb_spec (len key) (cap key)) as [L|L]; cbn [fst snd ptr len cap].
  - rewrite array_insert by auto. rewrite !length_insert. lia.
  - rewrite array_new by reflexivity. rewrite !length_app. cbn [length].
    unfold read. rewrite length_take, length_replicate. lia.
Qed.

(** A call on the slice that [append] returns, seen from the slice that
    [append] was given. *)
Lemma framed_append key x (p : slice -> producer) :
  (forall key', framed key' (p key')) ->
  framed key (fun h => let '(key', h') := append growcap key x h in p key' h').
Proof.
  intros F h sent h'' W.
  pose proof (append_wf key x h W) as W'.
  destruct W as (W1 & W2 & W3).
  destruct (append growcap key x h) as [key' h'] eqn:Ea. cbn [fst snd] in W'.
  intros E. pose proof (F key' _ _ _ W' E) as (C1 & C2 & C3 & C4 & C5).
  unfold append in Ea.
  destruct (Nat.ltb_spec (len key) (cap key)) as [L|L]; injection Ea as <- <-;
    cbn [ptr len cap] in *.
  - (* in place *)
    rewrite length_insert in *.
    assert (Earr : array (<[ptr key:=<[len key:=x]> (array h key)]> h)
                         (mkSlice (ptr key) (S (len key)) (cap key))
                   = <[len key:=x]> (array h key)).
    { now apply array_insert. }
    rewrite Earr in *.
    assert (T : forall a : list string,
               take (len key) (take (S (len key)) a) = take (len key) a).
    { intros a. rewrite take_take. f_equal. lia. }
    frames_split.
    + exact C1.
    + intros p0 Hp Hne. rewrite C2 by auto. now apply list_lookup_insert_ne.
    + change (array h'' key) with
        (array h'' (mkSlice (ptr key) (S (len key)) (cap key))).
      rewrite <- T, C3, T. now apply take_insert_ge.
    + change (array h'' key) with
        (array h'' (mkSlice (ptr key) (S (len key)) (cap key))).
      rewrite C4. apply length_insert.
    + destruct (C5 _ Hkv) as (D & Lp & Hl & Ht).
      repeat split; [exact D|exact Lp|lia|].
      rewrite <- T, Ht, T. now apply take_insert_ge.
  - (* a new array *)
    rewrite length_app in *. cbn [length] in *.
    assert (Earr : array (h ++ [read h key ++ x :: replicate (growcap (cap key) - S (len key)) EmptyString])
                         (mkSlice (length h) (S (len key)) (growcap (cap key)))
                   = read h key ++ x :: replicate (growcap (cap key) - S (len key)) EmptyString).
    { now apply array_new. }
    rewrite Earr in *.
    assert (T : forall a : list string,
               take (len key) (take (S (len key)) a) = take (len key) a).
    { intros a. rewrite take_take. f_equal. lia. }
    assert (Old : h'' !! ptr key = h !! ptr key).
    { rewrite C2 by lia. now apply lookup_app_l. }
    frames_split.
    + lia.
    + intros p0 Hp Hne. rewrite C2 by lia. now apply lookup_app_l.
    + now rewrite (array_lookup _ _ _ Old).
    + now rewrite (array_lookup _ _ _ Old).
    + destruct (C5 _ Hkv) as (D & Lp & Hl & Ht).
      repeat split; [destruct D; right; lia|exact Lp|lia|].
      rewrite <- T, Ht, T. unfold read.
      rewrite take_app_le by (rewrite length_take; lia).
      rewrite take_take. f_equal. lia.
Qed.

Variable map_order : list (string * string) -> list (string * string).

(** Every call of [search] keeps to its frame. *)
Lemma search_fuel_framed fuel : forall key value,
  framed key (search_fuel growcap map_order fuel key value).
Proof.
  induction fuel as [|fuel IH]; intros key value.
  - intros h sent h' _ [=].
  - cbn [search_fuel]. repeat apply framed_andThen.
    + destruct (JSON.Unmarshal_map value); [|apply framed_nothing].
      apply framed_for_each. intros kv _.
      apply (framed_append key (fst kv) (fun key' => search_fuel growcap map_order fuel key' (snd kv))).
      intros key'. apply IH.
    + destruct (JSON.Unmarshal_list value); [|apply framed_nothing].
      apply framed_for_each. intros kv _.
      apply (framed_append key (itoa (fst kv)) (fun key' => search_fuel growcap map_order fuel key' (snd kv))).
      intros key'. apply IH.
    + destruct (JSON.Unmarshal_string value); [apply IH | apply framed_nothing].
    + cbv zeta. destruct (0 <? _); [apply IH | apply framed_nothing].
    + apply framed_emit.
Qed.

End FrameFacts.

(** * Facts about the decoder of the dump tool *)

Section DumpFacts.
Import Dump.

Lemma dump_for_each_ext {A : Type} (f g : A -> option (list Block)) l :
  (forall x, In x l -> f x = g x) -> for_each f l = for_each g l.
Proof.
  induction l as [|x l IH]; intros H; simpl; [reflexivity|].
  rewrite (H x (or_introl eq_refl)), IH; [reflexivity|].
  intros y Hy. apply H. now right.
Qed.

Lemma dump_for_each_total {A : Type} (f : A -> option (list Block)) l :
  (forall x, In x l -> is_Some (f x)) -> is_Some (for_each f l).
Proof.
  induction l as [|x l IH]; intros H; simpl; [eauto|].
  destruct (H x (or_introl eq_refl)) as [out1 ->].
  destruct (IH (fun y Hy => H y (or_intror Hy))) as [out2 ->]. simpl. eauto.
Qed.

Variable json_Marshal : list string -> string.
Variable unicode_IsPrint : UTF8.rune -> bool.
Variable map_order : list (string * string) -> list (string * string).
Hypothesis map_order_perm : forall m, Permutation (map_order m) m.

Local Abbreviation printParam_fuel :=
  (Dump.printParam_fuel json_Marshal unicode_IsPrint map_order).
Local Abbreviation printParamRecurse_fuel :=
  (Dump.printParamRecurse_fuel json_Marshal unicode_IsPrint map_order).
Local Abbreviation printParam :=
  (Dump.printParam json_Marshal unicode_IsPrint map_order).
Local Abbreviation printParamRecurse :=
  (Dump.printParamRecurse json_Marshal unicode_IsPrint map_order).

Lemma print_fuel_stable n :
  (forall m key value request,
     2 * Bytes.weight value + 1 < n -> 2 * Bytes.weight value + 1 < m ->
     printParam_fuel n key value request = printParam_fuel m key value request)
  /\ (forall m key value request,
        2 * Bytes.weight value < n -> 2 * Bytes.weight value < m ->
        printParamRecurse_fuel n key value request
        = printParamRecurse_fuel m key value request).
Proof.
  induction n as [|n [IHp IHr]]; split; intros m key value request Hn Hm;
    try lia; (destruct m as [|m]; [lia|]).
  - cbn [Dump.printParam_fuel]. f_equal. apply IHr; lia.
  - cbn [Dump.printParamRecurse_fuel].
    destruct (JSON.Unmarshal_map value) as [valueMap|] eqn:E1.
    { apply dump_for_each_ext. intros [k v] Hin.
      apply (Permutation_in _ (map_order_perm _)) in Hin.
      pose proof (Unmarshal_map_weight _ _ E1 k v Hin). apply IHp; simpl; lia. }
    destruct (JSON.Unmarshal_list value) as [valueList|] eqn:E2.
    { apply dump_for_each_ext. intros v Hin.
      pose proof (Unmarshal_list_weight _ _ E2 v Hin). apply IHp; lia. }
    destruct (JSON.Unmarshal_string value) as [valueString|] eqn:E3.
    { pose proof (Unmarshal_string_weight _ _ E3). apply IHr; lia. }
    pose proof (DecodeString_weight value) as W.
    destruct (Base64.DecodeString value) as [bytes err]. cbn [fst] in W.
    destruct (negb err); [|reflexivity]. cbn [andb].
    destruct (Nat.ltb_spec 0 (String.length bytes)) as [L|L]; [|reflexivity].
    cbn [andb]. destruct (isPrint unicode_IsPrint bytes); [|reflexivity].
    specialize (W L). apply IHp; lia.
Qed.

Lemma print_fuel_total n :
  (forall key value request,
     2 * Bytes.weight value + 1 < n ->
     is_Some (printParam_fuel n key value request))
  /\ (forall key value request,
        2 * Bytes.weight value < n ->
        is_Some (printParamRecurse_fuel n key value request)).
Proof.
  induction n as [|n [IHp IHr]]; split; intros key value request Hn; try lia.
  - destruct (IHr key value request ltac:(lia)) as [out E].
    change (is_Some (option_map (cons (mkBlock key value request))
                                (printParamRecurse_fuel n key value request))).
    rewrite E. simpl. eauto.
  - cbn [Dump.printParamRecurse_fuel].
    destruct (JSON.Unmarshal_map value) as [valueMap|] eqn:E1.
    { apply dump_for_each_total. intros [k v] Hin.
      apply (Permutation_in _ (map_order_perm _)) in Hin.
      pose proof (Unmarshal_map_weight _ _ E1 k v Hin). apply IHp; simpl; lia. }
    destruct (JSON.Unmarshal_list value) as [valueList|] eqn:E2.
    { apply dump_for_each_total. intros v Hin.
      pose proof (Unmarshal_list_weight _ _ E2 v Hin). apply IHp; lia. }
    destruct (JSON.Unmarshal_string value) as [valueString|] eqn:E3.
    { pose proof (Unmarshal_string_weight _ _ E3). apply IHr; lia. }
    pose proof (DecodeString_weight value) as W.
    destruct (Base64.DecodeString value) as [bytes err]. cbn [fst] in W.
    destruct (negb err); [|eauto]. cbn [andb].
    destruct (Nat.ltb_spec 0 (String.length bytes)) as [L|L]; [|eauto].
    cbn [andb]. destruct (isPrint unicode_IsPrint bytes); [|eauto].
    specialize (W L). apply IHp; lia.
Qed.

Lemma printParam_total key value request :
  is_Some (printParam key value request).
Proof. apply print_fuel_total. unfold fuel_for. lia. Qed.

Lemma printParamRecurse_total key value request :
  is_Some (printParamRecurse key value request).
Proof. apply print_fuel_total. unfold fuel_for. lia. Qed.

(** [printParam] prints its arguments, then calls [printParamRecurse]. *)
Lemma printParam_unfold key value request :
  printParam key value request
  = option_map (cons (mkBlock key value request))
               (printParamRecurse key value request).
Proof.
  unfold Dump.printParam, Dump.printParamRecurse, fuel_for.
  replace (2 * Bytes.weight value + 2) with (S (2 * Bytes.weight value + 1)) by lia.
  cbn [Dump.printParam_fuel]. f_equal.
  apply print_fuel_stable; lia.
Qed.

End DumpFacts.

(** * The decoder of the correlation tool: what [search] sends *)

Section SearchResults.
Import Slice Correlate.

Variable growcap : nat -> nat.
Variable map_order : list (string * string) -> list (string * string).

Local Abbreviation search := (Correlate.search growcap map_order).
Local Abbreviation search_body := (Correlate.search_body growcap map_order).

Lemma andThen_emit (p : producer) kv h sent h' :
  p h = Some (sent, h') ->
  andThen p (fun h0 => Some ([kv], h0)) h = Some (sent ++ [kv], h').
Proof. intros E. unfold andThen. now rewrite E. Qed.

Lemma andThen_last (p q : producer) kv h :
  (forall h0, is_Some (p h0)) ->
  (forall h0, exists sent h', q h0 = Some (sent ++ [kv], h')) ->
  exists sent h', andThen p q h = Some (sent ++ [kv], h').
Proof.
  intros Hp Hq. unfold andThen.
  destruct (Hp h) as [[sent1 h1] ->].
  destruct (Hq h1) as (sent2 & h2 & ->).
  exists (sent1 ++ sent2), h2. now rewrite app_assoc.
Qed.

Lemma search_framed key value : framed key (search key value).
Proof. apply search_fuel_framed. Qed.

(** What the frame of a call gives for the keys it sends. *)
Lemma frames_prefix key h sent h' :
  frames key h sent h' ->
  read h' key = read h key
  /\ forall kv, In kv sent -> read h key `prefix_of` read h' (Key kv).
Proof.
  intros (_ & _ & F3 & _ & F5). split; [exact F3|].
  intros kv Hkv. destruct (F5 kv Hkv) as (_ & _ & Hl & Ht).
  unfold read. rewrite <- Ht.
  replace (take (len key) (array h' (Key kv)))
    with (take (len key) (take (len (Key kv)) (array h' (Key kv)))).
  - apply prefix_take.
  - rewrite take_take. f_equal. lia.
Qed.

(** A value that no branch accepts gives one leaf. *)
Lemma search_no_branch key value h :
  JSON.Unmarshal_map value = None ->
  JSON.Unmarshal_list value = None ->
  JSON.Unmarshal_string value = None ->
  fst (Base64.DecodeString value) = EmptyString ->
  search key value h = Some ([mkKeyValue key value], h).
Proof.
  intros E1 E2 E3 E4. unfold Correlate.search. cbn [search_fuel].
  rewrite E1, E2, E3, E4. reflexivity.
Qed.

Lemma search_empty key h :
  search key EmptyString h = Some ([mkKeyValue key EmptyString], h).
Proof. reflexivity. Qed.

Hypothesis map_order_perm : forall m, Permutation (map_order m) m.

Lemma search_body_total_branches key value :
  (forall h, is_Some
     (match JSON.Unmarshal_map value with
      | Some valueMap =>
          for_each (fun kv h0 =>
                      let '(key', h') := append growcap key (fst kv) h0 in
                      search key' (snd kv) h')
                   (map_order valueMap)
      | None => nothing
      end h))
  /\ (forall h, is_Some
        (match JSON.Unmarshal_list value with
         | Some valueList =>
             for_each (fun kv h0 =>
                         let '(key', h') :=
                           append growcap key (itoa (fst kv)) h0 in
                         search key' (snd kv) h')
                      (indexed valueList)
         | None => nothing
         end h))
  /\ (forall h, is_Some
        (match JSON.Unmarshal_string value with
         | Some valueString => search key valueString
         | None => nothing
         end h))
  /\ (forall h, is_Some
        ((let bytes := fst (Base64.DecodeString value) in
          if 0 <? String.length bytes then search key bytes else nothing) h)).
Proof.
  assert (N : forall h0, is_Some (nothing h0)) by (intros h0; unfold nothing; eauto).
  repeat split; intros h.
  - destruct (JSON.Unmarshal_map value); [|apply N].
    apply for_each_total. intros kv _ h0.
    destruct (append growcap key (fst kv) h0). now apply search_total.
  - destruct (JSON.Unmarshal_list value); [|apply N].
    apply for_each_total. intros kv _ h0.
    destruct (append growcap key (itoa (fst kv)) h0). now apply search_total.
  - destruct (JSON.Unmarshal_string value); [now apply search_total | apply N].
  - cbv zeta. destruct (0 <? _); [now apply search_total | apply N].
Qed.

(** The pair given is sent, and it is sent last. *)
Lemma search_last key value h :
  exists sent h', search key value h = Some (sent ++ [mkKeyValue key value], h').
Proof.
  rewrite (search_unfold growcap map_order map_order_perm).
  destruct (search_body_total_branches key value) as (T1 & T2 & T3 & T4).
  unfold Correlate.search_body.
  apply andThen_last; [exact T1|]. intros h1.
  apply andThen_last; [exact T2|]. intros h2.
  apply andThen_last; [exact T3|]. intros h3.
  destruct (T4 h3) as [[sent4 h4] E4].
  exists sent4, h4. now apply andThen_emit.
Qed.

End SearchResults.

Section DumpResults.
Import Dump.

Variable json_Marshal : list string -> string.
Variable unicode_IsPrint : UTF8.rune -> bool.
Variable map_order : list (string * string) -> list (string * string).
Hypothesis map_order_perm : forall m, Permutation (map_order m) m.

Local Abbreviation printParam :=
  (Dump.printParam json_Marshal unicode_IsPrint map_order).
Local Abbreviation printParamRecurse :=
  (Dump.printParamRecurse json_Marshal unicode_IsPrint map_order).

(** [printParamRecurse] tries its branches in order and returns after the
    first whose test succeeds. *)
Lemma printParamRecurse_unfold key value request :
  printParamRecurse key value request
  = Dump.printParamRecurse_body json_Marshal unicode_IsPrint map_order
      key value request.
Proof.
  unfold Dump.printParamRecurse, Dump.printParamRecurse_body, fuel_for.
  replace (2 * Bytes.weight value + 2) with (S (2 * Bytes.weight value + 1)) by lia.
  cbn [Dump.printParamRecurse_fuel].
  pose proof (print_fuel_stable json_Marshal unicode_IsPrint map_order
                map_order_perm (2 * Bytes.weight value + 1)) as [Sp Sr].
  destruct (JSON.Unmarshal_map value) as [valueMap|] eqn:E1.
  { apply dump_for_each_ext. intros [k v] Hin.
    apply (Permutation_in _ (map_order_perm _)) in Hin.
    pose proof (Unmarshal_map_weight _ _ E1 k v Hin).
    apply Sp; unfold fuel_for; simpl; lia. }
  destruct (JSON.Unmarshal_list value) as [valueList|] eqn:E2.
  { apply dump_for_each_ext. intros v Hin.
    pose proof (Unmarshal_list_weight _ _ E2 v Hin).
    apply Sp; unfold fuel_for; lia. }
  destruct (JSON.Unmarshal_string value) as [valueString|] eqn:E3.
  { pose proof (Unmarshal_string_weight _ _ E3).
    apply Sr; unfold fuel_for; lia. }
  pose proof (DecodeString_weight value) as W.
  destruct (Base64.DecodeString value) as [bytes err]. cbn [fst] in W.
  destruct (negb err); [|reflexivity]. cbn [andb].
  destruct (Nat.ltb_spec 0 (String.length bytes)) as [L|L]; [|reflexivity].
  cbn [andb]. destruct (isPrint unicode_IsPrint bytes); [|reflexivity].
  specialize (W L). apply Sp; unfold fuel_for; lia.
Qed.

Lemma printParamRecurse_empty key request :
  printParamRecurse key EmptyString request = Some [].
Proof. reflexivity. Qed.

End DumpResults.

(** * The claims about the decoders *)

Section DecoderClaims.
Import Slice.

Variable growcap : nat -> nat.
Variable map_order : list (string * string) -> list (string * string).
Variable json_Marshal : list string -> string.
Variable unicode_IsPrint : UTF8.rune -> bool.

Local Abbreviation search := (Correlate.search growcap map_order).
Local Abbreviation printParam :=
  (Dump.printParam json_Marshal unicode_IsPrint map_order).
Local Abbreviation printParamRecurse :=
  (Dump.printParamRecurse json_Marshal unicode_IsPrint map_order).

Lemma recursed_weight value v :
  In v (Correlate.recursed value) -> Bytes.weight v < Bytes.weight value.
Proof.
  unfold Correlate.recursed. rewrite !in_app_iff.
  intros [H|[H|[H|H]]].
  - destruct (JSON.Unmarshal_map value) as [m|] eqn:E; [|destruct H].
    apply in_map_iff in H as ([k v'] & <- & Hin).
    eapply Unmarshal_map_weight; eauto.
  - destruct (JSON.Unmarshal_list value) as [l|] eqn:E; [|destruct H].
    eapply Unmarshal_list_weight; eauto.
  - destruct (JSON.Unmarshal_string value) as [s|] eqn:E; [|destruct H].
    destruct H as [<-|[]]. now apply Unmarshal_string_weight.
  - cbv zeta in H.
    destruct (Nat.ltb_spec 0 (String.length (fst (Base64.DecodeString value))))
      as [L|L]; [|destruct H].
    destruct H as [<-|[]]. now apply DecodeString_weight.
Qed.

Lemma search_frame_prefix key value h sent h' :
  wf h key ->
  search key value h = Some (sent, h') ->
  read h' key = read h key
  /\ forall kv, In kv sent -> read h key `prefix_of` read h' (Correlate.Key kv).
Proof.
  intros W E. apply frames_prefix. eapply search_framed; eauto.
Qed.

(** The keys within one call.  Every leaf that a call [search(key, value)]
    sends, directly or through its recursive calls, has a key of which [key]
    is a prefix when read in the heap as the call leaves it, and the call
    leaves the segments of [key] itself as they were.  This is a statement
    about the moment the call returns only: the keys are slices that share
    arrays, [main] reads them when it encodes the results, and by then an
    [append] of the caller may have written over the last segment that the
    call was given. *)
Theorem search_key_prefix key value h sent h' :
  wf h key ->
  search key value h = Some (sent, h') ->
  read h' key = read h key
  /\ forall kv, In kv sent -> read h key `prefix_of` read h' (Correlate.Key kv).
Proof. apply search_frame_prefix. Qed.

(** C3, amended.  When [json.Unmarshal] fails for the map, the slice and the
    string target, and the base64 decoder returns no byte at all (not even a
    prefix decoded before an error), [search] sends exactly the pair it was
    given; for the empty string in particular. *)
Theorem search_plain_string key value h :
  JSON.Unmarshal_map value = None ->
  JSON.Unmarshal_list value = None ->
  JSON.Unmarshal_string value = None ->
  fst (Base64.DecodeString value) = EmptyString ->
  search key value h = Some ([Correlate.mkKeyValue key value], h)
  /\ search key EmptyString h
     = Some ([Correlate.mkKeyValue key EmptyString], h).
Proof.
  intros E1 E2 E3 E4. split.
  - now apply search_no_branch.
  - apply search_empty.
Qed.

Hypothesis map_order_perm : forall m, Permutation (map_order m) m.

(** C1, amended.  [search] tries its four branches whatever the others did
    and then sends the pair it was given, last, with its key unchanged.  In
    the dump tool [printParam] prints the pair first and then what
    [printParamRecurse] prints; [printParamRecurse] itself does not print
    the pair, and returns after the first branch whose test succeeds. *)
Theorem decoder_emits_original key value h k request :
  wf h key ->
  search key value h = Correlate.search_body growcap map_order key value h
  /\ (exists sent h',
         search key value h
         = Some (sent ++ [Correlate.mkKeyValue key value], h')
         /\ read h' key = read h key)
  /\ printParam k value request
     = option_map (cons (Dump.mkBlock k value request))
                  (printParamRecurse k value request)
  /\ printParamRecurse k value request
     = Dump.printParamRecurse_body json_Marshal unicode_IsPrint map_order
         k value request.
Proof.
  intros W. repeat split.
  - now apply search_unfold.
  - destruct (search_last growcap map_order map_order_perm key value h)
      as (sent & h' & E).
    exists sent, h'. split; [exact E|].
    now apply (search_frame_prefix _ _ _ _ _ W E).
  - now apply printParam_unfold.
  - now apply printParamRecurse_unfold.
Qed.

(** C2.  Both decoders return for every pair: [search] and [printParam]
    with the fuel that the model gives them.  Every value handed to a
    recursive call has strictly fewer bytes below 0x80 than the value of the
    call, so it differs from it; and the empty string is not descended
    into. *)
Theorem decoding_terminates key value h k request :
  is_Some (search key value h)
  /\ (forall v, In v (Correlate.recursed value) ->
                Bytes.weight v < Bytes.weight value /\ v <> value)
  /\ search key EmptyString h
     = Some ([Correlate.mkKeyValue key EmptyString], h)
  /\ Correlate.recursed EmptyString = []
  /\ is_Some (printParam k value request)
  /\ is_Some (printParamRecurse k value request)
  /\ printParamRecurse k EmptyString request = Some [].
Proof.
  repeat split.
  - now apply search_total.
  - now apply recursed_weight.
  - intros ->. apply recursed_weight in H. lia.
  - now apply printParam_total.
  - now apply printParamRecurse_total.
Qed.

End DecoderClaims.

Lemma sample_perm m : Permutation (Sample.map_order m) m.
Proof. apply Permutation_refl. Defined.

Lemma sample_wf_body : Slice.wf [["body"]] (Slice.mkSlice 0 1 1).
Proof. unfold Slice.wf. simpl. repeat split; apply le_n. Defined.

Lemma search_key_prefix_witness :
  Slice.wf [["body"]] (Slice.mkSlice 0 1 1)
  /\ exists sent h',
       Correlate.search Sample.growcap Sample.map_order
         (Slice.mkSlice 0 1 1) "[1,[2,3]]" [["body"]] = Some (sent, h')
       /\ Slice.read h' (Slice.mkSlice 0 1 1) = ["body"]
       /\ forall kv, In kv sent ->
            ["body"] `prefix_of` Slice.read h' (Correlate.Key kv).
Proof.
  split; [exact sample_wf_body|].
  eexists _, _. split; [vm_compute; reflexivity|].
  apply (search_key_prefix Sample.growcap Sample.map_order
           (Slice.mkSlice 0 1 1) "[1,[2,3]]" [["body"]]).
  - exact sample_wf_body.
  - vm_compute. reflexivity.
Defined.

(** C9, which the code breaks.  A leaf keeps the slice that its call was
    given, not a copy, and [main] reads the slice only when it encodes the
    results.  For the query parameter q with the value {"a":[1,2]} the key
    [query q a] has room for one more segment, so both elements of the
    array are appended in place, in the same slot: the call for the first
    element is given the key [query q a 0] and sends its leaf with that key,
    and the run prints this leaf under [query q a 1], which the key of the
    call is no prefix of. *)
Theorem nested_key_rewritten :
  Slice.append Sample.growcap (Slice.mkSlice 1 3 4) "0"
    [["query"; "q"]; ["query"; "q"; "a"; EmptyString]]
  = (Slice.mkSlice 1 4 4, [["query"; "q"]; ["query"; "q"; "a"; "0"]])
  /\ Correlate.search Sample.growcap Sample.map_order (Slice.mkSlice 1 4 4) "1"
       [["query"; "q"]; ["query"; "q"; "a"; "0"]]
     = Some ([Correlate.mkKeyValue (Slice.mkSlice 1 4 4) "1"],
             [["query"; "q"]; ["query"; "q"; "a"; "0"]])
  /\ Correlate.search Sample.growcap Sample.map_order (Slice.mkSlice 0 2 2)
       ("{" +:+ Sample.quoted "a" +:+ ":[1,2]}") [["query"; "q"]]
     = Some ([Correlate.mkKeyValue (Slice.mkSlice 1 4 4) "1";
              Correlate.mkKeyValue (Slice.mkSlice 1 4 4) "2";
              Correlate.mkKeyValue (Slice.mkSlice 1 3 4) "[1,2]";
              Correlate.mkKeyValue (Slice.mkSlice 0 2 2)
                ("{" +:+ Sample.quoted "a" +:+ ":[1,2]}")],
             [["query"; "q"]; ["query"; "q"; "a"; "1"]])
  /\ Correlate.main Sample.growcap Sample.map_order Sample.url_Parse
       EmptyString
       (Some [Har.mkEntry
                (Har.mkRequest "GET" "http://example.com/s"
                   [Har.mkNameValue "q"
                      ("{" +:+ Sample.quoted "a" +:+ ":[1,2]}")]
                   [] EmptyString)
                "MSAy"])
     = Some (Correlate.Printed
               [Correlate.mkResultJSON "GET" "http://example.com/s"
                  [(["query"; "q"; "a"; "1"], "1");
                   (["query"; "q"; "a"; "1"], "2");
                   (["body"], EmptyString)]])
  /\ ~ ["query"; "q"; "a"; "0"] `prefix_of` ["query"; "q"; "a"; "1"].
Proof.
  split; [reflexivity|].
  split; [vm_compute; reflexivity|].
  split; [vm_compute; reflexivity|].
  split; [vm_compute; reflexivity|].
  intros [k E]. discriminate E.
Qed.

Lemma search_plain_string_witness :
  JSON.Unmarshal_map "hi there" = None
  /\ JSON.Unmarshal_list "hi there" = None
  /\ JSON.Unmarshal_string "hi there" = None
  /\ fst (Base64.DecodeString "hi there") = EmptyString
  /\ Correlate.search Sample.growcap Sample.map_order
       (Slice.mkSlice 0 1 1) "hi there" [["body"]]
     = Some ([Correlate.mkKeyValue (Slice.mkSlice 0 1 1) "hi there"],
             [["body"]]).
Proof.
  refine (conj eq_refl (conj eq_refl (conj eq_refl (conj eq_refl _)))).
  exact (proj1 (search_plain_string Sample.growcap Sample.map_order
                  (Slice.mkSlice 0 1 1) "hi there" [["body"]]
                  eq_refl eq_refl eq_refl eq_refl)).
Defined.

(** The claim C3 as stated fails: the word hello is no JSON and no valid
    base64, and [search] sends two leaves for it, the first with the three
    bytes decoded before the error.  Likewise the literal null after a
    space, which is no object, array or string and holds no base64. *)
Lemma search_plain_string_counterexample :
  JSON.Unmarshal_map "hello" = None
  /\ JSON.Unmarshal_list "hello" = None
  /\ JSON.Unmarshal_string "hello" = None
  /\ snd (Base64.DecodeString "hello") = true
  /\ Correlate.search Sample.growcap Sample.map_order
       (Slice.mkSlice 0 1 1) "hello" [["body"]]
     = Some ([Correlate.mkKeyValue (Slice.mkSlice 0 1 1)
                (fst (Base64.DecodeString "hello"));
              Correlate.mkKeyValue (Slice.mkSlice 0 1 1) "hello"],
             [["body"]])
  /\ Correlate.search Sample.growcap Sample.map_order
       (Slice.mkSlice 0 1 1) "hello" [["body"]]
     <> Some ([Correlate.mkKeyValue (Slice.mkSlice 0 1 1) "hello"],
              [["body"]])
  /\ Base64.DecodeString " null" = (EmptyString, true)
  /\ Correlate.search Sample.growcap Sample.map_order
       (Slice.mkSlice 0 1 1) " null" [["body"]]
     = Some ([Correlate.mkKeyValue (Slice.mkSlice 0 1 1) EmptyString;
              Correlate.mkKeyValue (Slice.mkSlice 0 1 1) " null"],
             [["body"]]).
Proof.
  repeat split; try (vm_compute; reflexivity).
  vm_compute. discriminate.
Qed.

Lemma decoder_emits_original_witness :
  Slice.wf [["body"]] (Slice.mkSlice 0 1 1)
  /\ exists sent h',
       Correlate.search Sample.growcap Sample.map_order
         (Slice.mkSlice 0 1 1) "aGk=" [["body"]]
       = Some (sent ++ [Correlate.mkKeyValue (Slice.mkSlice 0 1 1) "aGk="], h')
       /\ Slice.read h' (Slice.mkSlice 0 1 1) = ["body"].
Proof.
  split; [exact sample_wf_body|].
  exact (proj1 (proj2 (decoder_emits_original Sample.growcap Sample.map_order
                         Sample.json_Marshal Sample.IsPrint sample_perm
                         (Slice.mkSlice 0 1 1) "aGk=" [["body"]]
                         "body" "GET /" sample_wf_body))).
Defined.

(** The claim C1 as stated fails in the dump tool.  The body of a request
    is handed to [printParamRecurse], which prints nothing for the word
    hello, so the pair itself is missing from the output.  And for the text
    null the map branch succeeds and returns, although the base64 branch on
    its own would accept the text: it decodes without error to three bytes
    that [isPrint] accepts. *)
Lemma decoder_emits_original_counterexample :
  Dump.printParamRecurse Sample.json_Marshal Sample.IsPrint Sample.map_order
    "body" "hello" "GET /" = Some []
  /\ ~ (exists out,
          Dump.printParamRecurse Sample.json_Marshal Sample.IsPrint
            Sample.map_order "body" "hello" "GET /" = Some out
          /\ In (Dump.mkBlock "body" "hello" "GET /") out)
  /\ Dump.printParam Sample.json_Marshal Sample.IsPrint Sample.map_order
       "k" "null" "GET /" = Some [Dump.mkBlock "k" "null" "GET /"]
  /\ snd (Base64.DecodeString "null") = false
  /\ 0 < String.length (fst (Base64.DecodeString "null"))
  /\ Dump.isPrint Sample.IsPrint (fst (Base64.DecodeString "null")) = true.
Proof.
  repeat split; try (vm_compute; reflexivity).
  - intros (out & E & Hin). vm_compute in E. injection E as <-. destruct Hin.
  - vm_compute. lia.
Qed.

Lemma decoding_terminates_witness :
  is_Some (Correlate.search Sample.growcap Sample.map_order
             (Slice.mkSlice 0 1 1) "[1,[2,3]]" [["body"]])
  /\ is_Some (Dump.printParam Sample.json_Marshal Sample.IsPrint
                Sample.map_order "k" "[1,[2,3]]" "GET /").
Proof.
  pose proof (decoding_terminates Sample.growcap Sample.map_order
                Sample.json_Marshal Sample.IsPrint sample_perm
                (Slice.mkSlice 0 1 1) "[1,[2,3]]" [["body"]] "k" "GET /")
    as (T1 & _ & _ & _ & T2 & _).
  split; assumption.
Defined.

(** * Base64 text is no JSON, except for the literal null *)

Section Base64Text.
Import Bytes Base64.

Lemma encode_alphabet : forall n l, length l <= n ->
  Forall (fun c => decodeMap c <> None \/ c = padChar) (encode l).
Proof.
  assert (A : forall x, decodeMap (encodeChar (N.land x 63)) <> None \/
                        encodeChar (N.land x 63) = padChar).
  { intros x. left. rewrite encodeChar_decodeMap by apply sextet_lt. discriminate. }
  induction n as [|n IH]; intros l Hl.
  - destruct l; [constructor | simpl in Hl; lia].
  - destruct l as [|a [|b [|c rest]]]; cbn [encode].
    + constructor.
    + do 2 (constructor; [apply A|]).
      do 2 (constructor; [right; reflexivity|]). constructor.
    + do 3 (constructor; [apply A|]).
      constructor; [right; reflexivity|]. constructor.
    + do 4 (constructor; [apply A|]). apply IH. simpl in Hl. lia.
Qed.

Lemma alphabet_no_json c :
  decodeMap c <> None \/ c = padChar ->
  JSON.isSpace c = false /\ Ascii.eqb c "{"%char = false
  /\ Ascii.eqb c "["%char = false /\ Ascii.eqb c JSON.quote = false.
Proof.
  intros [H| ->]; [|repeat split; reflexivity].
  destruct c as [[] [] [] [] [] [] [] []];
    try (repeat split; reflexivity); exfalso; apply H; reflexivity.
Qed.

(** A valid JSON text that starts with the letter n and holds no white
    space is the literal null. *)
Lemma checkValid_n d :
  JSON.checkValid ("n"%char :: d) = true ->
  Forall (fun c => JSON.isSpace c = false) d ->
  d = ["u"; "l"; "l"]%char.
Proof.
  unfold JSON.checkValid. cbn [JSON.scan_all].
  change (JSON.scan_step JSON.reset "n")
    with (Some (JSON.mkScanner JSON.stateN [] false)).
  cbv iota. intros H F.
  destruct d as [|c1 d]; [discriminate H|].
  cbn [JSON.scan_all] in H. unfold JSON.scan_step in H at 1.
  cbn [JSON.step] in H. unfold JSON.expect in H.
  destruct (Ascii.eqb_spec c1 "u"%char) as [->|]; [|discriminate H].
  unfold JSON.goto in H. cbn [JSON.parseState JSON.endTop] in H.
  destruct d as [|c2 d]; [discriminate H|].
  cbn [JSON.scan_all] in H. unfold JSON.scan_step in H at 1.
  cbn [JSON.step] in H. unfold JSON.expect in H.
  destruct (Ascii.eqb_spec c2 "l"%char) as [->|]; [|discriminate H].
  unfold JSON.goto in H. cbn [JSON.parseState JSON.endTop] in H.
  destruct d as [|c3 d]; [discriminate H|].
  cbn [JSON.scan_all] in H. unfold JSON.scan_step in H at 1.
  cbn [JSON.step] in H. unfold JSON.expect in H.
  destruct (Ascii.eqb_spec c3 "l"%char) as [->|]; [|discriminate H].
  unfold JSON.goto in H. cbn [JSON.parseState JSON.endTop] in H.
  destruct d as [|c4 d]; [reflexivity|].
  exfalso. cbn [JSON.scan_all] in H. unfold JSON.scan_step in H at 1.
  cbn [JSON.step] in H. unfold JSON.do_stateEndValue in H.
  cbn [JSON.parseState] in H. unfold JSON.do_stateEndTop in H.
  inversion F as [|? ? _ F1]. inversion F1 as [|? ? _ F2].
  inversion F2 as [|? ? _ F3]. inversion F3 as [|? ? Hc4 _].
  rewrite Hc4 in H. discriminate H.
Qed.

Lemma skip_space_nonspace c d :
  JSON.isSpace c = false -> JSON.skip_space (c :: d) = c :: d.
Proof. intros H. simpl. now rewrite H. Qed.

(** Among the texts that [EncodeToString] returns, [json.Unmarshal]
    accepts the text null alone, for any of the three targets. *)
Lemma Unmarshal_encoded s :
  EncodeToString s <> "null" ->
  JSON.Unmarshal_map (EncodeToString s) = None
  /\ JSON.Unmarshal_list (EncodeToString s) = None
  /\ JSON.Unmarshal_string (EncodeToString s) = None.
Proof.
  intros Hne.
  pose proof (encode_alphabet _ (list_ascii_of_string s) (le_n _)) as F.
  unfold JSON.Unmarshal_map, JSON.Unmarshal_list, JSON.Unmarshal_string.
  unfold EncodeToString in *.
  rewrite list_ascii_of_string_of_list_ascii.
  set (d := encode (list_ascii_of_string s)) in *.
  destruct (JSON.checkValid d) eqn:V; [|auto].
  destruct d as [|c d']; [discriminate V|].
  assert (Fs : Forall (fun c => JSON.isSpace c = false) (c :: d')).
  { eapply Forall_impl; [exact F|]. intros x Hx. now apply alphabet_no_json. }
  inversion F as [|? ? Hc _]. subst.
  destruct (alphabet_no_json c Hc) as (S & B1 & B2 & B3).
  rewrite (skip_space_nonspace _ _ S). rewrite B1, B2, B3.
  destruct (Ascii.eqb_spec c "n"%char) as [->|]; [|auto].
  exfalso. apply Hne.
  inversion Fs as [|? ? _ Fs']. subst.
  now rewrite (checkValid_n d' V Fs').
Qed.

Lemma encoded_null_invalid s :
  EncodeToString s = "null" -> UTF8.ValidString s = false.
Proof.
  intros E. pose proof (DecodeString_EncodeToString s) as D.
  rewrite E in D. vm_compute in D. injection D as <-. reflexivity.
Qed.

End Base64Text.

Section RoundTrip.
Import Slice.

Variable growcap : nat -> nat.
Variable map_order : list (string * string) -> list (string * string).
Variable json_Marshal : list string -> string.
Variable unicode_IsPrint : UTF8.rune -> bool.
Hypothesis map_order_perm : forall m, Permutation (map_order m) m.

Local Abbreviation search := (Correlate.search growcap map_order).
Local Abbreviation printParam :=
  (Dump.printParam json_Marshal unicode_IsPrint map_order).
Local Abbreviation printParamRecurse :=
  (Dump.printParamRecurse json_Marshal unicode_IsPrint map_order).

Lemma string_length_0 s : String.length s = 0 -> s = EmptyString.
Proof. destruct s; [reflexivity | discriminate]. Qed.

Lemma search_encoded s key h :
  exists sent h',
    search key (Base64.EncodeToString s) h = Some (sent, h')
    /\ In (Correlate.mkKeyValue key s) sent.
Proof.
  destruct (Nat.eq_dec (String.length s) 0) as [Z|NZ].
  { apply string_length_0 in Z. subst s.
    exists [Correlate.mkKeyValue key EmptyString], h. split; [reflexivity|now left]. }
  rewrite (search_unfold growcap map_order map_order_perm).
  destruct (search_body_total_branches growcap map_order map_order_perm key
              (Base64.EncodeToString s)) as (T1 & T2 & T3 & _).
  unfold Correlate.search_body, Correlate.andThen.
  destruct (T1 h) as [[s1 h1] ->]. destruct (T2 h1) as [[s2 h2] ->].
  destruct (T3 h2) as [[s3 h3] ->].
  rewrite DecodeString_EncodeToString. cbn [fst].
  destruct (Nat.ltb_spec 0 (String.length s)) as [L|L]; [|lia].
  destruct (search_last growcap map_order map_order_perm key s h3)
    as (s4 & h4 & ->).
  eexists _, _. split; [reflexivity|].
  rewrite !in_app_iff. right. right. right. left. right. now left.
Qed.

(** C4.  The standard base64 encoding of a string [s], handed to [search]
    at a key, gives among the leaves sent one with that key and the value
    [s].  The dump tool prints the pair as well when [s] is printable:
    valid UTF-8 made of runes that [unicode.IsPrint] accepts. *)
Theorem base64_round_trip s key h k request :
  wf h key ->
  UTF8.ValidString s = true ->
  Dump.isPrint unicode_IsPrint s = true ->
  (exists sent h',
      search key (Base64.EncodeToString s) h = Some (sent, h')
      /\ In (Correlate.mkKeyValue key s) sent
      /\ read h' key = read h key)
  /\ (exists out,
        printParam k (Base64.EncodeToString s) request = Some out
        /\ In (Dump.mkBlock k s request) out).
Proof.
  intros W V P. split.
  - destruct (search_encoded s key h) as (sent & h' & E & Hin).
    exists sent, h'. repeat split; auto.
    now apply (search_frame_prefix _ _ _ _ _ _ _ W E).
  - destruct (Nat.eq_dec (String.length s) 0) as [Z|NZ].
    { apply string_length_0 in Z. subst s.
      exists [Dump.mkBlock k EmptyString request]. split; [reflexivity|now left]. }
    assert (Hne : Base64.EncodeToString s <> "null").
    { intros E. apply encoded_null_invalid in E. congruence. }
    destruct (Unmarshal_encoded s Hne) as (E1 & E2 & E3).
    rewrite (printParam_unfold _ _ _ map_order_perm).
    rewrite (printParamRecurse_unfold _ _ _ map_order_perm).
    unfold Dump.printParamRecurse_body. rewrite E1, E2, E3.
    rewrite DecodeString_EncodeToString. cbn [negb andb].
    destruct (Nat.ltb_spec 0 (String.length s)) as [L|L]; [|lia].
    rewrite P. cbn [andb].
    rewrite (printParam_unfold _ _ _ map_order_perm).
    destruct (printParamRecurse_total json_Marshal unicode_IsPrint map_order
                map_order_perm k s request) as [out' ->].
    cbn [option_map]. eexists. split; [reflexivity|]. right. now left.
Qed.

End RoundTrip.

Lemma base64_round_trip_witness :
  Slice.wf [["body"]] (Slice.mkSlice 0 1 1)
  /\ UTF8.ValidString "hello" = true
  /\ Dump.isPrint Sample.IsPrint "hello" = true
  /\ (exists sent h',
        Correlate.search Sample.growcap Sample.map_order
          (Slice.mkSlice 0 1 1) (Base64.EncodeToString "hello") [["body"]]
        = Some (sent, h')
        /\ In (Correlate.mkKeyValue (Slice.mkSlice 0 1 1) "hello") sent
        /\ Slice.read h' (Slice.mkSlice 0 1 1) = ["body"])
  /\ (exists out,
        Dump.printParam Sample.json_Marshal Sample.IsPrint Sample.map_order
          "k" (Base64.EncodeToString "hello") "GET /" = Some out
        /\ In (Dump.mkBlock "k" "hello" "GET /") out).
Proof.
  refine (conj sample_wf_body (conj eq_refl (conj eq_refl _))).
  exact (base64_round_trip Sample.growcap Sample.map_order Sample.json_Marshal
           Sample.IsPrint sample_perm "hello" (Slice.mkSlice 0 1 1) [["body"]]
           "k" "GET /" sample_wf_body eq_refl eq_refl).
Defined.

(** * The claims about the correlation tool *)

Section CorrelationClaims.
Import Slice Correlate.

Variable growcap : nat -> nat.
Variable map_order : list (string * string) -> list (string * string).
Variable url_Parse : string -> URL.URL + string.

Local Abbreviation search := (Correlate.search growcap map_order).
Local Abbreviation entry_producer :=
  (Correlate.entry_producer growcap map_order).
Local Abbreviation host_filter := (Correlate.host_filter url_Parse).
Local Abbreviation entry_step :=
  (Correlate.entry_step growcap map_order url_Parse).
Local Abbreviation entries_loop :=
  (Correlate.entries_loop growcap map_order url_Parse).
Local Abbreviation main := (Correlate.main growcap map_order url_Parse).

Lemma Contains_empty s : Strings.Contains s EmptyString = true.
Proof.
  unfold Strings.Contains. simpl.
  destruct (list_ascii_of_string s); reflexivity.
Qed.

(** What an iteration that appends a result has done. *)
Lemma entry_step_append domains entry h r h' :
  entry_step domains entry h = Some (Append r, h') ->
  host_filter domains (Har.URL (Har.Request_ entry)) = Some true
  /\ snd (Base64.DecodeString (Har.Response_Content_Text entry)) = false
  /\ exists sent,
       entry_producer (Har.Request_ entry) h = Some (sent, h')
       /\ r = mkResult (Har.Method (Har.Request_ entry))
                       (Har.URL (Har.Request_ entry))
                       (List.filter
                          (fun kv => Strings.Contains
                                       (fst (Base64.DecodeString
                                               (Har.Response_Content_Text entry)))
                                       (Value kv))
                          sent).
Proof.
  unfold Correlate.entry_step.
  destruct (host_filter domains _) as [[|]|]; try discriminate.
  destruct (Base64.DecodeString _) as [respBody err].
  destruct err; [discriminate|].
  destruct (entry_producer _ h) as [[sent h1]|]; [|discriminate].
  intros [= <- <-]. repeat split; eauto.
Qed.

(** C5, amended.  The leaves of a result are exactly the leaves sent for the
    entry whose value is contained in the decoded response body.  No guard
    excludes the empty string, which every body contains: a leaf with the
    empty value is always reported. *)
Theorem reported_leaves domains entry h r h' :
  entry_step domains entry h = Some (Append r, h') ->
  exists sent,
    entry_producer (Har.Request_ entry) h = Some (sent, h')
    /\ (forall kv,
          In kv (XSS r) <->
          In kv sent
          /\ Strings.Contains
               (fst (Base64.DecodeString (Har.Response_Content_Text entry)))
               (Value kv) = true)
    /\ (forall kv, In kv sent -> Value kv = EmptyString -> In kv (XSS r)).
Proof.
  intros E. apply entry_step_append in E as (_ & _ & sent & Ep & ->).
  exists sent. split; [exact Ep|]. cbn [XSS]. split.
  - intros kv. apply filter_In.
  - intros kv Hin Hv. apply filter_In. split; [exact Hin|].
    rewrite Hv. apply Contains_empty.
Qed.

(** C6, amended.  A result carries the method of the entry and the URL of
    the entry as the archive has it, query included, together with the
    leaves that passed the filter. *)
Theorem result_fields domains entry h r h' :
  entry_step domains entry h = Some (Append r, h') ->
  Method r = Har.Method (Har.Request_ entry)
  /\ URL r = Har.URL (Har.Request_ entry)
  /\ exists sent,
       entry_producer (Har.Request_ entry) h = Some (sent, h')
       /\ XSS r = List.filter
                    (fun kv => Strings.Contains
                                 (fst (Base64.DecodeString
                                         (Har.Response_Content_Text entry)))
                                 (Value kv))
                    sent.
Proof.
  intros E. apply entry_step_append in E as (_ & _ & sent & Ep & ->).
  repeat split. exists sent. split; [exact Ep | reflexivity].
Qed.

Lemma host_filter_in domains url u :
  0 < length domains -> url_Parse url = inl u ->
  host_filter domains url
  = Some (if In_dec string_dec (URL.Host u) domains then true else false).
Proof.
  intros L E. unfold Correlate.host_filter. rewrite E.
  destruct (Nat.ltb_spec 0 (length domains)); [|lia]. f_equal.
  destruct (In_dec string_dec (URL.Host u) domains) as [Hin|Hn].
  - apply existsb_exists. exists (URL.Host u). split; [exact Hin|].
    apply String.eqb_refl.
  - apply not_true_is_false. intros Hx. apply existsb_exists in Hx as (d & Hd & He).
    apply String.eqb_eq in He. subst d. contradiction.
Qed.

Lemma entry_step_continue domains entry h u :
  0 < length domains ->
  url_Parse (Har.URL (Har.Request_ entry)) = inl u ->
  ~ In (URL.Host u) domains ->
  entry_step domains entry h = Some (Continue, h).
Proof.
  intros L E Hn. unfold Correlate.entry_step.
  rewrite (host_filter_in domains _ u L E).
  destruct (In_dec string_dec (URL.Host u) domains); [contradiction | reflexivity].
Qed.

(** C10.  With a non-empty allow-list an entry is passed over exactly when
    the host of its parsed URL, port included, is equal to no element of the
    list: with a port, or with another case, it is passed over. *)
Theorem host_compared_exactly domains entry h u :
  0 < length domains ->
  url_Parse (Har.URL (Har.Request_ entry)) = inl u ->
  (entry_step domains entry h = Some (Continue, h)
   <-> ~ In (URL.Host u) domains)
  /\ (URL.Host u = "example.com:8080" ->
      entry_step ["example.com"] entry h = Some (Continue, h))
  /\ (URL.Host u = "Example.com" ->
      entry_step ["example.com"] entry h = Some (Continue, h)).
Proof.
  intros L E.
  assert (K : forall ds, 0 < length ds -> ~ In (URL.Host u) ds ->
                         entry_step ds entry h = Some (Continue, h)).
  { intros ds Lds Hn. now apply (entry_step_continue ds entry h u). }
  split; [split|split].
  - intros Es Hin. unfold Correlate.entry_step in Es.
    rewrite (host_filter_in domains _ u L E) in Es.
    destruct (In_dec string_dec (URL.Host u) domains); [|contradiction].
    destruct (Base64.DecodeString _) as [respBody err].
    destruct err; [discriminate|].
    destruct (entry_producer _ h) as [[sent h1]|]; discriminate.
  - apply K, L.
  - intros Hh. apply K; [simpl; lia|]. rewrite Hh. intros [H|[]]. discriminate H.
  - intros Hh. apply K; [simpl; lia|]. rewrite Hh. intros [H|[]]. discriminate H.
Qed.

Hypothesis map_order_perm : forall m, Permutation (map_order m) m.

Lemma entry_producer_total r h : is_Some (entry_producer r h).
Proof.
  unfold Correlate.entry_producer.
  repeat apply andThen_total.
  - apply for_each_total. intros p _ h0. destruct (literal _ h0).
    now apply search_total.
  - apply for_each_total. intros p _ h0. destruct (literal _ h0).
    now apply search_total.
  - intros h0. destruct (literal _ h0). now apply search_total.
Qed.

(** C7, amended.  With a non-empty allow-list, an entry whose host is not
    in the list gives no result, and one whose URL does not parse ends the
    run.  With an empty allow-list an entry gives a result when its response
    text is valid base64; when it is not, the run panics and nothing is
    printed. *)
Theorem host_filter_results domains entry h :
  (0 < length domains ->
   forall u, url_Parse (Har.URL (Har.Request_ entry)) = inl u ->
             ~ In (URL.Host u) domains ->
             entry_step domains entry h = Some (Continue, h))
  /\ (0 < length domains ->
      forall err, url_Parse (Har.URL (Har.Request_ entry)) = inr err ->
                  entry_step domains entry h = Some (Panic, h))
  /\ (snd (Base64.DecodeString (Har.Response_Content_Text entry)) = false ->
      exists r h', entry_step [] entry h = Some (Append r, h'))
  /\ (snd (Base64.DecodeString (Har.Response_Content_Text entry)) = true ->
      entry_step [] entry h = Some (Panic, h)
      /\ forall flag entries1 entries2,
           Strings.Fields flag = [] ->
           (exists results h1, entries_loop [] entries1 [] [] = Some (Some results, h1)) ->
           main flag (Some (entries1 ++ entry :: entries2)) = Some Panicked).
Proof.
  split; [|split; [|split]].
  - intros L u E Hn. now apply (entry_step_continue domains entry h u).
  - intros L err E. unfold Correlate.entry_step, Correlate.host_filter.
    rewrite E. destruct (Nat.ltb_spec 0 (length domains)); [reflexivity | lia].
  - intros D. unfold Correlate.entry_step. cbn [Correlate.host_filter length Nat.ltb Nat.leb].
    destruct (Base64.DecodeString _) as [respBody err]. cbn [snd] in D. subst err.
    destruct (entry_producer_total (Har.Request_ entry) h) as [[sent h1] ->].
    eauto.
  - intros D.
    assert (P : forall h0, entry_step [] entry h0 = Some (Panic, h0)).
    { intros h0. unfold Correlate.entry_step.
      cbn [Correlate.host_filter length Nat.ltb Nat.leb].
      destruct (Base64.DecodeString _) as [respBody err]. cbn [snd] in D.
      now subst err. }
    split; [apply P|].
    intros flag entries1 entries2 F (results & h1 & E1).
    unfold Correlate.main. rewrite F.
    assert (G : forall es acc h0 res h2,
               entries_loop [] es acc h0 = Some (Some res, h2) ->
               entries_loop [] (es ++ entry :: entries2) acc h0 = Some (None, h2)).
    { induction es as [|e es IH]; intros acc h0 res h2; cbn [app Correlate.entries_loop].
      - intros [= <- <-]. now rewrite P.
      - destruct (entry_step [] e h0) as [[[| |r] h3]|]; try discriminate; eauto. }
    now rewrite (G _ _ _ _ _ E1).
Qed.

End CorrelationClaims.

Lemma reported_leaves_witness :
  exists r h',
    Correlate.entry_step Sample.growcap Sample.map_order Sample.url_Parse []
      (Har.mkEntry (Har.mkRequest "GET" "http://example.com/s?q=hi"
                      [Har.mkNameValue "q" "hi"] [] EmptyString) "aGkgdGhlcmU=")
      [] = Some (Correlate.Append r, h')
    /\ forall kv, In kv (Correlate.XSS r) ->
                  Strings.Contains "hi there" (Correlate.Value kv) = true.
Proof.
  eexists _, _. split; [vm_compute; reflexivity|].
  intros kv Hin.
  destruct (reported_leaves Sample.growcap Sample.map_order Sample.url_Parse []
              (Har.mkEntry (Har.mkRequest "GET" "http://example.com/s?q=hi"
                              [Har.mkNameValue "q" "hi"] [] EmptyString)
                           "aGkgdGhlcmU=")
              [] _ _ eq_refl) as (sent & _ & Hiff & _).
  exact (proj2 (proj1 (Hiff kv) Hin)).
Defined.

(** The claim C5 as stated fails: for a query parameter with the empty
    value and a response body that decodes to the text hi, the result lists
    the leaf with the empty value (and the empty body leaf as well). *)
Lemma reported_leaves_counterexample :
  Base64.DecodeString "aGk=" = ("hi", false)
  /\ Correlate.main Sample.growcap Sample.map_order Sample.url_Parse
       EmptyString
       (Some [Har.mkEntry (Har.mkRequest "GET" "http://example.com/s?q="
                             [Har.mkNameValue "q" EmptyString] [] EmptyString)
                          "aGk="])
     = Some (Correlate.Printed
               [Correlate.mkResultJSON "GET" "http://example.com/s?q="
                  [(["query"; "q"], EmptyString); (["body"], EmptyString)]]).
Proof. split; vm_compute; reflexivity. Qed.

Lemma result_fields_witness :
  exists r h',
    Correlate.entry_step Sample.growcap Sample.map_order Sample.url_Parse []
      (Har.mkEntry (Har.mkRequest "GET" "http://example.com/s?q=hi"
                      [Har.mkNameValue "q" "hi"] [] EmptyString) "aGkgdGhlcmU=")
      [] = Some (Correlate.Append r, h')
    /\ Correlate.Method r = "GET"
    /\ Correlate.URL r = "http://example.com/s?q=hi".
Proof.
  eexists _, _. split; [vm_compute; reflexivity|].
  destruct (result_fields Sample.growcap Sample.map_order Sample.url_Parse []
              (Har.mkEntry (Har.mkRequest "GET" "http://example.com/s?q=hi"
                              [Har.mkNameValue "q" "hi"] [] EmptyString)
                           "aGkgdGhlcmU=")
              [] _ _ eq_refl) as (M & U & _).
  split; [exact M | exact U].
Defined.

(** The claim C6 as stated fails: the URL of the result is the URL of the
    entry with its query, not the URL that [makeRequest] of the dump tool
    would print. *)
Lemma result_fields_counterexample :
  Dump.strip_query Sample.url_Parse Sample.url_String
    "http://example.com/s?q=hi" = Some "http://example.com/s"
  /\ Correlate.main Sample.growcap Sample.map_order Sample.url_Parse
       EmptyString
       (Some [Har.mkEntry (Har.mkRequest "GET" "http://example.com/s?q=hi"
                             [Har.mkNameValue "q" "hi"] [] "x")
                          "aGkgdGhlcmU="])
     = Some (Correlate.Printed
               [Correlate.mkResultJSON "GET" "http://example.com/s?q=hi"
                  [(["query"; "q"], "hi")]]).
Proof. split; vm_compute; reflexivity. Qed.

Lemma host_compared_exactly_witness :
  0 < length ["example.com"]
  /\ exists u,
       Sample.url_Parse "http://example.com:8080/s?q=hi" = inl u
       /\ URL.Host u = "example.com:8080"
       /\ Correlate.entry_step Sample.growcap Sample.map_order
            Sample.url_Parse ["example.com"]
            (Har.mkEntry (Har.mkRequest "GET" "http://example.com:8080/s?q=hi"
                            [Har.mkNameValue "q" "hi"] [] EmptyString)
                         "aGkgdGhlcmU=")
            [] = Some (Correlate.Continue, []).
Proof.
  split; [apply le_n|].
  eexists. split; [vm_compute; reflexivity|]. split; [reflexivity|].
  exact (proj1 (proj2 (host_compared_exactly Sample.growcap Sample.map_order
                         Sample.url_Parse ["example.com"]
                         (Har.mkEntry
                            (Har.mkRequest "GET" "http://example.com:8080/s?q=hi"
                               [Har.mkNameValue "q" "hi"] [] EmptyString)
                            "aGkgdGhlcmU=")
                         [] _ (le_n 1) eq_refl)) eq_refl).
Defined.

Lemma host_filter_results_witness :
  (exists r h',
      Correlate.entry_step Sample.growcap Sample.map_order Sample.url_Parse []
        (Har.mkEntry (Har.mkRequest "GET" "http://other.com/"
                        [Har.mkNameValue "q" "hi"] [] EmptyString) "aGk=")
        [] = Some (Correlate.Append r, h'))
  /\ Correlate.entry_step Sample.growcap Sample.map_order Sample.url_Parse
       ["example.com"]
       (Har.mkEntry (Har.mkRequest "GET" "http://other.com/"
                       [Har.mkNameValue "q" "hi"] [] EmptyString) "aGk=")
       [] = Some (Correlate.Continue, []).
Proof.
  destruct (host_filter_results Sample.growcap Sample.map_order
              Sample.url_Parse sample_perm ["example.com"]
              (Har.mkEntry (Har.mkRequest "GET" "http://other.com/"
                              [Har.mkNameValue "q" "hi"] [] EmptyString) "aGk=")
              []) as (A & _ & C & _).
  split.
  - exact (C eq_refl).
  - apply (A (le_n 1) _ eq_refl). intros [H|[]]. discriminate H.
Defined.

(** The claim C7 as stated fails: with an empty allow-list, an entry whose
    response text is not base64 gives no result; the run panics and prints
    nothing, not even the result of the entry before it. *)
Lemma host_filter_results_counterexample :
  Strings.Fields EmptyString = []
  /\ snd (Base64.DecodeString "<html>") = true
  /\ Correlate.main Sample.growcap Sample.map_order Sample.url_Parse
       EmptyString
       (Some [Har.mkEntry (Har.mkRequest "GET" "http://example.com/a"
                             [Har.mkNameValue "q" "hi"] [] EmptyString) "aGk=";
              Har.mkEntry (Har.mkRequest "GET" "http://example.com/b"
                             [Har.mkNameValue "q" "hi"] [] EmptyString)
                          "<html>"])
     = Some Correlate.Panicked.
Proof. repeat split; vm_compute; reflexivity. Qed.

(** * The claim about the batch of the dump tool *)

Section BatchClaim.
Import Dump.

Variable json_Marshal : list string -> string.
Variable unicode_IsPrint : UTF8.rune -> bool.
Variable map_order : list (string * string) -> list (string * string).
Variable url_Parse : string -> URL.URL + string.
Variable url_String : URL.URL -> string.

Local Abbreviation print_entry :=
  (Dump.print_entry json_Marshal unicode_IsPrint map_order url_Parse url_String).
Local Abbreviation print_entries :=
  (Dump.print_entries json_Marshal unicode_IsPrint map_order url_Parse
     url_String).
Local Abbreviation print :=
  (Dump.print json_Marshal unicode_IsPrint map_order url_Parse url_String).
Local Abbreviation files_loop :=
  (Dump.files_loop json_Marshal unicode_IsPrint map_order url_Parse url_String).





End BatchClaim.



(** * Further properties of the decoders *)

Section ProducerInversion.
Import Slice Correlate.

Lemma andThen_inv (p q : producer) h sent h' :
  andThen p q h = Some (sent, h') ->
  exists s1 h1 s2, p h = Some (s1, h1) /\ q h1 = Some (s2, h')
                   /\ sent = s1 ++ s2.
Proof.
  unfold andThen. destruct (p h) as [[s1 h1]|]; [|discriminate].
  destruct (q h1) as [[s2 h2]|] eqn:E; [|discriminate].
  intros [= <- <-]. eauto 6.
Qed.

Lemma for_each_inv {A : Type} (f : A -> producer) l : forall h sent h',
  for_each f l h = Some (sent, h') ->
  forall x, In x l ->
  exists h0 s0 h1, f x h0 = Some (s0, h1) /\ incl s0 sent.
Proof.
  induction l as [|y l IH]; intros h sent h' E x Hin; [destruct Hin|].
  cbn [for_each] in E.
  destruct (f y h) as [[s1 h1]|] eqn:E1; [|discriminate].
  destruct (for_each f l h1) as [[s2 h2]|] eqn:E2; [|discriminate].
  injection E as <- <-. destruct Hin as [<-|Hin].
  - exists h, s1, h1. split; [exact E1|]. now apply incl_appl.
  - destruct (IH _ _ _ E2 x Hin) as (h0 & s0 & h3 & Ef & Hi).
    exists h0, s0, h3. split; [exact Ef|]. now apply incl_appr.
Qed.

Lemma in_indexed_lookup {A : Type} (l : list A) i x :
  l !! i = Some x -> In (i, x) (indexed l).
Proof.
  unfold indexed. intros H.
  assert (G : forall (l0 : list A) j k, l0 !! j = Some x ->
                In (k + j, x) (combine (seq k (length l0)) l0)).
  { induction l0 as [|y l0 IH]; intros j k Hj; [discriminate|].
    destruct j as [|j]; simpl in *.
    - injection Hj as ->. left. f_equal. lia.
    - right. replace (k + S j) with (S k + j) by lia. now apply IH. }
  now apply (G l i 0).
Qed.

End ProducerInversion.

Section InterpretationsSent.
Import Slice Correlate.

Variable growcap : nat -> nat.
Variable map_order : list (string * string) -> list (string * string).
Variable json_Marshal : list string -> string.
Variable unicode_IsPrint : UTF8.rune -> bool.
Hypothesis map_order_perm : forall m, Permutation (map_order m) m.

Local Abbreviation search := (Correlate.search growcap map_order).

Lemma search_sends_value key value h sent h' :
  search key value h = Some (sent, h') ->
  exists kv, In kv sent /\ Key kv = key /\ Value kv = value.
Proof.
  intros E.
  destruct (search_last growcap map_order map_order_perm key value h)
    as (s & h2 & E2).
  rewrite E in E2. injection E2 as -> ->.
  exists (mkKeyValue key value). split; [|split; reflexivity].
  apply in_app_iff. right. now left.
Qed.

(** The four branches of a call, taken apart. *)
Lemma search_branches key value h sent h' :
  search key value h = Some (sent, h') ->
  (forall valueMap kv,
      JSON.Unmarshal_map value = Some valueMap -> In kv valueMap ->
      exists h0 s0 h1,
        (let '(key', h0') := append growcap key (fst kv) h0 in
         search key' (snd kv) h0') = Some (s0, h1) /\ incl s0 sent)
  /\ (forall valueList i v,
        JSON.Unmarshal_list value = Some valueList -> valueList !! i = Some v ->
        exists h0 s0 h1,
          (let '(key', h0') := append growcap key (itoa i) h0 in
           search key' v h0') = Some (s0, h1) /\ incl s0 sent)
  /\ (forall valueString,
        JSON.Unmarshal_string value = Some valueString ->
        exists h0 s0 h1,
          search key valueString h0 = Some (s0, h1) /\ incl s0 sent)
  /\ (0 < String.length (fst (Base64.DecodeString value)) ->
      exists h0 s0 h1,
        search key (fst (Base64.DecodeString value)) h0 = Some (s0, h1)
        /\ incl s0 sent).
Proof.
  rewrite (search_unfold growcap map_order map_order_perm).
  unfold Correlate.search_body. intros E.
  apply andThen_inv in E as (s1 & h1 & r1 & E1 & E & ->).
  apply andThen_inv in E as (s2 & h2 & r2 & E2 & E & ->).
  apply andThen_inv in E as (s3 & h3 & r3 & E3 & E & ->).
  apply andThen_inv in E as (s4 & h4 & r4 & E4 & E & ->).
  repeat split.
  - intros valueMap kv Em Hin. rewrite Em in E1.
    apply (Permutation_in _ (Permutation_sym (map_order_perm _))) in Hin.
    destruct (for_each_inv _ _ _ _ _ E1 kv Hin) as (h0 & s0 & h5 & Ef & Hi).
    exists h0, s0, h5. split; [exact Ef|]. now apply incl_appl.
  - intros valueList i v El Hl. rewrite El in E2.
    apply in_indexed_lookup in Hl.
    destruct (for_each_inv _ _ _ _ _ E2 (i, v) Hl) as (h0 & s0 & h5 & Ef & Hi).
    exists h0, s0, h5. split; [exact Ef|].
    apply incl_appr. now apply incl_appl.
  - intros valueString Es. rewrite Es in E3.
    exists h2, s3, h3. split; [exact E3|].
    apply incl_appr, incl_appr. now apply incl_appl.
  - intros L. cbv zeta in E4.
    destruct (Nat.ltb_spec 0 (String.length (fst (Base64.DecodeString value))));
      [|lia].
    exists h3, s4, h4. split; [exact E4|].
    apply incl_appr, incl_appr, incl_appr. now apply incl_appl.
Qed.

(** Every value that [search] hands to a recursive call comes back as the
    value of a leaf: no interpretation that succeeded is lost. *)
Theorem interpretations_are_sent key value h sent h' :
  search key value h = Some (sent, h') ->
  forall v, In v (recursed value) ->
            exists kv, In kv sent /\ Value kv = v.
Proof.
  intros E v Hv.
  destruct (search_branches key value h sent h' E) as (B1 & B2 & B3 & B4).
  unfold recursed in Hv. rewrite !in_app_iff in Hv.
  destruct Hv as [H|[H|[H|H]]].
  - destruct (JSON.Unmarshal_map value) as [m|] eqn:Em; [|destruct H].
    apply in_map_iff in H as (kv0 & <- & Hin).
    destruct (B1 m kv0 eq_refl Hin) as (h0 & s0 & h1 & Ef & Hi).
    destruct (append growcap key (fst kv0) h0) as [key' h0'].
    destruct (search_sends_value _ _ _ _ _ Ef) as (kv & Hk & _ & Hv).
    exists kv. split; [now apply Hi | exact Hv].
  - destruct (JSON.Unmarshal_list value) as [l|] eqn:El; [|destruct H].
    apply list_elem_of_In, list_elem_of_lookup in H as [i Hi0].
    destruct (B2 l i v eq_refl Hi0) as (h0 & s0 & h1 & Ef & Hi).
    destruct (append growcap key (itoa i) h0) as [key' h0'].
    destruct (search_sends_value _ _ _ _ _ Ef) as (kv & Hk & _ & Hv).
    exists kv. split; [now apply Hi | exact Hv].
  - destruct (JSON.Unmarshal_string value) as [s|] eqn:Es; [|destruct H].
    destruct H as [<-|[]].
    destruct (B3 s eq_refl) as (h0 & s0 & h1 & Ef & Hi).
    destruct (search_sends_value _ _ _ _ _ Ef) as (kv & Hk & _ & Hv).
    exists kv. split; [now apply Hi | exact Hv].
  - cbv zeta in H.
    destruct (Nat.ltb_spec 0 (String.length (fst (Base64.DecodeString value))))
      as [L|L]; [|destruct H].
    destruct H as [<-|[]].
    destruct (B4 L) as (h0 & s0 & h1 & Ef & Hi).
    destruct (search_sends_value _ _ _ _ _ Ef) as (kv & Hk & _ & Hv).
    exists kv. split; [now apply Hi | exact Hv].
Qed.

Local Abbreviation printParam_fuel :=
  (Dump.printParam_fuel json_Marshal unicode_IsPrint map_order).
Local Abbreviation printParamRecurse_fuel :=
  (Dump.printParamRecurse_fuel json_Marshal unicode_IsPrint map_order).

Lemma dump_for_each_inv {A : Type} (f : A -> option (list Dump.Block)) l :
  forall out, Dump.for_each f l = Some out ->
  forall b, In b out -> exists x o, In x l /\ f x = Some o /\ In b o.
Proof.
  induction l as [|x l IH]; intros out E b Hb; cbn [Dump.for_each] in E.
  - injection E as <-. destruct Hb.
  - destruct (f x) as [o1|] eqn:E1; [|discriminate].
    destruct (Dump.for_each f l) as [o2|] eqn:E2; [|discriminate].
    injection E as <-. apply in_app_or in Hb as [Hb|Hb].
    + exists x, o1. repeat split; auto. now left.
    + destruct (IH _ eq_refl b Hb) as (y & o & Hy & Ey & Ho).
      exists y, o. repeat split; auto. now right.
Qed.

Lemma dump_values_fuel n :
  (forall k value request out,
      printParam_fuel n k value request = Some out ->
      forall key h sent h', search key value h = Some (sent, h') ->
      forall b, In b out -> exists kv, In kv sent /\ Value kv = Dump.value b)
  /\ (forall k value request out,
        printParamRecurse_fuel n k value request = Some out ->
        forall key h sent h', search key value h = Some (sent, h') ->
        forall b, In b out -> exists kv, In kv sent /\ Value kv = Dump.value b).
Proof.
  induction n as [|n [IHp IHr]]; split; intros k value request out E;
    try discriminate E; intros key h sent h' Es b Hb.
  - change (option_map (cons (Dump.mkBlock k value request))
                       (printParamRecurse_fuel n k value request) = Some out) in E.
    destruct (printParamRecurse_fuel n k value request) as [o|] eqn:Er;
      [|discriminate].
    injection E as <-. destruct Hb as [<-|Hb].
    + destruct (search_sends_value _ _ _ _ _ Es) as (kv & Hk & _ & Hv).
      exists kv. split; [exact Hk | exact Hv].
    + eapply IHr; eauto.
  - destruct (search_branches key value h sent h' Es) as (B1 & B2 & B3 & B4).
    cbn [Dump.printParamRecurse_fuel] in E.
    destruct (JSON.Unmarshal_map value) as [m|] eqn:Em.
    { destruct (dump_for_each_inv _ _ _ E b Hb) as (kv0 & o & Hin & Eo & Ho).
      apply (Permutation_in _ (map_order_perm _)) in Hin.
      destruct (B1 m kv0 eq_refl Hin) as (h0 & s0 & h1 & Ef & Hi).
      destruct (append growcap key (fst kv0) h0) as [key' h0'].
      destruct (IHp _ _ _ _ Eo _ _ _ _ Ef b Ho) as (kv & Hk & Hv).
      exists kv. split; [now apply Hi | exact Hv]. }
    destruct (JSON.Unmarshal_list value) as [l|] eqn:El.
    { destruct (dump_for_each_inv _ _ _ E b Hb) as (v & o & Hin & Eo & Ho).
      apply list_elem_of_In, list_elem_of_lookup in Hin as [i Hi0].
      destruct (B2 l i v eq_refl Hi0) as (h0 & s0 & h1 & Ef & Hi).
      destruct (append growcap key (itoa i) h0) as [key' h0'].
      destruct (IHp _ _ _ _ Eo _ _ _ _ Ef b Ho) as (kv & Hk & Hv).
      exists kv. split; [now apply Hi | exact Hv]. }
    destruct (JSON.Unmarshal_string value) as [s|] eqn:Estr.
    { destruct (B3 s eq_refl) as (h0 & s0 & h1 & Ef & Hi).
      destruct (IHr _ _ _ _ E _ _ _ _ Ef b Hb) as (kv & Hk & Hv).
      exists kv. split; [now apply Hi | exact Hv]. }
    destruct (Base64.DecodeString value) as [bytes err]. cbn [fst] in B4.
    destruct (negb err); [|injection E as <-; destruct Hb]. cbn [andb] in E.
    destruct (Nat.ltb_spec 0 (String.length bytes)) as [L|L];
      [|injection E as <-; destruct Hb].
    cbn [andb] in E.
    destruct (Dump.isPrint unicode_IsPrint bytes);
      [|injection E as <-; destruct Hb].
    destruct (B4 L) as (h0 & s0 & h1 & Ef & Hi).
    destruct (IHp _ _ _ _ E _ _ _ _ Ef b Hb) as (kv & Hk & Hv).
    exists kv. split; [now apply Hi | exact Hv].
Qed.

(** Whatever value the dump tool prints for a parameter, the correlation
    tool sends a leaf with that value for the same parameter: the branches
    of [printParamRecurse] are a restriction of those of [search]. *)
Theorem dump_values_are_searched k value request out key h sent h' :
  Dump.printParam json_Marshal unicode_IsPrint map_order k value request
  = Some out ->
  search key value h = Some (sent, h') ->
  forall b, In b out -> exists kv, In kv sent /\ Value kv = Dump.value b.
Proof.
  intros E. eapply (proj1 (dump_values_fuel _)). exact E.
Qed.

End InterpretationsSent.

(** * Further properties of the dump tool *)

Section DumpBlocks.
Import Dump.

Variable json_Marshal : list string -> string.
Variable unicode_IsPrint : UTF8.rune -> bool.
Variable map_order : list (string * string) -> list (string * string).
Variable url_Parse : string -> URL.URL + string.
Variable url_String : URL.URL -> string.

Local Abbreviation printParam_fuel :=
  (Dump.printParam_fuel json_Marshal unicode_IsPrint map_order).
Local Abbreviation printParamRecurse_fuel :=
  (Dump.printParamRecurse_fuel json_Marshal unicode_IsPrint map_order).
Local Abbreviation printParam :=
  (Dump.printParam json_Marshal unicode_IsPrint map_order).
Local Abbreviation printParamRecurse :=
  (Dump.printParamRecurse json_Marshal unicode_IsPrint map_order).
Local Abbreviation print_entry :=
  (Dump.print_entry json_Marshal unicode_IsPrint map_order url_Parse url_String).
Local Abbreviation print_entries :=
  (Dump.print_entries json_Marshal unicode_IsPrint map_order url_Parse
     url_String).
Local Abbreviation files_loop :=
  (Dump.files_loop json_Marshal unicode_IsPrint map_order url_Parse url_String).

Lemma string_app_assoc (a b c : string) : (a +:+ b) +:+ c = a +:+ (b +:+ c).
Proof.
  induction a as [|x a IH]; [reflexivity|].
  change (String x ((a +:+ b) +:+ c) = String x (a +:+ (b +:+ c))).
  now rewrite IH.
Qed.

Lemma string_app_empty (a : string) : a +:+ EmptyString = a.
Proof.
  induction a as [|x a IH]; [reflexivity|].
  change (String x (a +:+ EmptyString) = String x a). now rewrite IH.
Qed.

Lemma blocks_fuel n :
  (forall k value req out,
      printParam_fuel n k value req = Some out ->
      forall b, In b out ->
                request b = req /\ exists suffix, key b = k +:+ suffix)
  /\ (forall k value req out,
        printParamRecurse_fuel n k value req = Some out ->
        forall b, In b out ->
                  request b = req /\ exists suffix, key b = k +:+ suffix).
Proof.
  induction n as [|n [IHp IHr]]; split; intros k value req out E;
    try discriminate E; intros b Hb.
  - change (option_map (cons (mkBlock k value req))
                       (printParamRecurse_fuel n k value req) = Some out) in E.
    destruct (printParamRecurse_fuel n k value req) as [o|] eqn:Er;
      [|discriminate].
    injection E as <-. destruct Hb as [<-|Hb].
    + split; [reflexivity|]. exists EmptyString. cbn [key].
      now rewrite string_app_empty.
    + eapply IHr; eauto.
  - cbn [Dump.printParamRecurse_fuel] in E.
    destruct (JSON.Unmarshal_map value) as [m|].
    { destruct (dump_for_each_inv _ _ _ E b Hb) as (kv0 & o & _ & Eo & Ho).
      destruct (IHp _ _ _ _ Eo b Ho) as (R & suffix & K).
      split; [exact R|]. unfold makeKey in K.
      exists (json_Marshal [fst kv0] +:+ suffix).
      now rewrite K, string_app_assoc. }
    destruct (JSON.Unmarshal_list value) as [l|].
    { destruct (dump_for_each_inv _ _ _ E b Hb) as (v & o & _ & Eo & Ho).
      destruct (IHp _ _ _ _ Eo b Ho) as (R & suffix & K).
      split; [exact R|]. exists ("[]" +:+ suffix).
      now rewrite K, string_app_assoc. }
    destruct (JSON.Unmarshal_string value) as [s|]; [eapply IHr; eauto|].
    destruct (Base64.DecodeString value) as [bytes err].
    destruct (negb err && (0 <? String.length bytes)
              && isPrint unicode_IsPrint bytes);
      [eapply IHp; eauto | injection E as <-; destruct Hb].
Qed.

(** Every block that the dump tool prints for an entry names the request
    in the same way, the method and the URL without its query, and has a key
    that starts with the source of the parameter: the decoder only appends
    to the key it is given. *)
Theorem entry_blocks prefix r o :
  print_entry prefix r = Some o ->
  panicked o = false ->
  exists u,
    url_Parse (Har.URL r) = inl u
    /\ forall b, In b (stdout o) ->
         request b = Har.Method r +:+ " "
                     +:+ url_String (URL.set_RawQuery u EmptyString)
         /\ exists suffix,
              key b = "query" +:+ suffix \/ key b = "form" +:+ suffix
              \/ key b = "body" +:+ suffix.
Proof.
  unfold Dump.print_entry, Dump.makeRequest.
  destruct (url_Parse (Har.URL r)) as [u|err]; [|intros [= <-]; discriminate].
  destruct (for_each _ (Har.QueryString r)) as [out1|] eqn:E1; [|discriminate].
  destruct (for_each _ (Har.PostData_Params r)) as [out2|] eqn:E2;
    [|discriminate].
  destruct (Dump.printParamRecurse _ _ _ _ _ _) as [out3|] eqn:E3;
    [|discriminate].
  intros [= <-] _. exists u. split; [reflexivity|].
  cbn [stdout quiet]. intros b Hb.
  apply in_app_or in Hb as [Hb|Hb]; [|apply in_app_or in Hb as [Hb|Hb]].
  - destruct (dump_for_each_inv _ _ _ E1 b Hb) as (p & o & _ & Eo & Ho).
    destruct (proj1 (blocks_fuel _) _ _ _ _ Eo b Ho) as (R & suffix & K).
    split; [exact R|]. unfold makeKey in K.
    exists (json_Marshal [Har.Name p] +:+ suffix). left.
    now rewrite K, string_app_assoc.
  - destruct (dump_for_each_inv _ _ _ E2 b Hb) as (p & o & _ & Eo & Ho).
    destruct (proj1 (blocks_fuel _) _ _ _ _ Eo b Ho) as (R & suffix & K).
    split; [exact R|]. unfold makeKey in K.
    exists (json_Marshal [Har.Name p] +:+ suffix). right. left.
    now rewrite K, string_app_assoc.
  - destruct (proj2 (blocks_fuel _) _ _ _ _ E3 b Hb) as (R & suffix & K).
    split; [exact R|]. exists suffix. right. now right.
Qed.

Lemma and_then_quiet o : and_then (quiet []) (Some o) = Some o.
Proof. destruct o. reflexivity. Qed.

Lemma and_then_assoc o1 r2 r3 :
  match and_then o1 r2 with
  | Some o12 => and_then o12 r3
  | None => None
  end
  = and_then o1 (match r2 with
                 | Some o2 => and_then o2 r3
                 | None => None
                 end).
Proof.
  unfold and_then. destruct o1 as [s1 e1 p1]. cbn [panicked stdout stderr].
  destruct p1; [reflexivity|].
  destruct r2 as [[s2 e2 p2]|]; [|reflexivity].
  cbn [option_map panicked stdout stderr].
  destruct p2; [reflexivity|].
  destruct r3 as [[s3 e3 p3]|]; [|reflexivity].
  cbn [option_map panicked stdout stderr]. now rewrite !app_assoc.
Qed.

(** The files of the command line are processed in order, and a batch is
    the batch of its first files followed by the batch of the others, which
    runs only if the first did not panic. *)
Theorem files_loop_app args1 args2 :
  files_loop (args1 ++ args2)
  = match files_loop args1 with
    | Some o1 => and_then o1 (files_loop args2)
    | None => None
    end.
Proof.
  induction args1 as [|[fpath [err|reader]] args1 IH];
    cbn [app Dump.files_loop].
  - destruct (files_loop args2) as [o|]; [|reflexivity].
    symmetry. apply and_then_quiet.
  - reflexivity.
  - destruct (Dump.print _ _ _ _ _ reader (fpath +:+ ": ")) as [o|];
      [|reflexivity].
    rewrite IH. symmetry. apply and_then_assoc.
Qed.

Hypothesis map_order_perm : forall m, Permutation (map_order m) m.

Lemma print_entry_parsed prefix r u :
  url_Parse (Har.URL r) = inl u ->
  exists out, print_entry prefix r = Some (quiet out).
Proof.
  intros E. unfold Dump.print_entry, Dump.makeRequest. rewrite E.
  destruct (dump_for_each_total
              (fun p => printParam (makeKey json_Marshal "query" (Har.Name p))
                          (Har.Value p)
                          (Har.Method r +:+ " "
                           +:+ url_String (URL.set_RawQuery u EmptyString)))
              (Har.QueryString r)) as [out1 ->].
  { intros p _. now apply printParam_total. }
  destruct (dump_for_each_total
              (fun p => printParam (makeKey json_Marshal "form" (Har.Name p))
                          (Har.Value p)
                          (Har.Method r +:+ " "
                           +:+ url_String (URL.set_RawQuery u EmptyString)))
              (Har.PostData_Params r)) as [out2 ->].
  { intros p _. now apply printParam_total. }
  destruct (printParamRecurse_total json_Marshal unicode_IsPrint map_order
              map_order_perm "body" (Har.PostData_Text r)
              (Har.Method r +:+ " "
               +:+ url_String (URL.set_RawQuery u EmptyString))) as [out3 ->].
  cbn [option_map]. eauto.
Qed.

Lemma dump_for_each_sub {A : Type} (f : A -> option (list Block)) l :
  forall out, for_each f l = Some out ->
  forall x, In x l -> exists o, f x = Some o /\ incl o out.
Proof.
  induction l as [|y l IH]; intros out E x Hx; [destruct Hx|].
  cbn [Dump.for_each] in E.
  destruct (f y) as [o1|] eqn:E1; [|discriminate].
  destruct (for_each f l) as [o2|] eqn:E2; [|discriminate].
  injection E as <-. destruct Hx as [<-|Hx].
  - exists o1. split; [exact E1 | now apply incl_appl].
  - destruct (IH _ eq_refl x Hx) as (o & Eo & Ho).
    exists o. split; [exact Eo | now apply incl_appr].
Qed.

(** The blocks of the parameters themselves are among those of an entry
    whose URL parses. *)
Lemma print_entry_params prefix r u out :
  url_Parse (Har.URL r) = inl u ->
  print_entry prefix r = Some (quiet out) ->
  (forall p, In p (Har.QueryString r) ->
     In (mkBlock (makeKey json_Marshal "query" (Har.Name p)) (Har.Value p)
                 (Har.Method r +:+ " "
                  +:+ url_String (URL.set_RawQuery u EmptyString))) out)
  /\ (forall p, In p (Har.PostData_Params r) ->
        In (mkBlock (makeKey json_Marshal "form" (Har.Name p)) (Har.Value p)
                    (Har.Method r +:+ " "
                     +:+ url_String (URL.set_RawQuery u EmptyString))) out).
Proof.
  intros Eu. unfold Dump.print_entry, Dump.makeRequest. rewrite Eu.
  destruct (for_each _ (Har.QueryString r)) as [out1|] eqn:E1; [|discriminate].
  destruct (for_each _ (Har.PostData_Params r)) as [out2|] eqn:E2;
    [|discriminate].
  destruct (printParamRecurse _ _ _) as [out3|]; [|discriminate].
  cbn [option_map]. intros [= <-]. split; intros p Hp.
  - destruct (dump_for_each_sub _ _ _ E1 p Hp) as (o & Eo & Ho).
    apply in_or_app. left. apply Ho.
    rewrite (printParam_unfold json_Marshal unicode_IsPrint map_order
               map_order_perm) in Eo.
    destruct (printParamRecurse _ _ _) as [o'|]; [|discriminate].
    injection Eo as <-. now left.
  - destruct (dump_for_each_sub _ _ _ E2 p Hp) as (o & Eo & Ho).
    apply in_or_app. right. apply in_or_app. left. apply Ho.
    rewrite (printParam_unfold json_Marshal unicode_IsPrint map_order
               map_order_perm) in Eo.
    destruct (printParamRecurse _ _ _) as [o'|]; [|discriminate].
    injection Eo as <-. now left.
Qed.

(** [print] on an archive that decoded, up to the first request URL that
    does not parse.  The entries whose URLs parse are printed one after the
    other and nothing is written to standard error: the output holds, for
    every query and form parameter of every such entry, the block of its
    key, its value and the request of the entry.  If the URL of the next
    entry does not parse, the run is these blocks and then the panic: the
    error is logged once with the prefix, and the entries after it are not
    looked at. *)
Theorem print_entries_panic prefix before :
  Forall (fun entry => exists u,
            url_Parse (Har.URL (Har.Request_ entry)) = inl u) before ->
  exists outs,
    Forall2 (fun entry out =>
               print_entry prefix (Har.Request_ entry) = Some (quiet out))
            before outs
    /\ print_entries prefix before = Some (quiet (concat outs))
    /\ (forall entry u, In entry before ->
          url_Parse (Har.URL (Har.Request_ entry)) = inl u ->
          (forall p, In p (Har.QueryString (Har.Request_ entry)) ->
             In (mkBlock (makeKey json_Marshal "query" (Har.Name p))
                         (Har.Value p)
                         (Har.Method (Har.Request_ entry) +:+ " "
                          +:+ url_String (URL.set_RawQuery u EmptyString)))
                (concat outs))
          /\ (forall p, In p (Har.PostData_Params (Har.Request_ entry)) ->
                In (mkBlock (makeKey json_Marshal "form" (Har.Name p))
                            (Har.Value p)
                            (Har.Method (Har.Request_ entry) +:+ " "
                             +:+ url_String (URL.set_RawQuery u EmptyString)))
                   (concat outs)))
    /\ (forall entry after err,
          url_Parse (Har.URL (Har.Request_ entry)) = inr err ->
          print_entries prefix (before ++ entry :: after)
          = Some (mkOutput (concat outs) [prefix +:+ err] true)).
Proof.
  induction before as [|e before IH]; intros F.
  - exists []. split; [constructor|]. split; [reflexivity|].
    split; [intros entry u []|].
    intros entry after err E. cbn [app Dump.print_entries concat].
    unfold Dump.print_entry, Dump.makeRequest. rewrite E. reflexivity.
  - inversion F as [|? ? [u Eu] F']. subst.
    destruct (IH F') as (outs & F2 & Ep & Hin & Hpanic).
    destruct (print_entry_parsed prefix (Har.Request_ e) u Eu) as [o1 E1].
    exists (o1 :: outs). split; [now constructor|].
    split; [|split].
    + cbn [Dump.print_entries concat]. rewrite E1, Ep. reflexivity.
    + intros entry u' [<-|Hentry] Eu'; cbn [concat].
      * destruct (print_entry_params prefix (Har.Request_ e) u' o1 Eu' E1)
          as (Q & P).
        split; intros p Hp; apply in_or_app; left; auto.
      * destruct (Hin entry u' Hentry Eu') as (Q & P).
        split; intros p Hp; apply in_or_app; right; auto.
    + intros entry after err E.
      cbn [app Dump.print_entries concat]. rewrite E1.
      rewrite (Hpanic entry after err E). reflexivity.
Qed.

End DumpBlocks.

(** * Keys across parameters and entries *)

Section Allocation.
Import Slice Correlate.

Lemma leaf_at_kept h h' kv path value :
  leaf_at h kv path value ->
  length h <= length h' ->
  h' !! ptr (Key kv) = h !! ptr (Key kv) ->
  leaf_at h' kv path value.
Proof.
  intros (L & R & V) Hl E. unfold leaf_at, read in *.
  rewrite (array_lookup _ _ _ E). repeat split; auto. lia.
Qed.

Lemma allocates_andThen p q :
  allocates p -> allocates q -> allocates (andThen p q).
Proof.
  intros Ap Aq h sent h' E.
  apply andThen_inv in E as (s1 & h1 & s2 & E1 & E2 & ->).
  destruct (Ap _ _ _ E1) as (L1 & K1 & P1).
  destruct (Aq _ _ _ E2) as (L2 & K2 & P2).
  repeat split.
  - lia.
  - intros q0 Hq. rewrite K2 by lia. now apply K1.
  - intros kv Hin. apply in_app_or in Hin as [Hin|Hin]; [|now apply P2].
    specialize (P1 kv Hin). lia.
Qed.

Lemma allocates_for_each {A : Type} (f : A -> producer) l :
  (forall x, allocates (f x)) -> allocates (for_each f l).
Proof.
  intros Af. induction l as [|x l IH]; intros h sent h' E;
    cbn [for_each] in E.
  - injection E as <- <-. repeat split; auto. intros kv [].
  - destruct (f x h) as [[s1 h1]|] eqn:E1; [|discriminate].
    destruct (for_each f l h1) as [[s2 h2]|] eqn:E2; [|discriminate].
    injection E as <- <-.
    destruct (Af x _ _ _ E1) as (L1 & K1 & P1).
    destruct (IH _ _ _ E2) as (L2 & K2 & P2).
    repeat split.
    + lia.
    + intros q0 Hq. rewrite K2 by lia. now apply K1.
    + intros kv Hin. apply in_app_or in Hin as [Hin|Hin]; [|now apply P2].
      specialize (P1 kv Hin). lia.
Qed.

(** A producer that allocates keeps the leaves read before it. *)
Lemma allocates_keeps p h sent h' kv path value :
  allocates p -> p h = Some (sent, h') ->
  leaf_at h kv path value -> leaf_at h' kv path value.
Proof.
  intros Ap E La. destruct (Ap _ _ _ E) as (L & K & _).
  apply (leaf_at_kept h); auto. apply K. apply La.
Qed.

Lemma for_each_leaf {A : Type} (f : A -> producer)
  (path : A -> list string) (val : A -> string) l :
  (forall x, allocates (f x)) ->
  (forall x h0 s0 h1, f x h0 = Some (s0, h1) ->
     exists kv, In kv s0 /\ leaf_at h1 kv (path x) (val x)) ->
  forall h sent h', for_each f l h = Some (sent, h') ->
  forall x, In x l -> exists kv, In kv sent /\ leaf_at h' kv (path x) (val x).
Proof.
  intros Af Lf. induction l as [|y l IH]; intros h sent h' E x Hin;
    [destruct Hin|].
  cbn [for_each] in E.
  destruct (f y h) as [[s1 h1]|] eqn:E1; [|discriminate].
  destruct (for_each f l h1) as [[s2 h2]|] eqn:E2; [|discriminate].
  injection E as <- <-. destruct Hin as [<-|Hin].
  - destruct (Lf _ _ _ _ E1) as (kv & Hk & La).
    exists kv. split; [apply in_app_iff; now left|].
    eapply allocates_keeps; [apply (allocates_for_each f l Af) | exact E2 | exact La].
  - destruct (IH _ _ _ E2 x Hin) as (kv & Hk & La).
    exists kv. split; [apply in_app_iff; now right | exact La].
Qed.

Variable growcap : nat -> nat.
Variable map_order : list (string * string) -> list (string * string).

Local Abbreviation search := (Correlate.search growcap map_order).

Lemma literal_wf l h : wf (snd (literal l h)) (fst (literal l h)).
Proof.
  unfold literal, wf. cbn [fst snd ptr len cap].
  rewrite array_new by reflexivity. rewrite length_app. simpl. lia.
Qed.

Lemma literal_read l h : read (snd (literal l h)) (fst (literal l h)) = l.
Proof.
  unfold literal, read. cbn [fst snd len].
  rewrite array_new by reflexivity. apply firstn_all.
Qed.

(** A search on a key made by a composite literal only allocates. *)
Lemma literal_search_allocates l value :
  allocates (fun h => let '(key, h') := literal l h in search key value h').
Proof.
  intros h sent h'' E.
  pose proof (literal_wf l h) as W.
  destruct (literal l h) as [key h'] eqn:El. cbn [fst snd] in W.
  pose proof (search_framed growcap map_order key value _ _ _ W E)
    as (F1 & F2 & _ & _ & F5).
  unfold literal in El. injection El as <- <-. cbn [ptr] in *.
  rewrite length_app in *. cbn [length] in *.
  repeat split.
  - lia.
  - intros q Hq. rewrite F2 by lia. now apply lookup_app_l.
  - intros kv Hin. now apply F5.
Qed.

Lemma entry_producer_allocates r :
  allocates (entry_producer growcap map_order r).
Proof.
  unfold entry_producer. repeat apply allocates_andThen.
  - apply allocates_for_each. intros p. apply literal_search_allocates.
  - apply allocates_for_each. intros p. apply literal_search_allocates.
  - apply literal_search_allocates.
Qed.

Hypothesis map_order_perm : forall m, Permutation (map_order m) m.

(** The pair given to a search on a literal key is sent under that key. *)
Lemma literal_search_leaf l value h sent h' :
  (let '(key, h0) := literal l h in search key value h0) = Some (sent, h') ->
  exists kv, In kv sent /\ leaf_at h' kv l value.
Proof.
  pose proof (literal_wf l h) as W. pose proof (literal_read l h) as R.
  destruct (literal l h) as [key h0] eqn:El. cbn [fst snd] in W, R.
  intros E.
  destruct (search_sends_value growcap map_order map_order_perm _ _ _ _ _ E)
    as (kv & Hin & Hk & Hv).
  exists kv. split; [exact Hin|].
  pose proof (search_framed growcap map_order key value _ _ _ W E)
    as (F1 & _ & F3 & _ & _).
  unfold leaf_at. rewrite Hk. repeat split; auto.
  - destruct W as (W1 & _). lia.
  - unfold read in *. now rewrite F3.
Qed.

(** Every parameter of a request, and its body, is sent under its own
    key, which still reads so when the producer of the entry is done. *)
Lemma entry_producer_leaves r h sent h' :
  entry_producer growcap map_order r h = Some (sent, h') ->
  (forall p, In p (Har.QueryString r) ->
     exists kv, In kv sent /\ leaf_at h' kv ["query"; Har.Name p] (Har.Value p))
  /\ (forall p, In p (Har.PostData_Params r) ->
        exists kv, In kv sent
                   /\ leaf_at h' kv ["form"; Har.Name p] (Har.Value p))
  /\ exists kv, In kv sent /\ leaf_at h' kv ["body"] (Har.PostData_Text r).
Proof.
  unfold entry_producer. intros E.
  apply andThen_inv in E as (s1 & h1 & r1 & E1 & E & ->).
  apply andThen_inv in E as (s2 & h2 & s3 & E2 & E3 & ->).
  assert (A2 : allocates
            (for_each (fun p h0 =>
                         let '(key, h0') := literal ["form"; Har.Name p] h0 in
                         search key (Har.Value p) h0')
                      (Har.PostData_Params r))).
  { apply allocates_for_each. intros p. apply literal_search_allocates. }
  pose proof (literal_search_allocates ["body"] (Har.PostData_Text r)) as A3.
  repeat split.
  - intros p Hp.
    destruct (for_each_leaf
                (fun p h0 => let '(key, h0') := literal ["query"; Har.Name p] h0 in
                             search key (Har.Value p) h0')
                (fun p => ["query"; Har.Name p]) Har.Value (Har.QueryString r)
                (fun p => literal_search_allocates _ _)
                (fun p h0 s0 h3 => literal_search_leaf _ _ h0 s0 h3)
                _ _ _ E1 p Hp) as (kv & Hk & La).
    exists kv. split; [apply in_app_iff; now left|].
    eapply allocates_keeps; [exact A3 | exact E3|].
    eapply allocates_keeps; [exact A2 | exact E2 | exact La].
  - intros p Hp.
    destruct (for_each_leaf
                (fun p h0 => let '(key, h0') := literal ["form"; Har.Name p] h0 in
                             search key (Har.Value p) h0')
                (fun p => ["form"; Har.Name p]) Har.Value (Har.PostData_Params r)
                (fun p => literal_search_allocates _ _)
                (fun p h0 s0 h3 => literal_search_leaf _ _ h0 s0 h3)
                _ _ _ E2 p Hp) as (kv & Hk & La).
    exists kv. split; [apply in_app_iff; right; apply in_app_iff; now left|].
    eapply allocates_keeps; [exact A3 | exact E3 | exact La].
  - destruct (literal_search_leaf _ _ _ _ _ E3) as (kv & Hk & La).
    exists kv. split; [|exact La].
    apply in_app_iff; right; apply in_app_iff; now right.
Qed.

End Allocation.

(** * The run of the correlation tool *)

Section CorrelationRun.
Import Slice Correlate.

Variable growcap : nat -> nat.
Variable map_order : list (string * string) -> list (string * string).
Variable url_Parse : string -> URL.URL + string.
Hypothesis map_order_perm : forall m, Permutation (map_order m) m.

Local Abbreviation entry_producer :=
  (Correlate.entry_producer growcap map_order).
Local Abbreviation host_filter := (Correlate.host_filter url_Parse).
Local Abbreviation entry_step :=
  (Correlate.entry_step growcap map_order url_Parse).
Local Abbreviation entries_loop :=
  (Correlate.entries_loop growcap map_order url_Parse).
Local Abbreviation main := (Correlate.main growcap map_order url_Parse).

Lemma entry_step_heap domains entry h fl h' :
  entry_step domains entry h = Some (fl, h') ->
  length h <= length h' /\ forall q, q < length h -> h' !! q = h !! q.
Proof.
  unfold Correlate.entry_step.
  destruct (host_filter domains _) as [[|]|]; try (intros [= <- <-]; auto).
  destruct (Base64.DecodeString _) as [body err].
  destruct err; [intros [= <- <-]; auto|].
  destruct (entry_producer _ h) as [[sent h1]|] eqn:E; [|discriminate].
  intros [= <- <-].
  destruct (entry_producer_allocates growcap map_order _ _ _ _ E) as (L & K & _).
  auto.
Qed.

(** What a run that did not panic has appended, and that the heap at the
    end still holds the arrays of every result as they were when the result
    was appended. *)
Lemma entries_loop_spec domains entries : forall acc h results hf,
  entries_loop domains entries acc h = Some (Some results, hf) ->
  length h <= length hf
  /\ (forall q, q < length h -> hf !! q = h !! q)
  /\ exists new,
       results = acc ++ new
       /\ Forall2 (fun entry r =>
                     exists h1 h2,
                       entry_step domains entry h1 = Some (Append r, h2)
                       /\ length h2 <= length hf
                       /\ forall q, q < length h2 -> hf !! q = h2 !! q)
                  (List.filter
                     (fun entry =>
                        match host_filter domains
                                (Har.URL (Har.Request_ entry)) with
                        | Some true => true
                        | _ => false
                        end) entries)
                  new.
Proof.
  induction entries as [|entry entries IH]; intros acc h results hf E;
    cbn [Correlate.entries_loop] in E.
  - injection E as <- <-. repeat split; auto.
    exists []. rewrite app_nil_r. split; [reflexivity | constructor].
  - destruct (entry_step domains entry h) as [[fl h1]|] eqn:Es; [|discriminate].
    destruct (entry_step_heap _ _ _ _ _ Es) as (L1 & K1).
    cbn [List.filter].
    destruct fl as [| |r]; [|discriminate|].
    + destruct (IH _ _ _ _ E) as (L2 & K2 & new & -> & F).
      assert (Hf : host_filter domains (Har.URL (Har.Request_ entry))
                   = Some false).
      { unfold Correlate.entry_step in Es.
        destruct (host_filter domains _) as [[|]|]; try discriminate; auto.
        destruct (Base64.DecodeString _) as [body err].
        destruct err; [discriminate|].
        destruct (entry_producer _ h) as [[sent h2]|]; discriminate. }
      rewrite Hf. repeat split.
      * lia.
      * intros q Hq. rewrite K2 by lia. now apply K1.
      * exists new. split; [reflexivity | exact F].
    + destruct (IH _ _ _ _ E) as (L2 & K2 & new & -> & F).
      destruct (entry_step_append _ _ _ _ _ _ _ _ Es) as (Hf & _).
      rewrite Hf. repeat split.
      * lia.
      * intros q Hq. rewrite K2 by lia. now apply K1.
      * exists (r :: new). split; [now rewrite <- app_assoc|].
        constructor; [|exact F]. exists h, h1. auto.
Qed.

(** End to end.  When the run prints its results, there is one result for
    each entry that passed the host filter, in the order of the archive,
    with the method and the URL of the entry; and every query parameter,
    form parameter or body of the entry whose value occurs in the decoded
    response body is listed there under the key of its source and name. *)
Theorem main_reports_reflection domainsFlag entries results :
  main domainsFlag (Some entries) = Some (Printed results) ->
  Forall2
    (fun entry res =>
       method res = Har.Method (Har.Request_ entry)
       /\ url res = Har.URL (Har.Request_ entry)
       /\ (forall p, In p (Har.QueryString (Har.Request_ entry)) ->
             Strings.Contains (respBody entry) (Har.Value p) = true ->
             In (["query"; Har.Name p], Har.Value p) (xss res))
       /\ (forall p, In p (Har.PostData_Params (Har.Request_ entry)) ->
             Strings.Contains (respBody entry) (Har.Value p) = true ->
             In (["form"; Har.Name p], Har.Value p) (xss res))
       /\ (Strings.Contains (respBody entry)
             (Har.PostData_Text (Har.Request_ entry)) = true ->
           In (["body"], Har.PostData_Text (Har.Request_ entry)) (xss res)))
    (List.filter
       (fun entry =>
          match host_filter (Strings.Fields domainsFlag)
                  (Har.URL (Har.Request_ entry)) with
          | Some true => true
          | _ => false
          end) entries)
    results.
Proof.
  unfold Correlate.main.
  destruct (entries_loop _ entries [] []) as [[[rs|] hf]|] eqn:E;
    try discriminate.
  intros [= <-].
  destruct (entries_loop_spec _ _ _ _ _ _ E) as (_ & _ & new & -> & F).
  cbn [app]. clear E. induction F as [|entry r es rs (h1 & h2 & Es & L & K) F IH];
    cbn [map]; constructor; [|exact IH].
  destruct (entry_step_append _ _ _ _ _ _ _ _ Es) as (_ & _ & sent & Ep & ->).
  cbn [encode_result Method URL XSS method url xss].
  assert (G : forall path value,
             (exists kv, In kv sent /\ leaf_at h2 kv path value) ->
             Strings.Contains (respBody entry) value = true ->
             In (path, value)
                (map (fun kv => (read hf (Key kv), Value kv))
                     (List.filter
                        (fun kv => Strings.Contains
                                     (fst (Base64.DecodeString
                                             (Har.Response_Content_Text entry)))
                                     (Value kv)) sent))).
  { intros path value (kv & Hin & (Lp & R & V)) C.
    apply in_map_iff. exists kv. split.
    - f_equal; [|exact V]. unfold read in *.
      rewrite (array_lookup h2 hf); [exact R|]. now apply K.
    - apply filter_In. split; [exact Hin|]. rewrite V. exact C. }
  destruct (entry_producer_leaves growcap map_order map_order_perm _ _ _ _ Ep)
    as (Q & Fm & B).
  repeat split; auto.
Qed.

(** Without an allow-list, and when every response text is valid base64,
    the run does not panic and prints one result per entry, in order. *)
Theorem main_without_filter domainsFlag entries :
  Strings.Fields domainsFlag = [] ->
  Forall (fun entry =>
            snd (Base64.DecodeString (Har.Response_Content_Text entry)) = false)
         entries ->
  exists results,
    main domainsFlag (Some entries) = Some (Printed results)
    /\ map method results = map (fun e => Har.Method (Har.Request_ e)) entries
    /\ map url results = map (fun e => Har.URL (Har.Request_ e)) entries.
Proof.
  intros Fd Fv. unfold Correlate.main. rewrite Fd.
  assert (G : forall es acc h,
             Forall (fun entry =>
                       snd (Base64.DecodeString
                              (Har.Response_Content_Text entry)) = false) es ->
             exists new hf,
               entries_loop [] es acc h = Some (Some (acc ++ new), hf)
               /\ map Method new = map (fun e => Har.Method (Har.Request_ e)) es
               /\ map URL new = map (fun e => Har.URL (Har.Request_ e)) es).
  { induction es as [|e es IH]; intros acc h F; cbn [Correlate.entries_loop].
    - exists [], h. rewrite app_nil_r. auto.
    - inversion F as [|? ? V F']. subst.
      unfold Correlate.entry_step at 1.
      cbn [Correlate.host_filter length Nat.ltb Nat.leb].
      destruct (Base64.DecodeString (Har.Response_Content_Text e))
        as [body err]. cbn [snd] in V. subst err.
      destruct (entry_producer_total growcap map_order map_order_perm
                  (Har.Request_ e) h) as [[sent h1] ->].
      destruct (IH (acc ++ [mkResult (Har.Method (Har.Request_ e))
                              (Har.URL (Har.Request_ e))
                              (List.filter
                                 (fun kv => Strings.Contains body (Value kv))
                                 sent)]) h1 F') as (new & hf & -> & M & U).
      eexists (_ :: new), hf. rewrite <- app_assoc. cbn [app map Method URL].
      repeat split; auto; now f_equal. }
  destruct (G entries [] [] Fv) as (new & hf & -> & M & U).
  cbn [app]. eexists. split; [reflexivity|].
  rewrite !map_map. cbn [encode_result method url]. auto.
Qed.

End CorrelationRun.

(** * The keys of the first level *)

Section FirstLevel.
Import Slice Correlate.

Variable growcap : nat -> nat.
Variable map_order : list (string * string) -> list (string * string).
Hypothesis map_order_perm : forall m, Permutation (map_order m) m.

Local Abbreviation search := (Correlate.search growcap map_order).

Lemma framed_keeps key (p : producer) h sent h' kv path value :
  framed key p -> wf h key -> p h = Some (sent, h') ->
  leaf_at h kv path value ->
  ptr (Key kv) <> ptr key \/ Key kv = key ->
  leaf_at h' kv path value.
Proof.
  intros F W E (L & R & V) D.
  destruct (F _ _ _ W E) as (F1 & F2 & F3 & _).
  unfold leaf_at. repeat split; auto; [lia|].
  destruct D as [D|D].
  - unfold read in *. rewrite (array_lookup h h'); [exact R|]. now apply F2.
  - rewrite D in *. unfold read in *. now rewrite F3.
Qed.

Lemma framed_state key (p : producer) h sent h' :
  framed key p -> wf h key -> p h = Some (sent, h') ->
  wf h' key /\ read h' key = read h key.
Proof.
  intros F W E. pose proof (F _ _ _ W E) as Fr. split.
  - eapply frames_wf; eauto.
  - apply Fr.
Qed.

Lemma for_each_framed_leaf {A : Type} key (f : A -> producer)
  (path : A -> list string) (val : A -> string) l R :
  (forall x, framed key (f x)) ->
  (forall x h0 s0 h1,
      wf h0 key -> read h0 key = R -> f x h0 = Some (s0, h1) ->
      exists kv, In kv s0 /\ leaf_at h1 kv (path x) (val x)
                 /\ ptr (Key kv) <> ptr key) ->
  forall h sent h',
    wf h key -> read h key = R -> for_each f l h = Some (sent, h') ->
    forall x, In x l ->
    exists kv, In kv sent /\ leaf_at h' kv (path x) (val x)
               /\ ptr (Key kv) <> ptr key.
Proof.
  intros Ff Lf. induction l as [|y l IH]; intros h sent h' W HR E x Hin;
    [destruct Hin|].
  cbn [for_each] in E.
  destruct (f y h) as [[s1 h1]|] eqn:E1; [|discriminate].
  destruct (for_each f l h1) as [[s2 h2]|] eqn:E2; [|discriminate].
  injection E as <- <-.
  destruct (framed_state key (f y) h s1 h1 (Ff y) W E1) as (W1 & R1).
  destruct Hin as [<-|Hin].
  - destruct (Lf _ _ _ _ W HR E1) as (kv & Hk & La & Hp).
    exists kv. split; [apply in_app_iff; now left|]. split; [|exact Hp].
    apply (framed_keeps key (for_each f l) h1 s2 h2); auto.
    now apply framed_for_each.
  - destruct (IH _ _ _ W1 (eq_trans R1 HR) E2 x Hin) as (kv & Hk & La).
    exists kv. split; [apply in_app_iff; now right | exact La].
Qed.

(** The child of a full slice gets an array of its own, and its pair is
    sent under the key extended by the segment. *)
Lemma child_leaf key x v h0 s0 h1 :
  wf h0 key -> len key = cap key ->
  (let '(key', h0') := append growcap key x h0 in search key' v h0')
  = Some (s0, h1) ->
  exists kv, In kv s0 /\ leaf_at h1 kv (read h0 key ++ [x]) v
             /\ ptr (Key kv) <> ptr key.
Proof.
  intros W Full. pose proof (append_wf growcap key x h0 W) as W'.
  assert (Nlt : (len key <? cap key) = false)
    by (apply Nat.ltb_ge; lia).
  unfold append in *. rewrite Nlt in *. cbn [fst snd] in W'.
  intros E.
  destruct (search_sends_value growcap map_order map_order_perm _ _ _ _ _ E)
    as (kv & Hin & Hk & Hv).
  exists kv. split; [exact Hin|].
  pose proof (search_framed growcap map_order _ v _ _ _ W' E)
    as (F1 & _ & F3 & _ & _).
  destruct W as (W1 & W2 & W3). rewrite length_app in F1. cbn [length] in F1.
  cbn [len] in F3. rewrite array_new in F3 by reflexivity.
  assert (Lr : length (read h0 key) = len key)
    by (unfold read; rewrite length_take; lia).
  rewrite take_app_ge in F3 by lia. rewrite Lr in F3.
  replace (S (len key) - len key) with 1 in F3 by lia.
  cbn [take] in F3.
  unfold leaf_at. rewrite Hk. cbn [ptr]. repeat split; auto.
  - lia.
  - lia.
Qed.

(** For a key that fills its array, as the keys that [main] builds do,
    every interpretation that succeeds leaves its pair among the leaves,
    under the path that the interpretation stands for: the key extended by
    the name of the member or by the index of the element, or the key itself
    for an unquoted string and for decoded base64. *)
Theorem first_level_leaves key value h sent h' :
  wf h key -> len key = cap key ->
  search key value h = Some (sent, h') ->
  (forall valueMap k v,
      JSON.Unmarshal_map value = Some valueMap -> In (k, v) valueMap ->
      exists kv, In kv sent /\ leaf_at h' kv (read h key ++ [k]) v)
  /\ (forall valueList i v,
        JSON.Unmarshal_list value = Some valueList ->
        valueList !! i = Some v ->
        exists kv, In kv sent /\ leaf_at h' kv (read h key ++ [itoa i]) v)
  /\ (forall valueString,
        JSON.Unmarshal_string value = Some valueString ->
        exists kv, In kv sent /\ leaf_at h' kv (read h key) valueString)
  /\ (0 < String.length (fst (Base64.DecodeString value)) ->
      exists kv, In kv sent
                 /\ leaf_at h' kv (read h key) (fst (Base64.DecodeString value))).
Proof.
  intros W Full.
  rewrite (search_unfold growcap map_order map_order_perm).
  unfold Correlate.search_body. intros E.
  apply andThen_inv in E as (s1 & h1 & r1 & E1 & E & ->).
  apply andThen_inv in E as (s2 & h2 & r2 & E2 & E & ->).
  apply andThen_inv in E as (s3 & h3 & r3 & E3 & E & ->).
  apply andThen_inv in E as (s4 & h4 & r4 & E4 & E & ->).
  injection E as E5 E6. subst r4 h4.
  assert (FA : forall (l : list (string * string)),
             framed key (for_each
               (fun kv h0 => let '(key', h0') := append growcap key (fst kv) h0 in
                             search key' (snd kv) h0') l)).
  { intros l. apply framed_for_each. intros kv _.
    apply (framed_append growcap key (fst kv) (fun key' => search key' (snd kv))).
    intros key'. apply search_framed. }
  assert (FB : forall (l : list (nat * string)),
             framed key (for_each
               (fun kv h0 =>
                  let '(key', h0') := append growcap key (itoa (fst kv)) h0 in
                  search key' (snd kv) h0') l)).
  { intros l. apply framed_for_each. intros kv _.
    apply (framed_append growcap key (itoa (fst kv))
             (fun key' => search key' (snd kv))).
    intros key'. apply search_framed. }
  assert (F1 : framed key
            match JSON.Unmarshal_map value with
            | Some valueMap =>
                for_each (fun kv h0 =>
                            let '(key', h0') := append growcap key (fst kv) h0 in
                            search key' (snd kv) h0') (map_order valueMap)
            | None => nothing
            end)
    by (destruct (JSON.Unmarshal_map value); [apply FA | apply framed_nothing]).
  assert (F2 : framed key
            match JSON.Unmarshal_list value with
            | Some valueList =>
                for_each (fun kv h0 =>
                            let '(key', h0') :=
                              append growcap key (itoa (fst kv)) h0 in
                            search key' (snd kv) h0') (indexed valueList)
            | None => nothing
            end)
    by (destruct (JSON.Unmarshal_list value); [apply FB | apply framed_nothing]).
  assert (F3 : framed key
            match JSON.Unmarshal_string value with
            | Some valueString => search key valueString
            | None => nothing
            end)
    by (destruct (JSON.Unmarshal_string value);
        [apply search_framed | apply framed_nothing]).
  assert (F4 : framed key
            (let bytes := fst (Base64.DecodeString value) in
             if 0 <? String.length bytes then search key bytes else nothing))
    by (cbv zeta; destruct (0 <? _);
        [apply search_framed | apply framed_nothing]).
  destruct (framed_state _ _ _ _ _ F1 W E1) as (W1 & R1).
  destruct (framed_state _ _ _ _ _ F2 W1 E2) as (W2 & R2).
  destruct (framed_state _ _ _ _ _ F3 W2 E3) as (W3 & R3).
  pose proof (fun kv path v => framed_keeps key _ h1 s2 h2 kv path v F2 W1 E2)
    as K2.
  pose proof (fun kv path v => framed_keeps key _ h2 s3 h3 kv path v F3 W2 E3)
    as K3.
  pose proof (fun kv path v => framed_keeps key _ h3 s4 h' kv path v F4 W3 E4)
    as K4.
  repeat split.
  - intros valueMap k v Em Hin. rewrite Em in E1.
    apply (Permutation_in _ (Permutation_sym (map_order_perm _))) in Hin.
    destruct (for_each_framed_leaf key
                (fun kv h0 => let '(key', h0') := append growcap key (fst kv) h0 in
                              search key' (snd kv) h0')
                (fun kv => read h key ++ [fst kv]) snd (map_order valueMap)
                (read h key)
                (fun kv => framed_append growcap key (fst kv)
                             (fun key' => search key' (snd kv))
                             (fun key' => search_framed _ _ key' (snd kv))))
      with (h := h) (sent := s1) (h' := h1) (x := (k, v))
      as (kv & Hk & La & Hp); auto.
    { intros x h0 s0 h5 W0 R0 E0. rewrite <- R0.
      now apply (child_leaf key (fst x) (snd x) h0 s0 h5). }
    exists kv. split; [apply in_app_iff; now left|].
    apply K4; [|now left]. apply K3; [|now left]. apply K2; [|now left].
    exact La.
  - intros valueList i v El Hl. rewrite El in E2.
    apply in_indexed_lookup in Hl.
    destruct (for_each_framed_leaf key
                (fun kv h0 =>
                   let '(key', h0') := append growcap key (itoa (fst kv)) h0 in
                   search key' (snd kv) h0')
                (fun kv => read h key ++ [itoa (fst kv)]) snd (indexed valueList)
                (read h key)
                (fun kv => framed_append growcap key (itoa (fst kv))
                             (fun key' => search key' (snd kv))
                             (fun key' => search_framed _ _ key' (snd kv))))
      with (h := h1) (sent := s2) (h' := h2) (x := (i, v))
      as (kv & Hk & La & Hp); auto.
    { intros x h0 s0 h5 W0 R0 E0. rewrite <- R0.
      now apply (child_leaf key (itoa (fst x)) (snd x) h0 s0 h5). }
    exists kv. split; [apply in_app_iff; right; apply in_app_iff; now left|].
    apply K4; [|now left]. apply K3; [|now left]. exact La.
  - intros valueString Es. rewrite Es in E3.
    destruct (search_sends_value growcap map_order map_order_perm _ _ _ _ _ E3)
      as (kv & Hk & Hkey & Hv).
    exists kv. split.
    { apply in_app_iff; right; apply in_app_iff; right; apply in_app_iff;
        now left. }
    apply K4; [|now right].
    unfold leaf_at. rewrite Hkey. destruct W3 as (P3 & _).
    repeat split; auto. congruence.
  - intros L. cbv zeta in E4.
    destruct (Nat.ltb_spec 0 (String.length (fst (Base64.DecodeString value))));
      [|lia].
    destruct (search_sends_value growcap map_order map_order_perm _ _ _ _ _ E4)
      as (kv & Hk & Hkey & Hv).
    exists kv. split.
    { apply in_app_iff; right; apply in_app_iff; right; apply in_app_iff;
        right; apply in_app_iff; now left. }
    destruct (framed_state key (search key (fst (Base64.DecodeString value)))
                h3 s4 h' (search_framed _ _ _ _) W3 E4) as ((P4 & _) & R4).
    unfold leaf_at. rewrite Hkey. repeat split; auto. congruence.
Qed.

End FirstLevel.

(** * Children of a key with spare capacity *)

Section SharedArray.
Import Slice Correlate.

Variable growcap : nat -> nat.
Variable map_order : list (string * string) -> list (string * string).
Hypothesis map_order_perm : forall m, Permutation (map_order m) m.

Local Abbreviation search := (Correlate.search growcap map_order).

(** Base64 decoding stops at once, with no byte, at the first byte of a JSON
    text that is neither in the alphabet, nor a line break, nor the padding
    character: the space before it is skipped or is itself in error. *)
Lemma decode_after_space d c s :
  JSON.skip_space d = c :: s ->
  Base64.decodeMap c = None -> Base64.is_newline c = false ->
  Ascii.eqb c Base64.padChar = false ->
  fst (Base64.decode d []) = [].
Proof.
  intros Es Hm Hn Hp. induction d as [|a d IH]; [discriminate|].
  cbn [JSON.skip_space] in Es.
  destruct (JSON.isSpace a) eqn:Ea.
  - specialize (IH Es). unfold JSON.isSpace in Ea.
    apply orb_true_iff in Ea as [Ea|Ea];
      [apply orb_true_iff in Ea as [Ea|Ea];
       [apply orb_true_iff in Ea as [Ea|Ea]|]|];
      apply Ascii.eqb_eq in Ea; subst a; cbn [Base64.decode];
      first [ exact IH | reflexivity ].
  - injection Es as -> ->. cbn [Base64.decode]. rewrite Hm, Hn, Hp.
    reflexivity.
Qed.

(** A text that unmarshals into a list with an element is an array: none of
    the other interpretations that [search] tries applies to it. *)
Lemma list_value_only value valueList :
  JSON.Unmarshal_list value = Some valueList -> valueList <> [] ->
  JSON.Unmarshal_map value = None
  /\ JSON.Unmarshal_string value = None
  /\ fst (Base64.DecodeString value) = EmptyString.
Proof.
  unfold JSON.Unmarshal_list, JSON.Unmarshal_map, JSON.Unmarshal_string,
    Base64.DecodeString.
  destruct (JSON.checkValid (list_ascii_of_string value)); [|discriminate].
  destruct (JSON.skip_space (list_ascii_of_string value)) as [|c s] eqn:Es;
    [discriminate|].
  destruct (Ascii.eqb c "["%char) eqn:Ec.
  - apply Ascii.eqb_eq in Ec. subst c. intros _ _.
    repeat split; try reflexivity.
    pose proof (decode_after_space _ _ _ Es eq_refl eq_refl eq_refl) as D.
    destruct (Base64.decode (list_ascii_of_string value) []) as [out err].
    cbn [fst] in *. now subst out.
  - destruct (Ascii.eqb c "n"%char); [|discriminate].
    intros [= <-] N. now destruct N.
Qed.

Lemma last_indexed {A : Type} (l : list A) x :
  last (indexed l) = Some x -> fst x = length l - 1.
Proof.
  unfold indexed.
  assert (G : forall (l0 : list A) k,
             last (combine (seq k (length l0)) l0) = Some x ->
             fst x = k + length l0 - 1).
  { induction l0 as [|y l0 IH]; intros k; [discriminate|].
    cbn [length seq combine].
    destruct l0 as [|z l0].
    - cbn. intros [= <-]. cbn. lia.
    - intros H.
      change (last (combine (seq (S k) (length (z :: l0))) (z :: l0)) = Some x)
        in H.
      rewrite (IH _ H). cbn [length]. lia. }
  intros H. now rewrite (G l 0 H).
Qed.

(** The loop over the elements when the key has spare capacity: every
    [append] writes the same slot of the array of [key], every child gets the
    same slice, and the slot holds what the last iteration wrote. *)
Lemma inplace_children key (f : nat * string -> string) l :
  len key < cap key ->
  forall h sent h',
    wf h key ->
    for_each (fun kv h0 =>
                let '(key', h0') := append growcap key (f kv) h0 in
                search key' (snd kv) h0') l h = Some (sent, h') ->
    wf h' key
    /\ take (len key) (array h' key) = take (len key) (array h key)
    /\ (forall x, last l = Some x -> array h' key !! len key = Some (f x))
    /\ (forall x, In x l ->
          exists kv, In kv sent
                     /\ Key kv = mkSlice (ptr key) (S (len key)) (cap key)
                     /\ Value kv = snd x).
Proof.
  intros L. induction l as [|y l IH]; intros h sent h' W E.
  - cbn [for_each] in E. injection E as <- <-.
    split; [exact W|]. split; [reflexivity|].
    split; [intros x Hx; cbn in Hx; discriminate|intros x []].
  - cbn [for_each] in E.
    pose proof (append_wf growcap key (f y) h W) as W'.
    destruct (append growcap key (f y) h) as [key' h0] eqn:Ea.
    cbn [fst snd] in W'.
    destruct (search key' (snd y) h0) as [[s1 h1]|] eqn:E1; [|discriminate].
    destruct (for_each _ l h1) as [[s2 h2]|] eqn:E2; [|discriminate].
    injection E as <- <-.
    pose proof (search_framed growcap map_order _ (snd y) _ _ _ W' E1)
      as (F1 & F2 & F3 & F4 & F5).
    unfold append in Ea.
    assert (Lt : (len key <? cap key) = true) by (apply Nat.ltb_lt; lia).
    rewrite Lt in Ea. injection Ea as <- <-.
    destruct W as (Wa & Wb & Wc).
    cbn [len] in F3.
    assert (Ar : forall a, array a (mkSlice (ptr key) (S (len key)) (cap key))
                           = array a key) by reflexivity.
    rewrite !Ar in F3, F4.
    rewrite array_insert in F3, F4 by auto.
    rewrite length_insert in F1. rewrite length_insert in F4.
    assert (Wk : wf h1 key) by (unfold wf; lia).
    assert (T1 : take (len key) (array h1 key) = take (len key) (array h key)).
    { apply (f_equal (take (len key))) in F3.
      rewrite !take_take in F3.
      replace (len key `min` S (len key)) with (len key) in F3 by lia.
      rewrite F3. apply take_insert_ge. lia. }
    assert (S1 : array h1 key !! len key = Some (f y)).
    { apply (f_equal (fun a => a !! len key)) in F3.
      rewrite !lookup_take_lt in F3 by lia.
      rewrite F3. apply list_lookup_insert_eq. lia. }
    destruct (IH _ _ _ Wk E2) as (I1 & I2 & I3 & I4).
    split; [|split; [|split]].
    + exact I1.
    + congruence.
    + intros x Hx. destruct l as [|z l].
      * injection E2 as <- <-. cbn in Hx. injection Hx as <-. exact S1.
      * apply I3. exact Hx.
    + intros x [<-|Hx].
      * destruct (search_sends_value growcap map_order map_order_perm
                    _ _ _ _ _ E1) as (kv & Hin & Hk & Hv).
        exists kv. split; [apply in_app_iff; now left|]. now split.
      * destruct (I4 x Hx) as (kv & Hin & Hk). exists kv.
        split; [apply in_app_iff; now right|exact Hk].
Qed.

(** When the slice [key] has room left, [append] writes in place: the
    elements of an array value all get the same slice, and after the call
    the leaf of every element reads as [key] followed by the index of the
    last element. *)
Theorem shared_array_siblings key value h sent h' valueList :
  wf h key -> len key < cap key ->
  search key value h = Some (sent, h') ->
  JSON.Unmarshal_list value = Some valueList ->
  forall i v, valueList !! i = Some v ->
    exists kv, In kv sent
               /\ leaf_at h' kv
                    (read h key ++ [itoa (length valueList - 1)]) v.
Proof.
  intros W L E El i v Hl.
  assert (Ne : valueList <> []) by (intros ->; discriminate).
  destruct (list_value_only _ _ El Ne) as (Em & Es & Eb).
  rewrite (search_unfold growcap map_order map_order_perm) in E.
  unfold Correlate.search_body in E. rewrite Em, El, Es, Eb in E.
  cbn [String.length Nat.ltb Nat.leb] in E.
  apply andThen_inv in E as (s1 & h1 & r1 & E1 & E & ->).
  apply andThen_inv in E as (s2 & h2 & r2 & E2 & E & ->).
  apply andThen_inv in E as (s3 & h3 & r3 & E3 & E & ->).
  apply andThen_inv in E as (s4 & h4 & r4 & E4 & E & ->).
  injection E1 as <- <-. injection E3 as <- <-. injection E4 as <- <-.
  injection E as E5 E6. subst r4 h2.
  destruct (inplace_children key (fun kv => itoa (fst kv)) (indexed valueList)
              L _ _ _ W E2) as (W2 & T2 & S2 & I2).
  destruct (I2 (i, v) (in_indexed_lookup _ _ _ Hl)) as (kv & Hin & Hk & Hv).
  exists kv. split; [apply in_app_iff; right; apply in_app_iff; now left|].
  destruct (last (indexed valueList)) as [x|] eqn:Ex.
  - specialize (S2 x eq_refl). rewrite (last_indexed _ _ Ex) in S2.
    unfold leaf_at. rewrite Hk. cbn [ptr]. destruct W2 as (P1 & P2 & P3).
    repeat split; auto.
    unfold read. cbn [len].
    change (array h' (mkSlice (ptr key) (S (len key)) (cap key)))
      with (array h' key).
    rewrite (take_S_r _ _ _ S2). now rewrite T2.
  - apply last_None in Ex. apply in_indexed_lookup in Hl.
    rewrite Ex in Hl. destruct Hl.
Qed.

End SharedArray.

(** * When the correlation tool panics *)

Section CorrelationPanic.
Import Slice Correlate.

Variable growcap : nat -> nat.
Variable map_order : list (string * string) -> list (string * string).
Variable url_Parse : string -> URL.URL + string.
Hypothesis map_order_perm : forall m, Permutation (map_order m) m.

Local Abbreviation host_filter := (Correlate.host_filter url_Parse).
Local Abbreviation entries_loop :=
  (Correlate.entries_loop growcap map_order url_Parse).
Local Abbreviation main := (Correlate.main growcap map_order url_Parse).

Lemma entries_loop_outcome domains es : forall acc h,
  (Exists (fun entry =>
             match host_filter domains (Har.URL (Har.Request_ entry)) with
             | None => True
             | Some true =>
                 snd (Base64.DecodeString (Har.Response_Content_Text entry))
                 = true
             | Some false => False
             end) es ->
   exists hf, entries_loop domains es acc h = Some (None, hf))
  /\ (Forall (fun entry =>
                match host_filter domains (Har.URL (Har.Request_ entry)) with
                | None => False
                | Some true =>
                    snd (Base64.DecodeString (Har.Response_Content_Text entry))
                    = false
                | Some false => True
                end) es ->
      exists results hf,
        entries_loop domains es acc h = Some (Some results, hf)).
Proof.
  induction es as [|e es IH]; intros acc h.
  - split; [intros Hx; inversion Hx|]. intros _. cbn. eauto.
  - cbn [Correlate.entries_loop]. unfold Correlate.entry_step.
    split.
    + intros Hx.
      destruct (host_filter domains (Har.URL (Har.Request_ e))) as [[|]|] eqn:Hf.
      * destruct (Base64.DecodeString (Har.Response_Content_Text e))
          as [body [|]] eqn:Hd; [eauto|].
        destruct (entry_producer_total growcap map_order map_order_perm
                    (Har.Request_ e) h) as [[sent h1] ->].
        apply (IH _ h1).
        inversion Hx as [? ? B|? ? B]; subst; [|exact B].
        rewrite Hf, Hd in B. cbn [snd] in B. discriminate.
      * apply (IH acc h).
        inversion Hx as [? ? B|? ? B]; subst; [|exact B].
        rewrite Hf in B. destruct B.
      * eauto.
    + intros Ha. inversion Ha as [|? ? B Ha']. subst.
      destruct (host_filter domains (Har.URL (Har.Request_ e))) as [[|]|].
      * destruct (Base64.DecodeString (Har.Response_Content_Text e))
          as [body err]. cbn [snd] in B. subst err.
        destruct (entry_producer_total growcap map_order map_order_perm
                    (Har.Request_ e) h) as [[sent h1] ->].
        now apply (IH _ h1).
      * now apply (IH acc h).
      * destruct B.
Qed.

(** The outcome of a run on an archive that was read.  The run panics when
    some entry either has a URL that [url.Parse] rejects while an allow-list
    is given, or passes the host filter with a response text that is not
    valid base64; the entries after it do not matter.  Otherwise, when every
    entry is skipped by the filter or has a response text that decodes, the
    run prints its results. *)
Theorem main_outcome domainsFlag entries :
  (Exists (fun entry =>
             match host_filter (Strings.Fields domainsFlag)
                     (Har.URL (Har.Request_ entry)) with
             | None => True
             | Some true =>
                 snd (Base64.DecodeString (Har.Response_Content_Text entry))
                 = true
             | Some false => False
             end) entries ->
   main domainsFlag (Some entries) = Some Panicked)
  /\ (Forall (fun entry =>
                match host_filter (Strings.Fields domainsFlag)
                        (Har.URL (Har.Request_ entry)) with
                | None => False
                | Some true =>
                    snd (Base64.DecodeString (Har.Response_Content_Text entry))
                    = false
                | Some false => True
                end) entries ->
      exists results,
        main domainsFlag (Some entries) = Some (Printed results)).
Proof.
  unfold Correlate.main.
  destruct (entries_loop_outcome (Strings.Fields domainsFlag) entries [] [])
    as (P & Q).
  split.
  - intros Hx. destruct (P Hx) as (hf & ->). reflexivity.
  - intros Ha. destruct (Q Ha) as (results & hf & ->). eauto.
Qed.

End CorrelationPanic.

(** * Instances of the further properties *)

Lemma interpretations_are_sent_witness :
  exists sent h',
    Correlate.search Sample.growcap Sample.map_order
      (Slice.mkSlice 0 1 1) "[1,[2,3]]" [["body"]] = Some (sent, h')
    /\ forall v, In v (Correlate.recursed "[1,[2,3]]") ->
         exists kv, In kv sent /\ Correlate.Value kv = v.
Proof.
  eexists _, _. split; [vm_compute; reflexivity|].
  exact (interpretations_are_sent Sample.growcap Sample.map_order sample_perm
           (Slice.mkSlice 0 1 1) "[1,[2,3]]" [["body"]] _ _
           ltac:(vm_compute; reflexivity)).
Defined.

Lemma dump_values_are_searched_witness :
  exists out sent h',
    Dump.printParam Sample.json_Marshal Sample.IsPrint Sample.map_order
      "body" "[1,[2,3]]" "GET http://example.com/" = Some out
    /\ Correlate.search Sample.growcap Sample.map_order
         (Slice.mkSlice 0 1 1) "[1,[2,3]]" [["body"]] = Some (sent, h')
    /\ forall b, In b out ->
         exists kv, In kv sent /\ Correlate.Value kv = Dump.value b.
Proof.
  eexists _, _, _. split; [vm_compute; reflexivity|].
  split; [vm_compute; reflexivity|].
  exact (dump_values_are_searched Sample.growcap Sample.map_order
           Sample.json_Marshal Sample.IsPrint sample_perm
           "body" "[1,[2,3]]" "GET http://example.com/" _
           (Slice.mkSlice 0 1 1) [["body"]] _ _
           ltac:(vm_compute; reflexivity) ltac:(vm_compute; reflexivity)).
Defined.

Lemma entry_blocks_witness :
  exists o,
    Dump.print_entry Sample.json_Marshal Sample.IsPrint Sample.map_order
      Sample.url_Parse Sample.url_String EmptyString
      (Har.mkRequest "GET" "http://example.com/s?q=hi"
         [Har.mkNameValue "q" "[1,2]"] [Har.mkNameValue "f" "aGk="] "x")
    = Some o
    /\ Dump.panicked o = false
    /\ exists u,
         Sample.url_Parse "http://example.com/s?q=hi" = inl u
         /\ forall b, In b (Dump.stdout o) ->
              Dump.request b
              = "GET" +:+ " "
                +:+ Sample.url_String (URL.set_RawQuery u EmptyString)
              /\ exists suffix,
                   Dump.key b = "query" +:+ suffix
                   \/ Dump.key b = "form" +:+ suffix
                   \/ Dump.key b = "body" +:+ suffix.
Proof.
  eexists. split; [vm_compute; reflexivity|].
  split; [reflexivity|].
  apply (entry_blocks Sample.json_Marshal Sample.IsPrint Sample.map_order
           Sample.url_Parse Sample.url_String EmptyString
           (Har.mkRequest "GET" "http://example.com/s?q=hi"
              [Har.mkNameValue "q" "[1,2]"] [Har.mkNameValue "f" "aGk="] "x"));
    vm_compute; reflexivity.
Defined.

Lemma print_entries_panic_witness :
  exists out,
    Dump.print_entries Sample.json_Marshal Sample.IsPrint Sample.map_order
      Sample.url_Parse Sample.url_String "a.har: "
      [Har.mkEntry (Har.mkRequest "GET" "http://example.com/a?q=hi"
                      [Har.mkNameValue "q" "hi"] [] EmptyString) EmptyString]
    = Some (Dump.quiet out)
    /\ In (Dump.mkBlock (Dump.makeKey Sample.json_Marshal "query" "q") "hi"
                        "GET http://example.com/a") out
    /\ Dump.print_entries Sample.json_Marshal Sample.IsPrint Sample.map_order
         Sample.url_Parse Sample.url_String "a.har: "
         [Har.mkEntry (Har.mkRequest "GET" "http://example.com/a?q=hi"
                         [Har.mkNameValue "q" "hi"] [] EmptyString) EmptyString;
          Har.mkEntry (Har.mkRequest "GET" "http://example.com:abc/c?r=yo"
                         [Har.mkNameValue "r" "yo"] [] EmptyString) EmptyString;
          Har.mkEntry (Har.mkRequest "GET" "http://example.com/c?s=no"
                         [Har.mkNameValue "s" "no"] [] EmptyString) EmptyString]
       = Some (Dump.mkOutput out
                 ["a.har: parse " +:+ Sample.quoted "http://example.com:abc/c?r=yo"
                  +:+ ": invalid port " +:+ Sample.quoted ":abc"
                  +:+ " after host"] true).
Proof.
  destruct (print_entries_panic Sample.json_Marshal Sample.IsPrint
              Sample.map_order Sample.url_Parse Sample.url_String
              sample_perm "a.har: "
              [Har.mkEntry (Har.mkRequest "GET" "http://example.com/a?q=hi"
                              [Har.mkNameValue "q" "hi"] [] EmptyString)
                           EmptyString])
    as (outs & _ & Ep & Hin & Hpanic).
  - constructor; [|constructor]. eexists. vm_compute. reflexivity.
  - exists (concat outs). split; [exact Ep|]. split.
    + assert (Eu : Sample.url_Parse "http://example.com/a?q=hi"
                   = inl (URL.mkURL "http" EmptyString None "example.com" "/a"
                                    "q=hi" EmptyString))
        by (vm_compute; reflexivity).
      exact (proj1 (Hin _ _ (or_introl eq_refl) Eu)
                   (Har.mkNameValue "q" "hi") (or_introl eq_refl)).
    + apply (Hpanic
               (Har.mkEntry (Har.mkRequest "GET" "http://example.com:abc/c?r=yo"
                               [Har.mkNameValue "r" "yo"] [] EmptyString)
                            EmptyString)
               [Har.mkEntry (Har.mkRequest "GET" "http://example.com/c?s=no"
                               [Har.mkNameValue "s" "no"] [] EmptyString)
                            EmptyString]).
      vm_compute. reflexivity.
Defined.

Lemma main_reports_reflection_witness :
  exists results,
    Correlate.main Sample.growcap Sample.map_order Sample.url_Parse
      "example.com"
      (Some [Har.mkEntry (Har.mkRequest "GET" "http://example.com/s?q=hi"
                            [Har.mkNameValue "q" "hi"] [] "there")
                         "aGkgdGhlcmU=";
             Har.mkEntry (Har.mkRequest "GET" "http://other.com/s?q=hi"
                            [Har.mkNameValue "q" "hi"] [] "there")
                         "aGkgdGhlcmU="])
    = Some (Correlate.Printed results)
    /\ Forall2
         (fun entry res =>
            Correlate.method res = Har.Method (Har.Request_ entry)
            /\ Correlate.url res = Har.URL (Har.Request_ entry)
            /\ (forall p, In p (Har.QueryString (Har.Request_ entry)) ->
                  Strings.Contains (Correlate.respBody entry) (Har.Value p)
                  = true ->
                  In (["query"; Har.Name p], Har.Value p) (Correlate.xss res))
            /\ (forall p, In p (Har.PostData_Params (Har.Request_ entry)) ->
                  Strings.Contains (Correlate.respBody entry) (Har.Value p)
                  = true ->
                  In (["form"; Har.Name p], Har.Value p) (Correlate.xss res))
            /\ (Strings.Contains (Correlate.respBody entry)
                  (Har.PostData_Text (Har.Request_ entry)) = true ->
                In (["body"], Har.PostData_Text (Har.Request_ entry))
                   (Correlate.xss res)))
         [Har.mkEntry (Har.mkRequest "GET" "http://example.com/s?q=hi"
                         [Har.mkNameValue "q" "hi"] [] "there")
                      "aGkgdGhlcmU="]
         results.
Proof.
  eexists. split; [vm_compute; reflexivity|].
  exact (main_reports_reflection Sample.growcap Sample.map_order
           Sample.url_Parse sample_perm "example.com"
           [Har.mkEntry (Har.mkRequest "GET" "http://example.com/s?q=hi"
                           [Har.mkNameValue "q" "hi"] [] "there")
                        "aGkgdGhlcmU=";
            Har.mkEntry (Har.mkRequest "GET" "http://other.com/s?q=hi"
                           [Har.mkNameValue "q" "hi"] [] "there")
                        "aGkgdGhlcmU="]
           _ ltac:(vm_compute; reflexivity)).
Defined.

Lemma main_without_filter_witness :
  Strings.Fields " " = []
  /\ exists results,
       Correlate.main Sample.growcap Sample.map_order Sample.url_Parse " "
         (Some [Har.mkEntry (Har.mkRequest "GET" "http://example.com/s?q=hi"
                               [Har.mkNameValue "q" "hi"] [] EmptyString)
                            "aGkgdGhlcmU=";
                Har.mkEntry (Har.mkRequest "POST" "%" [] [] "x") EmptyString])
       = Some (Correlate.Printed results)
       /\ map Correlate.method results = ["GET"; "POST"]
       /\ map Correlate.url results = ["http://example.com/s?q=hi"; "%"].
Proof.
  split; [vm_compute; reflexivity|].
  apply (main_without_filter Sample.growcap Sample.map_order Sample.url_Parse
           sample_perm " "
           [Har.mkEntry (Har.mkRequest "GET" "http://example.com/s?q=hi"
                           [Har.mkNameValue "q" "hi"] [] EmptyString)
                        "aGkgdGhlcmU=";
            Har.mkEntry (Har.mkRequest "POST" "%" [] [] "x") EmptyString]).
  - vm_compute; reflexivity.
  - repeat constructor.
Defined.

Lemma first_level_leaves_witness :
  Slice.wf [["body"]] (Slice.mkSlice 0 1 1)
  /\ exists sent h',
       Correlate.search Sample.growcap Sample.map_order
         (Slice.mkSlice 0 1 1) "[1,[2,3]]" [["body"]] = Some (sent, h')
       /\ forall valueList i v,
            JSON.Unmarshal_list "[1,[2,3]]" = Some valueList ->
            valueList !! i = Some v ->
            exists kv, In kv sent
                       /\ Correlate.leaf_at h' kv
                            (["body"] ++ [Correlate.itoa i]) v.
Proof.
  split; [exact sample_wf_body|].
  eexists _, _. split; [vm_compute; reflexivity|].
  exact (proj1 (proj2 (first_level_leaves Sample.growcap Sample.map_order
                         sample_perm (Slice.mkSlice 0 1 1) "[1,[2,3]]"
                         [["body"]] _ _ sample_wf_body eq_refl
                         ltac:(vm_compute; reflexivity)))).
Defined.

Lemma shared_array_siblings_witness :
  Slice.wf [["body"; "a"; "0"; EmptyString]] (Slice.mkSlice 0 3 4)
  /\ exists sent h',
       Correlate.search Sample.growcap Sample.map_order
         (Slice.mkSlice 0 3 4) "[7,8]" [["body"; "a"; "0"; EmptyString]]
       = Some (sent, h')
       /\ forall i v, ["7"; "8"] !! i = Some v ->
            exists kv, In kv sent
                       /\ Correlate.leaf_at h' kv ["body"; "a"; "0"; "1"] v.
Proof.
  assert (W : Slice.wf [["body"; "a"; "0"; EmptyString]] (Slice.mkSlice 0 3 4)).
  { unfold Slice.wf. simpl. repeat split; repeat constructor. }
  split; [exact W|].
  eexists _, _. split; [vm_compute; reflexivity|].
  exact (shared_array_siblings Sample.growcap Sample.map_order sample_perm
           (Slice.mkSlice 0 3 4) "[7,8]" [["body"; "a"; "0"; EmptyString]]
           _ _ ["7"; "8"] W ltac:(repeat constructor)
           ltac:(vm_compute; reflexivity) ltac:(vm_compute; reflexivity)).
Defined.

Lemma main_outcome_witness :
  Correlate.main Sample.growcap Sample.map_order Sample.url_Parse
    "example.com"
    (Some [Har.mkEntry (Har.mkRequest "GET" "http://other.com/s?q=hi"
                          [Har.mkNameValue "q" "hi"] [] EmptyString) "!!";
           Har.mkEntry (Har.mkRequest "GET" "http://example.com/s?q=hi"
                          [Har.mkNameValue "q" "hi"] [] EmptyString) "!!";
           Har.mkEntry (Har.mkRequest "GET" "http://example.com/t"
                          [] [] EmptyString) "aGkgdGhlcmU="])
  = Some Correlate.Panicked.
Proof.
  apply (proj1 (main_outcome Sample.growcap Sample.map_order Sample.url_Parse
                  sample_perm "example.com" _)).
  apply Exists_cons_tl, Exists_cons_hd. vm_compute. reflexivity.
Defined.

(** * What the encoder writes *)

Section WrittenFacts.
Import Bytes UTF8.
Local Open Scope N_scope.






End WrittenFacts.

Section WrittenFacts2.
Import Bytes UTF8.
Local Open Scope N_scope.









End WrittenFacts2.

Section WrittenFacts3.
Import Bytes UTF8.





End WrittenFacts3.

Section WrittenFacts4.
Import Bytes UTF8.





End WrittenFacts4.

Section WrittenResults.
Import UTF8 Correlate.



End WrittenResults.

